(** * NTIRE24 ISRx4 (team01_AsyNAF_1.py): pooling patch, pixel (un)shuffle, RLFN shapes

    A shallow embedding of [src/NTIRE_2024_ISR/src/team01_AsyNAF_1.py].

    - Tensors are 4-D arrays with an intrinsic shape [(N, C, H, W)] and rational
      entries ([Qc]), so that every statement is about exact arithmetic.
    - Python integers are [Z]; [//] is [Z.div] and [%] is [Z.modulo] (both
      round towards minus infinity, as Python does).
    - Code that can raise returns a [result]; code that writes attributes of
      [self] threads the object through explicitly.
    - torch primitives ([cumsum], [F.pad], slicing, broadcasting arithmetic,
      [torch.cat], [torch.gather], [F.adaptive_avg_pool2d], nearest
      [F.interpolate], [nn.PixelShuffle]) are modelled by their documented value
      semantics.  Operand shape mismatches are errors.  Replicate padding
      and [F.interpolate] accept an empty batch but reject an input with any
      other dimension of size 0, and a convolution rejects channel counts
      of 0.
    - [replace_layers] is modelled twice: on trees of modules, and on a heap
      of module objects, where one object can be registered under several
      names and [named_children()] yields it once. *)

From Stdlib Require Import ZArith List Bool Lia String QArith Qcanon Arith.
From Stdlib Require Import DecimalString.
Import ListNotations.

Close Scope Qc_scope.
Close Scope Q_scope.
Open Scope nat_scope.

(** ** Errors and the result monad *)

Inductive error : Type :=
| TypeError          (* subscripting [None] *)
| IndexError         (* list or tuple index out of range *)
| ZeroDivisionError  (* integer [//] or [%] by zero *)
| ValueError         (* slice step that is not positive, [torch.cat] of nothing *)
| AssertionError     (* a failing [assert] *)
| RuntimeError       (* torch: operand shapes do not fit *)
| RecursionError.    (* more nested calls than the interpreter allows *)

Inductive result (A : Type) : Type :=
| Ok (a : A)
| Err (e : error).

Arguments Ok {A} a.
Arguments Err {A} e.

Definition bind {A B : Type} (r : result A) (k : A -> result B) : result B :=
  match r with
  | Ok a => k a
  | Err e => Err e
  end.

Declare Scope result_scope.
Delimit Scope result_scope with result.
Notation "'do' x <- r ; k" := (bind r (fun x => k))
  (at level 10, x name, r at level 100, k at level 200) : result_scope.
Open Scope result_scope.

Definition is_ok {A : Type} (r : result A) : bool :=
  match r with Ok _ => true | Err _ => false end.

(** ** Python integer helpers *)

(** [a // b] on Python ints. *)
Definition floordiv (a b : Z) : result Z :=
  if (b =? 0)%Z then Err ZeroDivisionError else Ok (a / b)%Z.

(** [l[i]] on a Python list or tuple, negative indices counting from the end. *)
Definition py_index {A : Type} (l : list A) (i : Z) : result A :=
  let n := Z.of_nat (List.length l) in
  let j := if (i <? 0)%Z then (i + n)%Z else i in
  if ((j <? 0) || (n <=? j))%Z then Err IndexError
  else match nth_error l (Z.to_nat j) with
       | Some a => Ok a
       | None => Err IndexError
       end.

(** Bounds of [seq[start:stop:step]] on a sequence of length [len]
    (step positive): first index and number of selected elements. *)
Definition slice_bound (len : nat) (dflt : Z) (b : option Z) : Z :=
  match b with
  | None => dflt
  | Some i =>
      let n := Z.of_nat len in
      let j := if (i <? 0)%Z then (i + n)%Z else i in
      Z.max 0 (Z.min n j)
  end.

Definition py_slice (len : nat) (start stop : option Z) (step : Z)
  : result (nat * nat) :=
  if (step <=? 0)%Z then Err ValueError
  else
    let lo := slice_bound len 0 start in
    let hi := slice_bound len (Z.of_nat len) stop in
    let cnt := if (lo <? hi)%Z then ((hi - lo + step - 1) / step)%Z else 0%Z in
    Ok (Z.to_nat lo, Z.to_nat cnt).

(** ** Tensors *)

Record Tensor : Type := mkTensor {
  dimN : nat;
  dimC : nat;
  dimH : nat;
  dimW : nat;
  get : nat -> nat -> nat -> nat -> Qc
}.

(** Same shape, same entry at every position of that shape. *)
Definition tensor_eq (s t : Tensor) : Prop :=
  dimN s = dimN t /\ dimC s = dimC t /\ dimH s = dimH t /\ dimW s = dimW t /\
  forall b c i j, b < dimN s -> c < dimC s -> i < dimH s -> j < dimW s ->
    get s b c i j = get t b c i j.

Definition has_shape (t : Tensor) (n c h w : nat) : Prop :=
  dimN t = n /\ dimC t = c /\ dimH t = h /\ dimW t = w.

(** A tensor given by nested Python lists (used for concrete inputs). *)
Definition nth4 (d : list (list (list (list Qc)))) (b c i j : nat) : Qc :=
  nth j (nth i (nth c (nth b d []) []) []) 0%Qc.

Definition tensor_of_list (d : list (list (list (list Qc)))) : Tensor :=
  let p0 := hd [] d in
  let r0 := hd [] p0 in
  mkTensor (List.length d) (List.length p0) (List.length r0)
           (List.length (hd [] r0)) (nth4 d).

(** [sum_below f n] is [f 0 + ... + f (n-1)]. *)
Fixpoint sum_below (f : nat -> Qc) (n : nat) : Qc :=
  match n with
  | O => 0%Qc
  | S m => (sum_below f m + f m)%Qc
  end.

(** Running sum as [cumsum] computes it: [out[0] = x[0]], [out[j] = out[j-1] + x[j]]. *)
Fixpoint prefix_sum (f : nat -> Qc) (j : nat) : Qc :=
  match j with
  | O => f O
  | S j' => (prefix_sum f j' + f (S j'))%Qc
  end.

(** [t.cumsum(dim=-1)] *)
Definition cumsum_w (t : Tensor) : Tensor :=
  mkTensor (dimN t) (dimC t) (dimH t) (dimW t)
    (fun b c i j => prefix_sum (fun u => get t b c i u) j).

(** [t.cumsum(dim=-2)] *)
Definition cumsum_h (t : Tensor) : Tensor :=
  mkTensor (dimN t) (dimC t) (dimH t) (dimW t)
    (fun b c i j => prefix_sum (fun u => get t b c u j) i).

(** [F.pad(t, (left, right, top, bottom))], constant mode with value 0. *)
Definition pad_zero (left right top bottom : nat) (t : Tensor) : Tensor :=
  mkTensor (dimN t) (dimC t) (top + dimH t + bottom) (left + dimW t + right)
    (fun b c i j =>
       if (i <? top) || (top + dimH t <=? i) || (j <? left) || (left + dimW t <=? j)
       then 0%Qc
       else get t b c (i - top) (j - left)).

(** [t[:, :, hs, ws]] for two slices with positive steps. *)
Definition slice_hw (hstart hstop : option Z) (hstep : Z)
                    (wstart wstop : option Z) (wstep : Z)
                    (t : Tensor) : result Tensor :=
  do rh <- py_slice (dimH t) hstart hstop hstep;
  do rw <- py_slice (dimW t) wstart wstop wstep;
  Ok (mkTensor (dimN t) (dimC t) (snd rh) (snd rw)
        (fun b c i j =>
           get t b c (fst rh + i * Z.to_nat hstep) (fst rw + j * Z.to_nat wstep))).

(** Broadcasting of one dimension: equal sizes, or one of them is 1. *)
Definition broadcast_dim (a b : nat) : result nat :=
  if a =? b then Ok a
  else if a =? 1 then Ok b
  else if b =? 1 then Ok a
  else Err RuntimeError.

Definition bidx (d i : nat) : nat := if d =? 1 then 0 else i.

(** Elementwise binary operation with broadcasting. *)
Definition tensor_binop (op : Qc -> Qc -> Qc) (s t : Tensor) : result Tensor :=
  do n <- broadcast_dim (dimN s) (dimN t);
  do c <- broadcast_dim (dimC s) (dimC t);
  do h <- broadcast_dim (dimH s) (dimH t);
  do w <- broadcast_dim (dimW s) (dimW t);
  Ok (mkTensor n c h w
        (fun b ch i j =>
           op (get s (bidx (dimN s) b) (bidx (dimC s) ch) (bidx (dimH s) i) (bidx (dimW s) j))
              (get t (bidx (dimN t) b) (bidx (dimC t) ch) (bidx (dimH t) i) (bidx (dimW t) j)))).

Definition tensor_add : Tensor -> Tensor -> result Tensor := tensor_binop Qcplus.
Definition tensor_sub : Tensor -> Tensor -> result Tensor := tensor_binop Qcminus.

Definition Z2Qc (z : Z) : Qc := Q2Qc (inject_Z z).

(** [t / k] for a Python int [k]. *)
Definition div_scalar (t : Tensor) (k : Z) : Tensor :=
  mkTensor (dimN t) (dimC t) (dimH t) (dimW t)
    (fun b c i j => (get t b c i j / Z2Qc k)%Qc).

(** [F.adaptive_avg_pool2d(t, 1)]: the mean of every (H, W) plane. *)
Definition plane_sum (t : Tensor) (b c : nat) : Qc :=
  sum_below (fun i => sum_below (fun j => get t b c i j) (dimW t)) (dimH t).

Definition adaptive_avg_pool2d_1 (t : Tensor) : Tensor :=
  mkTensor (dimN t) (dimC t) 1 1
    (fun b c _ _ => (plane_sum t b c / Z2Qc (Z.of_nat (dimH t * dimW t)))%Qc).

(** [F.interpolate(t, scale_factor=(r1, r2))], default mode 'nearest', integer
    factors.  The input may have an empty batch, but no other dimension of
    size 0, and the output must have a positive height and width. *)
Definition interpolate_nearest (r1 r2 : Z) (t : Tensor) : result Tensor :=
  if (dimC t =? 0) || (dimH t =? 0) || (dimW t =? 0)
     || (r1 <=? 0)%Z || (r2 <=? 0)%Z
  then Err RuntimeError
  else
    Ok (mkTensor (dimN t) (dimC t)
          (Z.to_nat (Z.of_nat (dimH t) * r1)) (Z.to_nat (Z.of_nat (dimW t) * r2))
          (fun b c i j => get t b c (i / Z.to_nat r1) (j / Z.to_nat r2))).

(** [F.pad(t, (left, right, top, bottom), mode='replicate')].  A negative
    amount crops.  The input may have an empty batch, but no other dimension
    of size 0; the padded height and width must not be negative, and not
    both be 0. *)
Definition clamp_index (len : nat) (i : Z) : nat :=
  Z.to_nat (Z.max 0 (Z.min (Z.of_nat len - 1) i)).

Definition pad_replicate (left right top bottom : Z) (t : Tensor) : result Tensor :=
  let oh := (Z.of_nat (dimH t) + top + bottom)%Z in
  let ow := (Z.of_nat (dimW t) + left + right)%Z in
  if (dimC t =? 0) || (dimH t =? 0) || (dimW t =? 0) then Err RuntimeError
  else if (oh <? 0)%Z || (ow <? 0)%Z || ((oh <? 1)%Z && (ow <? 1)%Z)
  then Err RuntimeError
  else
    Ok (mkTensor (dimN t) (dimC t) (Z.to_nat oh) (Z.to_nat ow)
          (fun b c i j =>
             get t b c (clamp_index (dimH t) (Z.of_nat i - top))
                       (clamp_index (dimW t) (Z.of_nat j - left)))).

(** ** [class AvgPool2d] *)

(** [base_size] is an int or a pair; [train_size] is a tuple such as
    [(1, 3, 256, 256)]. *)
Inductive BaseSize : Type :=
| BS_int (b : Z)
| BS_pair (b0 b1 : Z).

Record AvgPool2d : Type := mkAvgPool2d {
  kernel_size : option (Z * Z);
  base_size : option BaseSize;
  auto_pad : bool;
  fast_imp : bool;
  max_r1 : Z;
  max_r2 : Z;
  train_size : option (list Z)
}.

(** [self.rs], assigned once in [__init__] and never written again. *)
Definition rs : list Z := [5; 4; 3; 2; 1]%Z.

Definition rs0 : Z := hd 0%Z rs.

(** [AvgPool2d.__init__] *)
Definition init (kernel_size : option (Z * Z)) (base_size : option BaseSize)
    (auto_pad fast_imp : bool) (train_size : option (list Z)) : AvgPool2d :=
  mkAvgPool2d kernel_size base_size auto_pad fast_imp rs0 rs0 train_size.

Definition set_kernel_size (ks : option (Z * Z)) (s : AvgPool2d) : AvgPool2d :=
  mkAvgPool2d ks (base_size s) (auto_pad s) (fast_imp s) (max_r1 s) (max_r2 s) (train_size s).
Definition set_base_size (bs : option BaseSize) (s : AvgPool2d) : AvgPool2d :=
  mkAvgPool2d (kernel_size s) bs (auto_pad s) (fast_imp s) (max_r1 s) (max_r2 s) (train_size s).
Definition set_max_r1 (r : Z) (s : AvgPool2d) : AvgPool2d :=
  mkAvgPool2d (kernel_size s) (base_size s) (auto_pad s) (fast_imp s) r (max_r2 s) (train_size s).
Definition set_max_r2 (r : Z) (s : AvgPool2d) : AvgPool2d :=
  mkAvgPool2d (kernel_size s) (base_size s) (auto_pad s) (fast_imp s) (max_r1 s) r (train_size s).

(** Methods read and write [self] and may raise: the object survives a raise. *)
Definition M (A : Type) : Type := AvgPool2d -> AvgPool2d * result A.

Definition ret {A : Type} (a : A) : M A := fun s => (s, Ok a).
Definition raise {A : Type} (e : error) : M A := fun s => (s, Err e).
Definition lift {A : Type} (r : result A) : M A := fun s => (s, r).
Definition self_ : M AvgPool2d := fun s => (s, Ok s).
Definition write (f : AvgPool2d -> AvgPool2d) : M unit := fun s => (f s, Ok tt).

Definition bindM {A B : Type} (m : M A) (k : A -> M B) : M B :=
  fun s => match m s with
           | (s', Ok a) => k a s'
           | (s', Err e) => (s', Err e)
           end.

Notation "'run' x <- m ; k" := (bindM m (fun x => k))
  (at level 10, x name, m at level 100, k at level 200) : result_scope.
Notation "'exec' m ; k" := (bindM m (fun _ => k))
  (at level 10, m at level 100, k at level 200) : result_scope.

(** Truth value of [self.base_size]: [None] and [0] are false, a tuple is true. *)
Definition truthy (bs : option BaseSize) : bool :=
  match bs with
  | None => false
  | Some (BS_int b) => negb (b =? 0)%Z
  | Some (BS_pair _ _) => true
  end.

(** [train_size[i]] where [train_size] may be [None]. *)
Definition train_size_at (ts : option (list Z)) (i : Z) : result Z :=
  match ts with
  | None => Err TypeError
  | Some l => py_index l i
  end.

(** Lines 59-69: the kernel size is derived from the input at most once. *)
Definition lazy_kernel_size (x : Tensor) : M unit :=
  run self <- self_;
  match kernel_size self with
  | Some _ => ret tt
  | None =>
    if truthy (base_size self) then
      let ts := train_size self in
      let b := match base_size self with
               | Some (BS_int b) => (b, b)
               | Some (BS_pair b0 b1) => (b0, b1)
               | None => (0, 0)%Z
               end in
      let h := Z.of_nat (dimH x) in
      let w := Z.of_nat (dimW x) in
      exec write (set_base_size (Some (BS_pair (fst b) (snd b))));
      exec write (set_kernel_size (Some b));
      run th <- lift (train_size_at ts (-2));
      run k0 <- lift (floordiv (h * fst b) th);
      exec write (set_kernel_size (Some (k0, snd b)));
      run tw <- lift (train_size_at ts (-1));
      run k1 <- lift (floordiv (w * snd b) tw);
      exec write (set_kernel_size (Some (k0, k1)));
      run m1 <- lift (floordiv (rs0 * h) th);
      exec write (set_max_r1 (Z.max 1 m1));
      run m2 <- lift (floordiv (rs0 * w) tw);
      write (set_max_r2 (Z.max 1 m2))
    else ret tt
  end.

(** [self.kernel_size[0]], [self.kernel_size[1]] as read from line 71 on. *)
Definition read_kernel_size : M (Z * Z) :=
  run self <- self_;
  match kernel_size self with
  | Some ks => ret ks
  | None => raise TypeError
  end.

(** Lines 90-96: the integral-image branch. *)
Definition integral_image_pool (ks : Z * Z) (x : Tensor) : result Tensor :=
  let h := Z.of_nat (dimH x) in
  let w := Z.of_nat (dimW x) in
  let s := cumsum_h (cumsum_w x) in
  let s := pad_zero 1 0 1 0 s in
  let k1 := Z.min h (fst ks) in
  let k2 := Z.min w (snd ks) in
  do s1 <- slice_hw None (Some (- k1)%Z) 1 None (Some (- k2)%Z) 1 s;
  do s2 <- slice_hw None (Some (- k1)%Z) 1 (Some k2) None 1 s;
  do s3 <- slice_hw (Some k1) None 1 None (Some (- k2)%Z) 1 s;
  do s4 <- slice_hw (Some k1) None 1 (Some k2) None 1 s;
  do a <- tensor_add s4 s1;
  do b <- tensor_sub a s2;
  do out <- tensor_sub b s3;
  Ok (div_scalar out (k1 * k2)).

(** [[r for r in self.rs if n % r == 0][0]] *)
Definition select_rate (n : Z) : result Z :=
  match filter (fun r => (n mod r =? 0)%Z) rs with
  | r :: _ => Ok r
  | [] => Err IndexError
  end.

(** Lines 75-88: the subsampled branch. *)
Definition fast_pool (self : AvgPool2d) (ks : Z * Z) (x : Tensor) : result Tensor :=
  let h := Z.of_nat (dimH x) in
  let w := Z.of_nat (dimW x) in
  if ((fst ks >=? h) && (snd ks >=? w))%Z then Ok (adaptive_avg_pool2d_1 x)
  else
    do r1 <- select_rate h;
    do r2 <- select_rate w;
    let r1 := Z.min (max_r1 self) r1 in
    let r2 := Z.min (max_r2 self) r2 in
    do xs <- slice_hw None None r1 None None r2 x;
    let s := cumsum_h (cumsum_w xs) in
    let h := Z.of_nat (dimH s) in
    let w := Z.of_nat (dimW s) in
    let k1 := Z.min (h - 1) (fst ks / r1) in
    let k2 := Z.min (w - 1) (snd ks / r2) in
    do s1 <- slice_hw None (Some (- k1)%Z) 1 None (Some (- k2)%Z) 1 s;
    do s2 <- slice_hw None (Some (- k1)%Z) 1 (Some k2) None 1 s;
    do s3 <- slice_hw (Some k1) None 1 None (Some (- k2)%Z) 1 s;
    do s4 <- slice_hw (Some k1) None 1 (Some k2) None 1 s;
    do a <- tensor_sub s1 s2;
    do b <- tensor_sub a s3;
    do out <- tensor_add b s4;
    interpolate_nearest r1 r2 (div_scalar out (k1 * k2)).

(** Lines 98-103: replicate-pad [out] back to the size of [x]. *)
Definition auto_pad_out (x out : Tensor) : result Tensor :=
  let h := Z.of_nat (dimH x) in
  let w := Z.of_nat (dimW x) in
  let _h := Z.of_nat (dimH out) in
  let _w := Z.of_nat (dimW out) in
  pad_replicate ((w - _w) / 2) ((w - _w + 1) / 2) ((h - _h) / 2) ((h - _h + 1) / 2) out.

(** [AvgPool2d.forward] *)
Definition forward (x : Tensor) : M Tensor :=
  exec lazy_kernel_size x;
  run ks <- read_kernel_size;
  if ((fst ks >=? Z.of_nat (dimH x)) && (snd ks >=? Z.of_nat (dimW x)))%Z
  then ret (adaptive_avg_pool2d_1 x)
  else
    run self <- self_;
    run out <- lift (if fast_imp self then fast_pool self ks x
                     else integral_image_pool ks x);
    if auto_pad self then lift (auto_pad_out x out) else ret out.

(** The sum of [x] over the rectangle of rows below [a] and columns below [e]. *)
Definition rect_sum (x : Tensor) (b c a e : nat) : Qc :=
  sum_below (fun i => sum_below (fun j => get x b c i j) e) a.

(** The sum of [x] over the k1-by-k2 window whose top-left corner is [(i, j)]. *)
Definition window_sum (x : Tensor) (b c i j k1 k2 : nat) : Qc :=
  sum_below (fun di => sum_below (fun dj => get x b c (i + di) (j + dj)) k2) k1.

(** Reference for the integral-image branch: the plain sliding-window mean.
    There is one output entry for every position [(i, j)] of the input at
    which the k1-by-k2 window fits, and it is the sum over that window
    divided by the number of its entries. *)
Definition sliding_mean (k1 k2 : nat) (x : Tensor) : Tensor :=
  mkTensor (dimN x) (dimC x)
    (Nat.min (dimH x) (dimH x + 1 - k1)) (Nat.min (dimW x) (dimW x + 1 - k2))
    (fun b c i j => (window_sum x b c i j k1 k2 / Z2Qc (Z.of_nat (k1 * k2)))%Qc).

(** When the effective windows [k1], [k2] of a sliding-window branch are not 0
    (a negative window is sliced from the other end).  Integral-image branch:
    [min(h, kernel_size[0])] and [min(w, kernel_size[1])] of line 93.
    Subsampled branch: with [r1], [r2] the subsampling rates of lines 79-83,
    which must be at least 1 for the strided slice of line 84,
    [min(ceil(h / r1) - 1, kernel_size[0] // r1)] and
    [min(ceil(w / r2) - 1, kernel_size[1] // r2)] of line 86. *)
Definition windows_nonzero (self : AvgPool2d) (ks : Z * Z) (x : Tensor) : Prop :=
  let h := Z.of_nat (dimH x) in
  let w := Z.of_nat (dimW x) in
  if fast_imp self then
    exists r1 r2,
      select_rate h = Ok r1 /\ select_rate w = Ok r2 /\
      (1 <= Z.min (max_r1 self) r1)%Z /\ (1 <= Z.min (max_r2 self) r2)%Z /\
      Z.min ((h + Z.min (max_r1 self) r1 - 1) / Z.min (max_r1 self) r1 - 1)
            (fst ks / Z.min (max_r1 self) r1) <> 0%Z /\
      Z.min ((w + Z.min (max_r2 self) r2 - 1) / Z.min (max_r2 self) r2 - 1)
            (snd ks / Z.min (max_r2 self) r2) <> 0%Z
  else Z.min h (fst ks) <> 0%Z /\ Z.min w (snd ks) <> 0%Z.

(** The object after a sequence of calls of [forward]. *)
Definition after_calls (xs : list Tensor) (s : AvgPool2d) : AvgPool2d :=
  fold_left (fun s x => fst (forward x s)) xs s.

(** [base_size] as the pair that line 62 makes of it. *)
Definition base_pair (b : BaseSize) : Z * Z :=
  match b with
  | BS_int b => (b, b)
  | BS_pair b0 b1 => (b0, b1)
  end.

(** The same object with another value of the [fast_imp] flag. *)
Definition set_fast_imp (fi : bool) (s : AvgPool2d) : AvgPool2d :=
  mkAvgPool2d (kernel_size s) (base_size s) (auto_pad s) fi (max_r1 s) (max_r2 s)
              (train_size s).

(** ** [class UnPixelShuffle] and [nn.PixelShuffle] *)

(** [range(n)] *)
Definition py_range (n : Z) : list Z := map Z.of_nat (seq 0 (Z.to_nat n)).

Fixpoint mapM {A B : Type} (f : A -> result B) (l : list A) : result (list B) :=
  match l with
  | [] => Ok []
  | a :: l' => do b <- f a; do bs <- mapM f l'; Ok (b :: bs)
  end.

(** Entry of [torch.cat(ts, dim=1)]: channels of the operands follow one another. *)
Fixpoint cat_get (ts : list Tensor) (b c i j : nat) : Qc :=
  match ts with
  | [] => 0%Qc
  | t :: rest =>
      if c <? dimC t then get t b c i j else cat_get rest b (c - dimC t) i j
  end.

Definition same_outer (s t : Tensor) : bool :=
  (dimN s =? dimN t) && (dimH s =? dimH t) && (dimW s =? dimW t).

(** [torch.cat(ts, dim=1)]: needs a non-empty list whose members agree on
    every dimension but the channels. *)
Definition cat_dim1 (ts : list Tensor) : result Tensor :=
  match ts with
  | [] => Err ValueError
  | t0 :: rest =>
      if forallb (same_outer t0) rest
      then Ok (mkTensor (dimN t0) (list_sum (map dimC ts)) (dimH t0) (dimW t0)
                 (cat_get ts))
      else Err RuntimeError
  end.

(** [torch.gather(t, dim=1, index=I)] where [I] has shape [(n, len index, oh, ow)]
    and holds [index[m]] at every position of channel [m]. *)
Definition gather_dim1 (t : Tensor) (index : list Z) (n oh ow : nat) : result Tensor :=
  if (n <=? dimN t) && (oh <=? dimH t) && (ow <=? dimW t)
     && forallb (fun k => (0 <=? k)%Z && (k <? Z.of_nat (dimC t))%Z) index
  then Ok (mkTensor n (List.length index) oh ow
             (fun b m y x => get t b (Z.to_nat (nth m index 0%Z)) y x))
  else Err RuntimeError.

(** The two nested loops that fill [chunk_list] (lines 25-27). *)
Definition chunk_list (r : Z) (x : Tensor) : result (list Tensor) :=
  let H := Z.of_nat (dimH x) in
  let W := Z.of_nat (dimW x) in
  mapM (fun ij => slice_hw (Some (fst ij)) (Some H) r (Some (snd ij)) (Some W) r x)
       (flat_map (fun i => map (fun j => (i, j)) (py_range r)) (py_range r)).

(** The two nested loops that fill [index] (lines 31-34). *)
Definition gather_index (r : Z) (C : Z) : list Z :=
  flat_map (fun i => map (fun j => (i + j * C)%Z) (py_range (r * r))) (py_range C).

(** [UnPixelShuffle.forward], with [r = self.downscale_factor]. *)
Definition UnPixelShuffle_forward (r : Z) (x : Tensor) : result Tensor :=
  let N := dimN x in
  let C := Z.of_nat (dimC x) in
  let H := Z.of_nat (dimH x) in
  let W := Z.of_nat (dimW x) in
  do chunks <- chunk_list r x;
  do xc <- cat_dim1 chunks;
  let index := gather_index r C in
  do hq <- floordiv H r;
  do wq <- floordiv W r;
  gather_dim1 xc index N (Z.to_nat hq) (Z.to_nat wq).

(** [nn.PixelShuffle(r)] as torch documents it: [(N, C*r^2, H, W)] goes to
    [(N, C, H*r, W*r)] with
    [out[b, c, h, w] = in[b, c*r^2 + (h mod r)*r + (w mod r), h / r, w / r]]. *)
Definition PixelShuffle_forward (r : Z) (t : Tensor) : result Tensor :=
  let rn := Z.to_nat r in
  if (r <=? 0)%Z || negb (dimC t mod (rn * rn) =? 0) then Err RuntimeError
  else Ok (mkTensor (dimN t) (dimC t / (rn * rn)) (dimH t * rn) (dimW t * rn)
             (fun b c h w =>
                get t b (c * (rn * rn) + (h mod rn) * rn + w mod rn) (h / rn) (w / rn))).

(** ** [replace_layers] on a tree of modules *)

(** [output_size] of an [nn.AdaptiveAvgPool2d]: an int, [None], or a pair of
    those.  Only the int [1] compares equal to [1]. *)
Inductive OutputSize : Type :=
| OS_int (k : Z)
| OS_none
| OS_pair (a b : option Z).

Definition output_size_is_1 (o : OutputSize) : bool :=
  match o with
  | OS_int k => (k =? 1)%Z
  | _ => false
  end.

(** The class of a module, as far as [isinstance] in [replace_layers] can tell. *)
Inductive ModuleClass : Type :=
| AdaptiveAvgPool2d_ (output_size : OutputSize)
| AvgPool2d_ (self : AvgPool2d)
| OtherModule (cls : string).

(** A module with its registered children ([named_children()], in order).
    Models are trees: no module object is registered twice. *)
#[warnings="-register-all"] Inductive Module : Type :=
| Mod (cls : ModuleClass) (children : list (string * Module)).

Definition class_of (m : Module) : ModuleClass :=
  match m with Mod c _ => c end.
Definition children (m : Module) : list (string * Module) :=
  match m with Mod _ cs => cs end.

Definition is_adaptive (m : Module) : bool :=
  match class_of m with AdaptiveAvgPool2d_ _ => true | _ => false end.

Section ReplaceLayers.

Variable base_size_arg : option BaseSize.
Variable train_size_arg : option (list Z).
Variable fast_imp_arg : bool.

(** [AvgPool2d(base_size=base_size, fast_imp=fast_imp, train_size=train_size)] *)
Definition new_pool : Module :=
  Mod (AvgPool2d_ (init None base_size_arg true fast_imp_arg train_size_arg)) [].

(** [replace_layers(model, base_size, train_size, fast_imp)].  The call
    mutates [model] in place, so the model is returned together with the
    outcome: after a raise it keeps every [setattr] done so far.  The inner
    loop is the [for n, m in model.named_children()] of line 108. *)
Fixpoint replace_layers (model : Module) : Module * result unit :=
  match model with
  | Mod cls cs =>
      let fix loop (cs : list (string * Module))
        : list (string * Module) * result unit :=
        match cs with
        | [] => ([], Ok tt)
        | (n, m) :: rest =>
            (* lines 109-111: compound module, go inside it *)
            let (m1, r1) :=
              match children m with
              | [] => (m, Ok tt)
              | _ :: _ => replace_layers m
              end in
            match r1 with
            | Err e => ((n, m1) :: rest, Err e)
            | Ok _ =>
                (* lines 113-116 *)
                match class_of m1 with
                | AdaptiveAvgPool2d_ o =>
                    if output_size_is_1 o then
                      let (rest', r) := loop rest in ((n, new_pool) :: rest', r)
                    else ((n, m1) :: rest, Err AssertionError)
                | _ =>
                    let (rest', r) := loop rest in ((n, m1) :: rest', r)
                end
            end
        end in
      let (cs', r) := loop cs in (Mod cls cs', r)
  end.

(** The loop of line 108 on its own, over the children still to visit. *)
Fixpoint visit_children (cs : list (string * Module))
  : list (string * Module) * result unit :=
  match cs with
  | [] => ([], Ok tt)
  | (n, m) :: rest =>
      let (m1, r1) :=
        match children m with
        | [] => (m, Ok tt)
        | _ :: _ => replace_layers m
        end in
      match r1 with
      | Err e => ((n, m1) :: rest, Err e)
      | Ok _ =>
          match class_of m1 with
          | AdaptiveAvgPool2d_ o =>
              if output_size_is_1 o then
                let (rest', r) := visit_children rest in ((n, new_pool) :: rest', r)
              else ((n, m1) :: rest, Err AssertionError)
          | _ =>
              let (rest', r) := visit_children rest in ((n, m1) :: rest', r)
          end
      end
  end.

(** The submodule reached from [m] by following child positions [p]. *)
Fixpoint node_at (m : Module) (p : list nat) : option Module :=
  match p with
  | [] => Some m
  | i :: p' =>
      match nth_error (children m) i with
      | Some (_, c) => node_at c p'
      | None => None
      end
  end.

(** [exposed m p c]: [c] is the submodule of [m] at the non-empty path [p],
    and no module strictly between [m] and [c] is an [nn.AdaptiveAvgPool2d]
    (such a module is replaced as a whole, with everything below it). *)
Inductive exposed : Module -> list nat -> Module -> Prop :=
| exposed_child m i n c :
    nth_error (children m) i = Some (n, c) -> exposed m [i] c
| exposed_deeper m i n c p d :
    nth_error (children m) i = Some (n, c) ->
    is_adaptive c = false ->
    exposed c p d ->
    exposed m (i :: p) d.

(** A module that passes, or does not meet, the assertion of line 115. *)
Definition passes_assert (m : Module) : bool :=
  match class_of m with
  | AdaptiveAvgPool2d_ o => output_size_is_1 o
  | _ => true
  end.


(** The same, as a test: no submodule of [m] fails the assertion. *)
Fixpoint assert_free (m : Module) : bool :=
  match m with
  | Mod _ cs =>
      forallb (fun nc : string * Module =>
                 let (_, c) := nc in passes_assert c && assert_free c) cs
  end.

Definition child_ok (nc : string * Module) : bool :=
  passes_assert (snd nc) && assert_free (snd nc).

(** The model after a complete rewrite: every [nn.AdaptiveAvgPool2d] child,
    at any depth, is a fresh [AvgPool2d]. *)
Fixpoint converted (m : Module) : Module :=
  match m with
  | Mod cls cs =>
      Mod cls (map (fun nc : string * Module =>
                      let (n, c) := nc in
                      (n, if is_adaptive c then new_pool else converted c)) cs)
  end.

Definition converted_child (nc : string * Module) : string * Module :=
  let (n, c) := nc in (n, if is_adaptive c then new_pool else converted c).

(** [aborted m m']: [m'] is [m] after a rewrite that stopped at the first
    failing assertion.  Among the children of a module, those before the
    one where the rewrite stopped are completely rewritten, those after it
    are untouched, and the one in between either stopped inside, or is the
    failing pool itself, with everything below it already rewritten. *)
Inductive aborted : Module -> Module -> Prop :=
| aborted_inside cls pre n c c' post :
    forallb child_ok pre = true ->
    aborted c c' ->
    aborted (Mod cls (pre ++ (n, c) :: post))
            (Mod cls (map converted_child pre ++ (n, c') :: post))
| aborted_here cls pre n c post :
    forallb child_ok pre = true ->
    assert_free c = true ->
    passes_assert c = false ->
    aborted (Mod cls (pre ++ (n, c) :: post))
            (Mod cls (map converted_child pre ++ (n, converted c) :: post)).

End ReplaceLayers.

(** A channel-attention block as the NAFNet code writes it:
    [Sequential(AdaptiveAvgPool2d(1), Conv2d)] next to a plain convolution. *)
Definition sca_model : Module :=
  Mod (OtherModule "Block"%string)
    [("conv1"%string, Mod (OtherModule "Conv2d"%string) []);
     ("sca"%string,
      Mod (OtherModule "Sequential"%string)
        [("0"%string, Mod (AdaptiveAvgPool2d_ (OS_int 1)) []);
         ("1"%string, Mod (OtherModule "Conv2d"%string) [])])].

(** ** [replace_layers] on module objects

    An [nn.Module] keeps its children in the dictionary [_modules], from
    names to module objects, and one object can be registered under several
    names and in several modules.  Here the objects live in a heap and a
    reference is a position in it.  Entries of [_modules] that are [None] are
    never yielded by [named_children()] and never assigned by
    [replace_layers]; they are left out. *)

Definition ref : Type := nat.

Record Object : Type := mkObject {
  obj_class : ModuleClass;
  obj_modules : list (string * ref)   (* [_modules], in insertion order *)
}.

Definition Heap : Type := list Object.

(** [model._modules.items()] *)
Definition modules_of (h : Heap) (r : ref) : list (string * ref) :=
  match nth_error h r with
  | Some o => obj_modules o
  | None => []
  end.

Definition class_at (h : Heap) (r : ref) : option ModuleClass :=
  match nth_error h r with
  | Some o => Some (obj_class o)
  | None => None
  end.

(** [d[n] = v] on a dictionary: the value of an existing key is replaced
    where it stands, a new key is added at the end. *)
Fixpoint assign (n : string) (v : ref) (ms : list (string * ref))
  : list (string * ref) :=
  match ms with
  | [] => [(n, v)]
  | (n', m) :: rest =>
      if String.eqb n' n then (n', v) :: rest else (n', m) :: assign n v rest
  end.

(** The heap with the object at [r] replaced. *)
Fixpoint store (r : ref) (o : Object) (h : Heap) : Heap :=
  match h, r with
  | [], _ => []
  | _ :: h', O => o :: h'
  | x :: h', S r' => x :: store r' o h'
  end.

(** [setattr(model, n, v)] for a module [v]: [model._modules[n] = v]. *)
Definition setattr (model : ref) (n : string) (v : ref) (h : Heap) : Heap :=
  match nth_error h model with
  | Some o => store model (mkObject (obj_class o) (assign n v (obj_modules o))) h
  | None => h
  end.

(** A constructor call: the new object gets a reference of its own. *)
Definition alloc (o : Object) (h : Heap) : Heap * ref := (h ++ [o], List.length h).

Definition adaptive_class (c : ModuleClass) : bool :=
  match c with AdaptiveAvgPool2d_ _ => true | _ => false end.

(** A class that passes, or does not meet, the assertion of line 115. *)
Definition class_passes (c : ModuleClass) : bool :=
  match c with
  | AdaptiveAvgPool2d_ o => output_size_is_1 o
  | _ => true
  end.



(** A model that is a tree of module objects: every node with its
    reference. *)
#[warnings="-register-all"] Inductive ObjTree : Type :=
| ONode (r : ref) (cls : ModuleClass) (children : list (string * ObjTree)).

Definition oref (t : ObjTree) : ref := match t with ONode r _ _ => r end.
Definition oclass (t : ObjTree) : ModuleClass := match t with ONode _ c _ => c end.
Definition ochildren (t : ObjTree) : list (string * ObjTree) :=
  match t with ONode _ _ cs => cs end.

(** The [_modules] entry of a child. *)
Definition entry (nc : string * ObjTree) : string * ref :=
  (fst nc, oref (snd nc)).

(** The references of all nodes. *)
Fixpoint refs_of (t : ObjTree) : list ref :=
  match t with
  | ONode r _ cs => r :: flat_map (fun nc => refs_of (snd nc)) cs
  end.

(** [stored h t]: the heap holds the tree [t]: the object at the reference of
    every node has the class of the node and registers its children, in
    order and under their names. *)
Fixpoint stored (h : Heap) (t : ObjTree) : Prop :=
  match t with
  | ONode r cls cs =>
      nth_error h r = Some (mkObject cls (map entry cs)) /\
      (fix all (cs : list (string * ObjTree)) : Prop :=
         match cs with
         | [] => True
         | (_, c) :: rest => stored h c /\ all rest
         end) cs
  end.

Fixpoint distinct {A : Type} (eqb : A -> A -> bool) (l : list A) : bool :=
  match l with
  | [] => true
  | a :: rest => negb (existsb (eqb a) rest) && distinct eqb rest
  end.

(** Every [_modules] of the heap is a dictionary: its keys are distinct. *)
Definition dictionaries (h : Heap) : bool :=
  forallb (fun o => distinct String.eqb (map fst (obj_modules o))) h.

(** The model rooted at [oref t] is the tree [t], and no module object is
    registered twice in it. *)
Definition tree_shaped (h : Heap) (t : ObjTree) : Prop :=
  dictionaries h = true /\ stored h t /\ distinct Nat.eqb (refs_of t) = true.

(** The children of every node have distinct names. *)
Fixpoint names_ok (t : ObjTree) : bool :=
  match t with
  | ONode _ _ cs =>
      distinct String.eqb (map fst cs) && forallb (fun nc => names_ok (snd nc)) cs
  end.

(** No node below the root fails the assertion of line 115 (as a test). *)
Fixpoint oassert_free (t : ObjTree) : bool :=
  match t with
  | ONode _ _ cs =>
      forallb (fun nc => class_passes (oclass (snd nc)) && oassert_free (snd nc)) cs
  end.

(** The number of levels below the root. *)
Fixpoint height (t : ObjTree) : nat :=
  match t with
  | ONode _ _ cs => list_max (map (fun nc => S (height (snd nc))) cs)
  end.

(** The node of [t] at the path [p]. *)
Fixpoint onode_at (t : ObjTree) (p : list nat) : option ObjTree :=
  match p with
  | [] => Some t
  | i :: p' =>
      match nth_error (ochildren t) i with
      | Some (_, c) => onode_at c p'
      | None => None
      end
  end.


Section ReplaceLayersHeap.

Variable base_size_arg : option BaseSize.
Variable train_size_arg : option (list Z).
Variable fast_imp_arg : bool.

(** [AvgPool2d(base_size=base_size, fast_imp=fast_imp, train_size=train_size)] *)
Definition new_pool_object : Object :=
  mkObject (AvgPool2d_ (init None base_size_arg true fast_imp_arg train_size_arg)) [].

(** The loop of line 108 at position [k] of [model._modules], with [memo] the
    objects that [named_children()] has yielded so far and [todo] a bound on
    the entries left.  The dictionary is read anew at every step, as the
    generator does; [rec] is the recursive call of line 111. *)
Fixpoint children_loop (rec : ref -> Heap -> Heap * result unit) (model : ref)
    (todo k : nat) (memo : list ref) (h : Heap) : Heap * result unit :=
  match todo with
  | O => (h, Ok tt)
  | S todo' =>
      match nth_error (modules_of h model) k with
      | None => (h, Ok tt)
      | Some (n, m) =>
          if existsb (Nat.eqb m) memo
          then children_loop rec model todo' (S k) memo h
          else
            (* lines 109-111: compound module, go inside it *)
            let (h1, r1) :=
              match modules_of h m with
              | [] => (h, Ok tt)
              | _ :: _ => rec m h
              end in
            match r1 with
            | Err e => (h1, Err e)
            | Ok _ =>
                (* lines 113-116 *)
                match class_at h1 m with
                | Some (AdaptiveAvgPool2d_ o) =>
                    let (h2, pool) := alloc new_pool_object h1 in
                    if output_size_is_1 o
                    then children_loop rec model todo' (S k) (m :: memo)
                           (setattr model n pool h2)
                    else (h2, Err AssertionError)
                | _ => children_loop rec model todo' (S k) (m :: memo) h1
                end
            end
      end
  end.

(** [replace_layers(model, base_size, train_size, fast_imp)] on the heap.
    [depth] is the number of nested calls that the interpreter still allows;
    the heap is returned together with the outcome. *)
Fixpoint replace_layers_heap (depth : nat) (model : ref) (h : Heap)
  : Heap * result unit :=
  match depth with
  | O => (h, Err RecursionError)
  | S depth' =>
      children_loop (replace_layers_heap depth') model
        (List.length (modules_of h model)) 0 [] h
  end.

(** The tree after a complete rewrite, for a heap whose next free reference is
    [next]: the children are visited in order, a child is rewritten inside
    first, and every [nn.AdaptiveAvgPool2d] child is then replaced by a new
    [AvgPool2d] object, which takes the next free reference.  Returned with
    the next free reference after the rewrite. *)
Fixpoint oconverted (next : nat) (t : ObjTree) : ObjTree * nat :=
  match t with
  | ONode r cls cs =>
      let fix go (next : nat) (cs : list (string * ObjTree))
        : list (string * ObjTree) * nat :=
        match cs with
        | [] => ([], next)
        | (n, c) :: rest =>
            let (c1, next1) := oconverted next c in
            if adaptive_class (oclass c)
            then let (rest', next2) := go (S next1) rest in
                 ((n, ONode next1 (obj_class new_pool_object) []) :: rest', next2)
            else let (rest', next2) := go next1 rest in ((n, c1) :: rest', next2)
        end in
      let (cs', next') := go next cs in (ONode r cls cs', next')
  end.

Fixpoint oconverted_children (next : nat) (cs : list (string * ObjTree))
  : list (string * ObjTree) * nat :=
  match cs with
  | [] => ([], next)
  | (n, c) :: rest =>
      let (c1, next1) := oconverted next c in
      if adaptive_class (oclass c)
      then let (rest', next2) := oconverted_children (S next1) rest in
           ((n, ONode next1 (obj_class new_pool_object) []) :: rest', next2)
      else let (rest', next2) := oconverted_children next1 rest in
           ((n, c1) :: rest', next2)
  end.

(** [rewrites depth t]: a call of [replace_layers] on the tree [t], wherever
    a heap holds it as a tree of distinct objects whose pools pass the
    assertion, returns normally within [depth] nested calls and leaves the
    rewritten tree in the heap, every old object outside the tree
    untouched. *)
Definition rewrites (depth : nat) (t : ObjTree) : Prop :=
  forall h,
    stored h t -> NoDup (refs_of t) -> names_ok t = true ->
    (forall p c, p <> [] -> onode_at t p = Some c -> class_passes (oclass c) = true) ->
    height t < depth ->
    exists h',
      replace_layers_heap depth (oref t) h = (h', Ok tt) /\
      stored h' (fst (oconverted (List.length h) t)) /\
      List.length h' = snd (oconverted (List.length h) t) /\
      (forall q, q < List.length h -> ~ In q (refs_of t) ->
                 nth_error h' q = nth_error h q).

(** [untouched depth t]: on a tree of distinct objects without an
    [nn.AdaptiveAvgPool2d] below the root, a call returns normally and
    writes nothing. *)
Definition untouched (depth : nat) (t : ObjTree) : Prop :=
  forall h,
    stored h t -> NoDup (refs_of t) ->
    (forall p c, p <> [] -> onode_at t p = Some c -> adaptive_class (oclass c) = false) ->
    height t < depth ->
    replace_layers_heap depth (oref t) h = (h, Ok tt).

End ReplaceLayersHeap.

(** ** Shapes through [RLFN_Prune]

    The weights are learned elsewhere, so the network is followed at the level
    of tensor shapes: every layer maps the shape of its input to the shape of
    its output, or raises where torch rejects the shape. *)

Module Shapes.

(** [(N, C, H, W)] *)
Definition shape : Type := (nat * nat * nat * nat)%type.

(** [nn.Conv2d(in_channels, out_channels, kernel_size, stride, padding, groups=groups)] *)
Record Conv2d : Type := mkConv2d {
  in_channels : nat;
  out_channels : nat;
  ksize : nat * nat;
  stride : nat;
  padding : nat * nat;
  groups : nat
}.

(** One spatial extent through a convolution or pooling window:
    [floor((n + 2*p - k) / s) + 1], an error when the padded input is
    smaller than the window.  A convolution needs at least one input and one
    output channel (its weight is empty otherwise) and a positive number of
    groups that divides both. *)
Definition window_out (n k p s : nat) : result nat :=
  if (n + 2 * p <? k) || (s =? 0) then Err RuntimeError
  else Ok ((n + 2 * p - k) / s + 1).

Definition conv2d (cv : Conv2d) (s : shape) : result shape :=
  let '(n, c, h, w) := s in
  if (in_channels cv =? 0) || (out_channels cv =? 0) || (groups cv =? 0)
     || negb (c =? in_channels cv)
     || negb (in_channels cv mod groups cv =? 0)
     || negb (out_channels cv mod groups cv =? 0)
  then Err RuntimeError
  else
    do h' <- window_out h (fst (ksize cv)) (fst (padding cv)) (stride cv);
    do w' <- window_out w (snd (ksize cv)) (snd (padding cv)) (stride cv);
    Ok (n, out_channels cv, h', w').

(** [F.max_pool2d(x, kernel_size=k, stride=s)] *)
Definition max_pool2d (k s : nat) (x : shape) : result shape :=
  let '(n, c, h, w) := x in
  do h' <- window_out h k 0 s;
  do w' <- window_out w k 0 s;
  Ok (n, c, h', w').

(** [F.interpolate(x, (h, w), mode='bilinear')] *)
Definition interpolate_size (h w : nat) (x : shape) : shape :=
  let '(n, c, _, _) := x in (n, c, h, w).

(** [F.interpolate(x, scale_factor=k, mode='bilinear')] *)
Definition interpolate_scale (k : nat) (x : shape) : shape :=
  let '(n, c, h, w) := x in (n, c, h * k, w * k).

(** Shape of [a + b] and [a * b] (broadcasting). *)
Definition broadcast (a b : shape) : result shape :=
  let '(n1, c1, h1, w1) := a in
  let '(n2, c2, h2, w2) := b in
  do n <- broadcast_dim n1 n2;
  do c <- broadcast_dim c1 c2;
  do h <- broadcast_dim h1 h2;
  do w <- broadcast_dim w1 w2;
  Ok (n, c, h, w).

(** [nn.PixelShuffle(r)] *)
Definition pixel_shuffle (r : nat) (x : shape) : result shape :=
  let '(n, c, h, w) := x in
  if (r =? 0) || negb (c mod (r * r) =? 0) then Err RuntimeError
  else Ok (n, c / (r * r), h * r, w * r).

(** [conv_layer(in_channels, out_channels, kernel_size, depth_wise=False)]:
    padding is [int((kernel_size - 1) / 2)]. *)
Definition conv_layer (cin cout k : nat) : Conv2d :=
  mkConv2d cin cout (k, k) 1 ((k - 1) / 2, (k - 1) / 2) 1.

(** [conv_layer(..., depth_wise=True)]: grouped conv, LeakyReLU, 1x1 conv. *)
Definition conv_layer_depth_wise (cin cout k : nat) (x : shape) : result shape :=
  do a <- conv2d (mkConv2d cin cout (k, k) 1 ((k - 1) / 2, (k - 1) / 2) cin) x;
  conv2d (mkConv2d cin cout (1, 1) 1 (0, 0) 1) a.

(** [pixelshuffle_block(in_channels, out_channels, upscale_factor)], kernel 3. *)
Definition pixelshuffle_block (cin cout upscale : nat) (x : shape) : result shape :=
  do a <- conv2d (conv_layer cin (cout * (upscale * upscale)) 3) x;
  pixel_shuffle upscale a.

(** [ESA(esa_channels, n_feats, nn.Conv2d).forward] *)
Definition ESA_forward (f n_feats : nat) (x : shape) : result shape :=
  let '(_, _, xh, xw) := x in
  do c1_ <- conv2d (mkConv2d n_feats f (1, 1) 1 (0, 0) 1) x;
  do c1 <- conv2d (mkConv2d f f (3, 3) 2 (0, 0) 1) c1_;
  do v_max <- max_pool2d 7 3 c1;
  do c3 <- conv2d (mkConv2d f f (3, 3) 1 (1, 1) 1) v_max;
  let c3 := interpolate_size xh xw c3 in
  do cf <- conv2d (mkConv2d f f (1, 1) 1 (0, 0) 1) c1_;
  do sum <- broadcast c3 cf;
  do c4 <- conv2d (mkConv2d f n_feats (1, 1) 1 (0, 0) 1) sum;
  broadcast x c4.

(** [RLFB(in_channels, mid_channels).forward] with [out_channels = in_channels]
    and [esa_channels = 16]. *)
Definition RLFB_forward (cin mid : nat) (x : shape) : result shape :=
  do out <- conv2d (conv_layer cin mid 3) x;
  do out <- conv_layer_depth_wise mid mid 3 out;
  do out <- conv2d (conv_layer mid cin 3) out;
  do out <- broadcast out x;
  do c5 <- conv2d (conv_layer cin cin 1) out;
  ESA_forward 16 cin c5.

(** Constructor arguments of [RLFN_Prune]. *)
Record RLFN_Prune : Type := mkRLFN {
  rl_in_channels : nat;
  rl_out_channels : nat;
  feature_channels : nat;
  mid_channels : nat;
  upscale : nat
}.

(** [RLFN_Prune(in_channels=cin)], every other argument at its default. *)
Definition RLFN_default (cin : nat) : RLFN_Prune := mkRLFN cin 3 46 48 4.

(** [RLFN_Prune.forward] *)
Definition RLFN_forward (net : RLFN_Prune) (x : shape) : result shape :=
  let fc := feature_channels net in
  let mc := mid_channels net in
  do out_feature <- conv2d (conv_layer (rl_in_channels net) fc 3) x;
  do out_b1 <- RLFB_forward fc mc out_feature;
  do out_b2 <- RLFB_forward fc mc out_b1;
  do out_b3 <- RLFB_forward fc mc out_b2;
  do out_b4 <- RLFB_forward fc mc out_b3;
  do c2 <- conv2d (conv_layer fc fc 3) out_b4;
  do out_low_resolution <- broadcast c2 out_feature;
  do output <- pixelshuffle_block fc (rl_out_channels net) (upscale net) out_low_resolution;
  broadcast output (interpolate_scale 4 x).

End Shapes.

(** ** Reference definitions for the further properties *)

(** [x[:, :, ::r1, ::r2]]: every r1-th row and r2-th column, starting with the
    first. *)
Definition subsample (r1 r2 : Z) (x : Tensor) : Tensor :=
  mkTensor (dimN x) (dimC x)
    (Z.to_nat ((Z.of_nat (dimH x) + r1 - 1) / r1))
    (Z.to_nat ((Z.of_nat (dimW x) + r2 - 1) / r2))
    (fun b c i j => get x b c (i * Z.to_nat r1) (j * Z.to_nat r2)).

(** ** The module tree that [RLFN_Prune.__init__] builds *)

(** A module of a torch class that has no children of its own. *)
Definition leaf (cls : string) : Module := Mod (OtherModule cls) [].

(** [nn.Sequential] registers its arguments under ["0"], ["1"], ... *)
Definition numbered (ms : list Module) : list (string * Module) :=
  combine (map (fun i => NilZero.string_of_uint (Nat.to_uint i)) (seq 0 (List.length ms)))
          ms.

Definition Sequential_ (ms : list Module) : Module :=
  Mod (OtherModule "Sequential"%string) (numbered ms).

Definition is_Sequential (m : Module) : bool :=
  match class_of m with
  | OtherModule cls => String.eqb cls "Sequential"%string
  | _ => false
  end.

(** [sequential] for arguments that are modules: a single argument is
    returned as it is; otherwise the children of every [nn.Sequential]
    argument and the other arguments themselves are collected, in order, into
    one [nn.Sequential]. *)
Definition sequential (args : list Module) : Module :=
  match args with
  | [a] => a
  | _ =>
      Sequential_
        (flat_map (fun m => if is_Sequential m then map snd (children m) else [m]) args)
  end.

(** [conv_layer(...)] as a module: a convolution, or for [depth_wise=True]
    the [nn.Sequential] of a grouped convolution, a LeakyReLU and a 1x1
    convolution. *)
Definition conv_layer_module (depth_wise : bool) : Module :=
  if depth_wise
  then Sequential_ [leaf "Conv2d"%string; leaf "LeakyReLU"%string; leaf "Conv2d"%string]
  else leaf "Conv2d"%string.

(** [ESA.__init__] *)
Definition ESA_module : Module :=
  Mod (OtherModule "ESA"%string)
    [("conv1"%string, leaf "Conv2d"%string);
     ("conv_f"%string, leaf "Conv2d"%string);
     ("conv2"%string, leaf "Conv2d"%string);
     ("conv3"%string, leaf "Conv2d"%string);
     ("conv4"%string, leaf "Conv2d"%string);
     ("sigmoid"%string, leaf "Sigmoid"%string);
     ("relu"%string, leaf "ReLU"%string)].

(** [RLFB.__init__] *)
Definition RLFB_module : Module :=
  Mod (OtherModule "RLFB"%string)
    [("c1_r"%string, conv_layer_module false);
     ("c2_r"%string, conv_layer_module true);
     ("c3_r"%string, conv_layer_module false);
     ("c5"%string, conv_layer_module false);
     ("esa"%string, ESA_module);
     ("act"%string, leaf "LeakyReLU"%string)].

(** [pixelshuffle_block(...)] as a module *)
Definition pixelshuffle_block_module : Module :=
  sequential [conv_layer_module false; leaf "PixelShuffle"%string].

(** [RLFN_Prune.__init__] *)
Definition RLFN_Prune_module : Module :=
  Mod (OtherModule "RLFN_Prune"%string)
    [("conv_1"%string, conv_layer_module false);
     ("block_1"%string, RLFB_module);
     ("block_2"%string, RLFB_module);
     ("block_3"%string, RLFB_module);
     ("block_4"%string, RLFB_module);
     ("conv_2"%string, conv_layer_module false);
     ("upsampler"%string, pixelshuffle_block_module)].

(** No submodule of [m] is an [nn.AdaptiveAvgPool2d]. *)
Fixpoint pool_free (m : Module) : bool :=
  match m with
  | Mod _ cs =>
      forallb (fun nc : string * Module =>
                 let (_, c) := nc in negb (is_adaptive c) && pool_free c) cs
  end.

(** * Properties *)

(** ** Rate selection in the subsampled branch *)

Ltac pick_rate E :=
  apply Z.eqb_eq in E; split; [reflexivity | split; [cbn; tauto | exact E]].

Lemma select_rate_cases (n : Z) :
  exists r, select_rate n = Ok r /\ In r rs /\ (n mod r = 0)%Z.
Proof.
  unfold select_rate, rs; cbn [filter].
  destruct (n mod 5 =? 0)%Z eqn:E5; [exists 5%Z; pick_rate E5|].
  destruct (n mod 4 =? 0)%Z eqn:E4; [exists 4%Z; pick_rate E4|].
  destruct (n mod 3 =? 0)%Z eqn:E3; [exists 3%Z; pick_rate E3|].
  destruct (n mod 2 =? 0)%Z eqn:E2; [exists 2%Z; pick_rate E2|].
  destruct (n mod 1 =? 0)%Z eqn:E1; [exists 1%Z; pick_rate E1|].
  rewrite Z.mod_1_r in E1; discriminate.
Qed.

Lemma rs_range (r : Z) : In r rs -> (1 <= r <= 5)%Z.
Proof. unfold rs; cbn; intuition lia. Qed.

(** C8. In the subsampled branch the two selections
    [[r for r in self.rs if h % r == 0][0]] and the same for [w] are defined
    for all positive [h] and [w], and the selected rates are at least 1 (they
    are members of [self.rs] that divide the size). *)
Theorem select_rate_never_fails (h w : Z) :
  (0 < h)%Z -> (0 < w)%Z ->
  exists r1 r2,
    select_rate h = Ok r1 /\ select_rate w = Ok r2 /\
    (1 <= r1)%Z /\ (1 <= r2)%Z /\
    In r1 rs /\ In r2 rs /\ (h mod r1 = 0)%Z /\ (w mod r2 = 0)%Z.
Proof.
  intros _ _.
  destruct (select_rate_cases h) as (r1 & E1 & I1 & D1).
  destruct (select_rate_cases w) as (r2 & E2 & I2 & D2).
  exists r1, r2.
  pose proof (rs_range _ I1); pose proof (rs_range _ I2).
  repeat split; auto; lia.
Qed.

Lemma select_rate_never_fails_witness :
  exists r1 r2,
    select_rate 10 = Ok r1 /\ select_rate 7 = Ok r2 /\
    (1 <= r1)%Z /\ (1 <= r2)%Z /\
    In r1 rs /\ In r2 rs /\ (10 mod r1 = 0)%Z /\ (7 mod r2 = 0)%Z.
Proof. apply (select_rate_never_fails 10 7); lia. Defined.

(** ** The state of an [AvgPool2d] across calls of [forward] *)

Lemma floordiv_ok (a b : Z) : b <> 0%Z -> floordiv a b = Ok (a / b)%Z.
Proof.
  intros Hb; unfold floordiv.
  destruct (Z.eqb_spec b 0); [contradiction | reflexivity].
Qed.

(** After the kernel size is known, [forward] writes nothing. *)
Lemma forward_state (x : Tensor) (s : AvgPool2d) :
  fst (forward x s) = fst (lazy_kernel_size x s).
Proof.
  unfold forward, bindM.
  destruct (lazy_kernel_size x s) as [s' [[]|e]]; [|reflexivity].
  unfold read_kernel_size, bindM, self_, ret, raise, lift.
  destruct (kernel_size s') as [ks|]; [|reflexivity].
  destruct (_ && _)%bool; [reflexivity|].
  destruct (if fast_imp s' then _ else _) as [out|e]; [|reflexivity].
  destruct (auto_pad s'); reflexivity.
Qed.

Lemma lazy_kernel_size_known (x : Tensor) (s : AvgPool2d) (ks : Z * Z) :
  kernel_size s = Some ks -> lazy_kernel_size x s = (s, Ok tt).
Proof.
  intros H; unfold lazy_kernel_size, bindM, self_, ret; rewrite H; reflexivity.
Qed.

(** A call on an object whose kernel size is set leaves the object as it is. *)
Lemma forward_keeps_known (x : Tensor) (s : AvgPool2d) (ks : Z * Z) :
  kernel_size s = Some ks -> fst (forward x s) = s.
Proof.
  intros H; rewrite forward_state, (lazy_kernel_size_known x s ks H); reflexivity.
Qed.

(** Whatever happens, [forward] only ever writes [kernel_size], [base_size],
    [max_r1] and [max_r2]. *)
Lemma forward_frame (x : Tensor) (s : AvgPool2d) :
  auto_pad (fst (forward x s)) = auto_pad s /\
  fast_imp (fst (forward x s)) = fast_imp s /\
  train_size (fst (forward x s)) = train_size s.
Proof.
  rewrite forward_state.
  unfold lazy_kernel_size, bindM, self_, ret, lift, write.
  destruct (kernel_size s); [cbn; auto|].
  destruct (truthy (base_size s)); [|cbn; auto].
  destruct (train_size_at (train_size s) (-2)) as [th|]; [|cbn; auto].
  destruct (floordiv _ th); [|cbn; auto].
  destruct (train_size_at (train_size s) (-1)) as [tw|]; [|cbn; auto].
  destruct (floordiv _ tw); [|cbn; auto].
  destruct (floordiv _ th); [|cbn; auto].
  destruct (floordiv _ tw); cbn; auto.
Qed.

Lemma after_calls_known (xs : list Tensor) (s : AvgPool2d) (ks : Z * Z) :
  kernel_size s = Some ks -> after_calls xs s = s.
Proof.
  intros H; induction xs as [|x xs IH]; [reflexivity|].
  cbn; rewrite (forward_keeps_known x s ks H); exact IH.
Qed.

Lemma first_call_state (bs : BaseSize) (ap fi : bool) (ts : list Z) (th tw : Z)
    (x : Tensor) :
  truthy (Some bs) = true ->
  py_index ts (-2) = Ok th -> py_index ts (-1) = Ok tw ->
  th <> 0%Z -> tw <> 0%Z ->
  lazy_kernel_size x (init None (Some bs) ap fi (Some ts)) =
  (mkAvgPool2d
     (Some ((Z.of_nat (dimH x) * fst (base_pair bs)) / th,
            (Z.of_nat (dimW x) * snd (base_pair bs)) / tw)%Z)
     (Some (BS_pair (fst (base_pair bs)) (snd (base_pair bs))))
     ap fi
     (Z.max 1 (5 * Z.of_nat (dimH x) / th))
     (Z.max 1 (5 * Z.of_nat (dimW x) / tw))
     (Some ts), Ok tt).
Proof.
  intros Ht Hh Hw Nh Nw.
  unfold lazy_kernel_size, bindM, self_, ret, lift, write, init.
  cbn [kernel_size base_size train_size].
  rewrite Ht.
  cbn [train_size_at set_base_size set_kernel_size kernel_size base_size
       train_size auto_pad fast_imp max_r1 max_r2].
  rewrite Hh, Hw.
  rewrite !floordiv_ok by assumption.
  destruct bs; reflexivity.
Qed.

(** C9, for objects that have a [train_size].  An [AvgPool2d] built with
    [kernel_size=None], a base size that is true (not [0]) and a [train_size]
    whose last two entries are not zero: the first call of [forward] stores
    [kernel_size = [h*b0 // th, w*b1 // tw]] and
    [max_r = max(1, 5*h // th)], [max(1, 5*w // tw)] from that call's input;
    any later calls, on inputs of any size, leave the object exactly as the
    first call left it; and [auto_pad], [fast_imp] and [train_size] are never
    written. *)
Theorem forward_stateful (bs : BaseSize) (ap fi : bool) (ts : list Z) (th tw : Z)
    (x : Tensor) :
  truthy (Some bs) = true ->
  py_index ts (-2) = Ok th -> py_index ts (-1) = Ok tw ->
  th <> 0%Z -> tw <> 0%Z ->
  let s0 := init None (Some bs) ap fi (Some ts) in
  let s1 := fst (forward x s0) in
  kernel_size s1 =
    Some ((Z.of_nat (dimH x) * fst (base_pair bs)) / th,
          (Z.of_nat (dimW x) * snd (base_pair bs)) / tw)%Z /\
  max_r1 s1 = Z.max 1 (5 * Z.of_nat (dimH x) / th) /\
  max_r2 s1 = Z.max 1 (5 * Z.of_nat (dimW x) / tw) /\
  base_size s1 = Some (BS_pair (fst (base_pair bs)) (snd (base_pair bs))) /\
  (forall ys, after_calls ys s1 = s1) /\
  (forall s y, auto_pad (fst (forward y s)) = auto_pad s /\
               fast_imp (fst (forward y s)) = fast_imp s /\
               train_size (fst (forward y s)) = train_size s).
Proof.
  intros Ht Hh Hw Nh Nw s0 s1.
  assert (E : s1 = fst (lazy_kernel_size x s0)) by apply forward_state.
  unfold s0 in E; rewrite (first_call_state bs ap fi ts th tw x Ht Hh Hw Nh Nw) in E.
  cbn [fst] in E; rewrite E; cbn [kernel_size max_r1 max_r2 base_size].
  repeat split; try apply forward_frame.
  intros ys; eapply after_calls_known; reflexivity.
Qed.

Lemma forward_stateful_witness :
  kernel_size
    (fst (forward (mkTensor 1 1 4 4 (fun _ _ _ _ => 0%Qc))
            (init None (Some (BS_int 384)) true false (Some [1; 3; 256; 256]%Z))))
  = Some (6, 6)%Z.
Proof.
  exact (proj1 (forward_stateful (BS_int 384) true false [1; 3; 256; 256]%Z
                  256 256 (mkTensor 1 1 4 4 (fun _ _ _ _ => 0%Qc))
                  eq_refl eq_refl eq_refl
                  ltac:(discriminate)
                  ltac:(discriminate))).
Defined.

(** Without a [train_size] (the constructor's default) the first call raises
    while deriving the kernel size, and what stays on the object is
    [list(base_size)], the same for inputs of different sizes. *)
Lemma forward_without_train_size :
  let s0 := init None (Some (BS_int 2)) true false None in
  let x4 := mkTensor 1 1 4 4 (fun _ _ _ _ => 0%Qc) in
  let x8 := mkTensor 1 1 8 8 (fun _ _ _ _ => 0%Qc) in
  snd (forward x4 s0) = Err TypeError /\
  kernel_size (fst (forward x4 s0)) = Some (2, 2)%Z /\
  kernel_size (fst (forward x8 s0)) = Some (2, 2)%Z /\
  kernel_size (fst (forward x8 (fst (forward x4 s0)))) = Some (2, 2)%Z.
Proof.
  cbv zeta; split; [reflexivity | split; [reflexivity | split; reflexivity]].
Qed.

(** ** Global pooling when the kernel covers the input *)

Lemma lazy_kernel_size_fast_imp (fi : bool) (x : Tensor) (s : AvgPool2d) :
  lazy_kernel_size x (set_fast_imp fi s) =
  (set_fast_imp fi (fst (lazy_kernel_size x s)), snd (lazy_kernel_size x s)).
Proof.
  unfold lazy_kernel_size, bindM, self_, ret, lift, write.
  cbn [set_fast_imp kernel_size base_size train_size].
  destruct (kernel_size s); [reflexivity|].
  destruct (truthy (base_size s)); [|reflexivity].
  destruct (train_size_at (train_size s) (-2)) as [th|]; [|reflexivity].
  destruct (floordiv _ th); [|reflexivity].
  destruct (train_size_at (train_size s) (-1)) as [tw|]; [|reflexivity].
  destruct (floordiv _ tw); [|reflexivity].
  destruct (floordiv _ th); [|reflexivity].
  destruct (floordiv _ tw); reflexivity.
Qed.

Lemma forward_early_return (x : Tensor) (s s' : AvgPool2d) (ks : Z * Z) :
  lazy_kernel_size x s = (s', Ok tt) ->
  kernel_size s' = Some ks ->
  (fst ks >= Z.of_nat (dimH x))%Z -> (snd ks >= Z.of_nat (dimW x))%Z ->
  forward x s = (s', Ok (adaptive_avg_pool2d_1 x)).
Proof.
  intros HL HK H0 H1.
  unfold forward, bindM; rewrite HL.
  unfold read_kernel_size, bindM, self_, ret; rewrite HK.
  destruct (Z.geb_spec (fst ks) (Z.of_nat (dimH x))); [|lia].
  destruct (Z.geb_spec (snd ks) (Z.of_nat (dimW x))); [|lia].
  reflexivity.
Qed.

(** C7. When the kernel size in force for a call (given, or just derived from
    the base size) is at least the spatial size of the input in both
    directions, [forward] returns [F.adaptive_avg_pool2d(x, 1)]: a tensor of
    shape [(n, c, 1, 1)] whose entries are the means of the whole h-by-w planes.
    The result is the same for [fast_imp=True] and [fast_imp=False]. *)
Theorem forward_global_pool (x : Tensor) (s s' : AvgPool2d) (ks : Z * Z) :
  lazy_kernel_size x s = (s', Ok tt) ->
  kernel_size s' = Some ks ->
  (fst ks >= Z.of_nat (dimH x))%Z -> (snd ks >= Z.of_nat (dimW x))%Z ->
  snd (forward x s) = Ok (adaptive_avg_pool2d_1 x) /\
  (forall fi, snd (forward x (set_fast_imp fi s)) = Ok (adaptive_avg_pool2d_1 x)) /\
  has_shape (adaptive_avg_pool2d_1 x) (dimN x) (dimC x) 1 1 /\
  (forall b c i j, b < dimN x -> c < dimC x -> i < 1 -> j < 1 ->
     get (adaptive_avg_pool2d_1 x) b c i j =
     (sum_below (fun u => sum_below (fun v => get x b c u v) (dimW x)) (dimH x)
      / Z2Qc (Z.of_nat (dimH x * dimW x)))%Qc).
Proof.
  intros HL HK H0 H1.
  split; [rewrite (forward_early_return x s s' ks HL HK H0 H1); reflexivity|].
  split.
  - intros fi.
    assert (HL' : lazy_kernel_size x (set_fast_imp fi s) = (set_fast_imp fi s', Ok tt)).
    { rewrite lazy_kernel_size_fast_imp, HL; reflexivity. }
    rewrite (forward_early_return x _ _ ks HL' HK H0 H1); reflexivity.
  - split; [repeat split|].
    intros b c i j _ _ _ _; reflexivity.
Qed.

Lemma forward_global_pool_witness :
  snd (forward (tensor_of_list [[[[Z2Qc 1; Z2Qc 2]; [Z2Qc 3; Z2Qc 6]]]])
         (set_fast_imp true (init (Some (2, 3)%Z) None true false None)))
  = Ok (adaptive_avg_pool2d_1 (tensor_of_list [[[[Z2Qc 1; Z2Qc 2]; [Z2Qc 3; Z2Qc 6]]]])).
Proof.
  refine (proj1 (proj2 (forward_global_pool
            (tensor_of_list [[[[Z2Qc 1; Z2Qc 2]; [Z2Qc 3; Z2Qc 6]]]])
            (init (Some (2, 3)%Z) None true false None)
            (init (Some (2, 3)%Z) None true false None)
            (2, 3)%Z eq_refl eq_refl _ _)) true); cbn; lia.
Defined.

(** ** [replace_layers] *)

(** Induction on modules, with the hypothesis available for every child. *)
Lemma Module_induction (P : Module -> Prop) :
  (forall cls cs, Forall (fun nc => P (snd nc)) cs -> P (Mod cls cs)) ->
  forall m, P m.
Proof.
  intros step.
  fix IH 1.
  intros [cls cs]; apply step.
  induction cs as [|[n c] cs IHcs]; constructor; [apply IH | exact IHcs].
Qed.

Section ReplaceLayersProps.

Variable base_size_arg : option BaseSize.
Variable train_size_arg : option (list Z).
Variable fast_imp_arg : bool.

Let fresh := new_pool base_size_arg train_size_arg fast_imp_arg.
Let rl := replace_layers base_size_arg train_size_arg fast_imp_arg.
Let visit := visit_children base_size_arg train_size_arg fast_imp_arg.
Let conv := converted base_size_arg train_size_arg fast_imp_arg.
Let conv_child := converted_child base_size_arg train_size_arg fast_imp_arg.
Let abort := aborted base_size_arg train_size_arg fast_imp_arg.

Lemma replace_layers_unfold (cls : ModuleClass) (cs : list (string * Module)) :
  rl (Mod cls cs) = (Mod cls (fst (visit cs)), snd (visit cs)).
Proof.
  unfold rl, visit; cbn [replace_layers].
  match goal with
  | |- (let (_, _) := ?f cs in _) = _ =>
      assert (E : forall l, f l = visit_children base_size_arg train_size_arg fast_imp_arg l)
  end.
  { induction l as [|[n m] l IHl]; [reflexivity|].
    cbn [visit_children]; rewrite <- IHl; reflexivity. }
  rewrite E.
  destruct (visit_children base_size_arg train_size_arg fast_imp_arg cs); reflexivity.
Qed.

Lemma enter_child (c : Module) :
  match children c with
  | [] => (c, Ok tt)
  | _ :: _ => rl c
  end = rl c.
Proof. destruct c as [cls [|nc cs]]; reflexivity. Qed.

Lemma class_of_converted (m : Module) : class_of (conv m) = class_of m.
Proof. destruct m; reflexivity. Qed.

Lemma is_adaptive_converted (m : Module) : is_adaptive (conv m) = is_adaptive m.
Proof. destruct m; reflexivity. Qed.

Lemma passes_assert_converted (m : Module) : passes_assert (conv m) = passes_assert m.
Proof. destruct m; reflexivity. Qed.

Lemma children_converted (m : Module) :
  children (conv m) = map conv_child (children m).
Proof. destruct m; reflexivity. Qed.

Lemma converted_unfold (cls : ModuleClass) (cs : list (string * Module)) :
  conv (Mod cls cs) = Mod cls (map conv_child cs).
Proof. reflexivity. Qed.

(** One turn of the loop, once the visit of the child itself is known. *)
Lemma visit_cons (n : string) (c : Module) (rest : list (string * Module)) :
  visit ((n, c) :: rest) =
  match rl c with
  | (c1, Err e) => ((n, c1) :: rest, Err e)
  | (c1, Ok _) =>
      if is_adaptive c1 then
        if passes_assert c1
        then ((n, fresh) :: fst (visit rest), snd (visit rest))
        else ((n, c1) :: rest, Err AssertionError)
      else ((n, c1) :: fst (visit rest), snd (visit rest))
  end.
Proof.
  unfold visit; cbn [visit_children]; fold rl; fold visit; fold fresh.
  rewrite enter_child.
  destruct (rl c) as [c1 [[]|e]]; [|reflexivity].
  unfold is_adaptive, passes_assert.
  destruct (class_of c1) as [o| |]; destruct (visit rest); reflexivity.
Qed.

Lemma assert_free_unfold (cls : ModuleClass) (cs : list (string * Module)) :
  assert_free (Mod cls cs) = forallb child_ok cs.
Proof.
  cbn [assert_free].
  induction cs as [|[n c] cs IHcs]; [reflexivity|].
  cbn [forallb]; rewrite IHcs; reflexivity.
Qed.

(** Without a failing assertion the rewrite completes. *)
Lemma replace_layers_completes (m : Module) :
  assert_free m = true -> rl m = (conv m, Ok tt).
Proof.
  induction m as [cls cs IH] using Module_induction.
  rewrite assert_free_unfold, replace_layers_unfold, converted_unfold.
  intros Hok.
  assert (E : visit cs = (map conv_child cs, Ok tt)).
  { induction cs as [|[n c] cs IHcs]; [reflexivity|].
    cbn [forallb] in Hok; apply andb_prop in Hok; destruct Hok as [Hc Hcs].
    unfold child_ok in Hc; cbn [snd] in Hc.
    apply andb_prop in Hc; destruct Hc as [Hp Hf].
    inversion IH as [|? ? IHc IHrest]; subst; cbn [snd] in IHc.
    rewrite visit_cons, (IHc Hf), (IHcs IHrest Hcs).
    rewrite is_adaptive_converted, passes_assert_converted, Hp.
    cbn [map fst snd conv_child converted_child]; fold fresh; fold conv.
    destruct (is_adaptive c); reflexivity. }
  rewrite E; reflexivity.
Qed.

(** With one, it stops at the first, raising [AssertionError], and leaves
    the model partly rewritten. *)
Lemma replace_layers_aborts (m : Module) :
  assert_free m = false ->
  exists m', rl m = (m', Err AssertionError) /\ abort m m'.
Proof.
  induction m as [cls cs IH] using Module_induction.
  rewrite assert_free_unfold, replace_layers_unfold.
  intros Hbad.
  assert (E : exists pre n c post c',
             cs = pre ++ (n, c) :: post /\
             forallb child_ok pre = true /\
             visit cs = (map conv_child pre ++ (n, c') :: post, Err AssertionError) /\
             (abort c c' \/
              (assert_free c = true /\ passes_assert c = false /\ c' = conv c))).
  { induction cs as [|[n c] cs IHcs]; [discriminate|].
    inversion IH as [|? ? IHc IHrest]; subst; cbn [snd] in IHc.
    cbn [forallb] in Hbad.
    destruct (child_ok (n, c)) eqn:Hc.
    - cbn [andb] in Hbad.
      destruct (IHcs IHrest Hbad) as (pre & n0 & c0 & post & c0' & E1 & E2 & E3 & E4).
      exists ((n, c) :: pre), n0, c0, post, c0'.
      split; [rewrite E1; reflexivity|].
      split; [cbn [forallb]; rewrite Hc, E2; reflexivity|].
      split; [|exact E4].
      unfold child_ok in Hc; cbn [snd] in Hc.
      apply andb_prop in Hc; destruct Hc as [Hp Hf].
      rewrite visit_cons, (replace_layers_completes c Hf), E3.
      rewrite is_adaptive_converted, passes_assert_converted, Hp.
      cbn [map fst snd conv_child converted_child app]; fold fresh; fold conv.
      destruct (is_adaptive c); reflexivity.
    - exists [], n, c, cs.
      unfold child_ok in Hc; cbn [snd] in Hc.
      destruct (assert_free c) eqn:Hf.
      + rewrite andb_true_r in Hc.
        exists (conv c).
        split; [reflexivity|]. split; [reflexivity|].
        split; [|right; auto].
        rewrite visit_cons, (replace_layers_completes c Hf).
        rewrite is_adaptive_converted, passes_assert_converted, Hc.
        unfold passes_assert, is_adaptive in *.
        destruct (class_of c); [reflexivity | discriminate | discriminate].
      + destruct (IHc eq_refl) as (c' & Ec & Ac).
        exists c'.
        split; [reflexivity|]. split; [reflexivity|].
        split; [|left; exact Ac].
        rewrite visit_cons, Ec; reflexivity. }
  destruct E as (pre & n & c & post & c' & E1 & E2 & E3 & E4).
  rewrite E3; cbn [fst snd].
  eexists; split; [reflexivity|].
  rewrite E1.
  destruct E4 as [A | (A1 & A2 & A3)].
  - apply aborted_inside; assumption.
  - rewrite A3; apply aborted_here; assumption.
Qed.

(** [assert_free] says that no path leads to a failing pool. *)
Lemma assert_free_paths (m : Module) :
  assert_free m = true <->
  (forall p c, p <> [] -> node_at m p = Some c -> passes_assert c = true).
Proof.
  induction m as [cls cs IH] using Module_induction.
  rewrite assert_free_unfold, forallb_forall, Forall_forall in *.
  split.
  - intros Hok [|i p] c Hp Hn; [contradiction|].
    cbn [node_at children] in Hn.
    destruct (nth_error cs i) as [[n c0]|] eqn:Ei; [|discriminate].
    pose proof (nth_error_In _ _ Ei) as Hin.
    pose proof (Hok _ Hin) as Hc; unfold child_ok in Hc; cbn [snd] in Hc.
    apply andb_prop in Hc; destruct Hc as [Hc1 Hc2].
    destruct p as [|j p].
    + cbn in Hn; inversion Hn; subst; exact Hc1.
    + apply (proj1 (IH _ Hin) Hc2 (j :: p) c); [discriminate | exact Hn].
  - intros Hall [n c0] Hin.
    destruct (In_nth_error _ _ Hin) as [i Ei].
    unfold child_ok; cbn [snd]; apply andb_true_intro; split.
    + apply (Hall [i] c0); [discriminate|].
      cbn [node_at children]; rewrite Ei; reflexivity.
    + apply (proj2 (IH _ Hin)); intros p c Hp Hn.
      apply (Hall (i :: p) c); [discriminate|].
      cbn [node_at children]; rewrite Ei; exact Hn.
Qed.


Lemma node_at_fresh (p : list nat) (c : Module) :
  node_at fresh p = Some c -> p = [] /\ c = fresh.
Proof.
  destruct p as [|i p]; cbn.
  - intros H; inversion H; auto.
  - destruct i; discriminate.
Qed.

Lemma nth_error_converted (m : Module) (i : nat) :
  nth_error (children (conv m)) i =
  match nth_error (children m) i with
  | Some (n, c) => Some (n, if is_adaptive c then fresh else conv c)
  | None => None
  end.
Proof.
  rewrite children_converted, nth_error_map.
  destruct (nth_error (children m) i) as [[n c]|]; reflexivity.
Qed.

(** Where the complete rewrite puts every exposed submodule. *)
Lemma converted_exposed (m : Module) (p : list nat) (c : Module) :
  exposed m p c ->
  node_at (conv m) p = Some (if is_adaptive c then fresh else conv c).
Proof.
  induction 1 as [m i n c Hi | m i n c p d Hi Hc Hex IH].
  - cbn [node_at]; rewrite nth_error_converted, Hi; reflexivity.
  - cbn [node_at]; rewrite nth_error_converted, Hi, Hc; exact IH.
Qed.

(** Every submodule of the rewritten model stands where an exposed
    submodule of the original stood. *)
Lemma converted_nodes (p : list nat) :
  forall m c', p <> [] -> node_at (conv m) p = Some c' ->
  exists c, exposed m p c /\ c' = (if is_adaptive c then fresh else conv c).
Proof.
  induction p as [|i p IH]; intros m c' Hp Hn; [contradiction|].
  cbn [node_at] in Hn; rewrite nth_error_converted in Hn.
  destruct (nth_error (children m) i) as [[n c1]|] eqn:Ei; [|discriminate].
  destruct p as [|j p].
  - cbn in Hn; inversion Hn; subst.
    exists c1; split; [eapply exposed_child; exact Ei | reflexivity].
  - destruct (is_adaptive c1) eqn:Ha.
    + apply node_at_fresh in Hn; destruct Hn; discriminate.
    + destruct (IH c1 c' ltac:(discriminate) Hn) as (c & Hex & Hc).
      exists c; split; [eapply exposed_deeper; eassumption | exact Hc].
Qed.

Lemma is_adaptive_fresh : is_adaptive fresh = false.
Proof. reflexivity. Qed.


Lemma exposed_node_at (m : Module) (p : list nat) (c : Module) :
  exposed m p c -> p <> [] /\ node_at m p = Some c.
Proof.
  induction 1 as [m i n c Hi | m i n c p d Hi Hc Hex [_ IH]];
    (split; [discriminate|]); cbn [node_at]; rewrite Hi; [reflexivity | exact IH].
Qed.

End ReplaceLayersProps.

(** The rewrite is not atomic: the first pool is already replaced when the
    second one fails the assertion, and the third is never reached. *)
Example replace_layers_partial :
  let pool k := Mod (AdaptiveAvgPool2d_ (OS_int k)) [] in
  replace_layers None None false
    (Mod (OtherModule "Net"%string)
       [("a"%string, pool 1%Z); ("b"%string, pool 2%Z); ("c"%string, pool 1%Z)])
  = (Mod (OtherModule "Net"%string)
       [("a"%string, new_pool None None false); ("b"%string, pool 2%Z);
        ("c"%string, pool 1%Z)],
     Err AssertionError).
Proof. reflexivity. Qed.

(** ** [replace_layers] on module objects *)

Lemma store_length (r : ref) (o : Object) (h : Heap) :
  List.length (store r o h) = List.length h.
Proof.
  revert r; induction h as [|x h IH]; intros [|r]; cbn; try reflexivity.
  rewrite IH; reflexivity.
Qed.

Lemma nth_error_store_eq (r : ref) (o : Object) (h : Heap) :
  r < List.length h -> nth_error (store r o h) r = Some o.
Proof.
  revert r; induction h as [|x h IH]; intros [|r] H; cbn in *; try lia; [reflexivity|].
  apply IH; lia.
Qed.

Lemma nth_error_store_neq (r : ref) (o : Object) (h : Heap) (q : ref) :
  q <> r -> nth_error (store r o h) q = nth_error h q.
Proof.
  revert r q; induction h as [|x h IH]; intros [|r] [|q] H; cbn; try reflexivity;
    try congruence.
  apply IH; congruence.
Qed.

Lemma existsb_eqb_In (a : nat) (l : list nat) :
  existsb (Nat.eqb a) l = true <-> In a l.
Proof.
  rewrite existsb_exists; split.
  - intros (x & Hin & E); apply Nat.eqb_eq in E; subst; exact Hin.
  - intros H; exists a; split; [exact H | apply Nat.eqb_refl].
Qed.

Lemma distinct_nat_NoDup (l : list nat) : distinct Nat.eqb l = true -> NoDup l.
Proof.
  induction l as [|a l IH]; cbn [distinct]; intros H; [constructor|].
  apply andb_prop in H; destruct H as [H1 H2].
  constructor; [|exact (IH H2)].
  intros Hin; apply existsb_eqb_In in Hin; rewrite Hin in H1; discriminate.
Qed.

Lemma distinct_string_NoDup (l : list string) : distinct String.eqb l = true -> NoDup l.
Proof.
  induction l as [|a l IH]; cbn [distinct]; intros H; [constructor|].
  apply andb_prop in H; destruct H as [H1 H2].
  constructor; [|exact (IH H2)].
  intros Hin.
  assert (E : existsb (String.eqb a) l = true)
    by (apply existsb_exists; exists a; split; [exact Hin | apply String.eqb_refl]).
  rewrite E in H1; discriminate.
Qed.

(** Assigning to a key of a dictionary replaces the value where it stands. *)
Lemma assign_middle (n : string) (v m : ref) (pre post : list (string * ref)) :
  ~ In n (map fst pre) ->
  assign n v (pre ++ (n, m) :: post) = pre ++ (n, v) :: post.
Proof.
  induction pre as [|[n' m'] pre IH]; intros H; cbn [app assign].
  - rewrite String.eqb_refl; reflexivity.
  - cbn [map fst In] in H.
    destruct (String.eqb_spec n' n) as [->|Hne]; [exfalso; apply H; left; reflexivity|].
    rewrite IH by (intros Hin; apply H; right; exact Hin); reflexivity.
Qed.

Lemma ObjTree_induction (P : ObjTree -> Prop) :
  (forall r cls cs, Forall (fun nc => P (snd nc)) cs -> P (ONode r cls cs)) ->
  forall t, P t.
Proof.
  intros H; fix IH 1; intros [r cls cs]; apply H.
  induction cs as [|[n c] cs IHcs]; constructor; [apply IH | exact IHcs].
Qed.

Lemma stored_unfold (h : Heap) (r : ref) (cls : ModuleClass)
    (cs : list (string * ObjTree)) :
  stored h (ONode r cls cs) <->
  nth_error h r = Some (mkObject cls (map entry cs)) /\
  Forall (fun nc => stored h (snd nc)) cs.
Proof.
  cbn [stored].
  assert (E : forall l : list (string * ObjTree),
             (fix all (cs : list (string * ObjTree)) : Prop :=
                match cs with
                | [] => True
                | (_, c) :: rest => stored h c /\ all rest
                end) l <-> Forall (fun nc => stored h (snd nc)) l).
  { induction l as [|[n c] l IHl]; [split; [constructor | trivial]|].
    split.
    - intros [A B]; constructor; [exact A | apply IHl; exact B].
    - intros F; inversion F; subst; split; [assumption | apply IHl; assumption]. }
  rewrite E; reflexivity.
Qed.

(** A stored tree only depends on the objects at its references. *)
Lemma stored_frame (h h' : Heap) (t : ObjTree) :
  (forall q, In q (refs_of t) -> nth_error h' q = nth_error h q) ->
  stored h t -> stored h' t.
Proof.
  induction t as [r cls cs IH] using ObjTree_induction.
  intros F S; apply stored_unfold in S; destruct S as [S1 S2].
  apply stored_unfold; split.
  - rewrite F by (cbn; left; reflexivity); exact S1.
  - rewrite Forall_forall in *; intros nc Hin.
    apply (IH nc Hin); [|exact (S2 nc Hin)].
    intros q Hq; apply F; cbn [refs_of]; right.
    apply in_flat_map; exists nc; split; assumption.
Qed.

Lemma stored_root (h : Heap) (t : ObjTree) :
  stored h t ->
  nth_error h (oref t) = Some (mkObject (oclass t) (map entry (ochildren t))).
Proof. destruct t as [r cls cs]; intros S; apply stored_unfold in S; apply S. Qed.

Lemma stored_refs (h : Heap) (t : ObjTree) (q : ref) :
  stored h t -> In q (refs_of t) -> q < List.length h.
Proof.
  induction t as [r cls cs IH] using ObjTree_induction.
  intros S Hq; apply stored_unfold in S; destruct S as [S1 S2].
  cbn [refs_of] in Hq; destruct Hq as [<-|Hq].
  - apply nth_error_Some; rewrite S1; discriminate.
  - apply in_flat_map in Hq; destruct Hq as (nc & Hin & Hq).
    rewrite Forall_forall in *; exact (IH nc Hin (S2 nc Hin) Hq).
Qed.

Lemma NoDup_app_disjoint {A : Type} (l1 l2 : list A) (a : A) :
  NoDup (l1 ++ l2) -> In a l1 -> ~ In a l2.
Proof.
  induction l1 as [|x l1 IH]; intros H H1 H2; [contradiction|].
  cbn [app] in H; inversion H as [|? ? Hx Hrest]; subst.
  destruct H1 as [->|H1].
  - apply Hx; apply in_or_app; right; exact H2.
  - exact (IH Hrest H1 H2).
Qed.



Lemma class_at_stored (h : Heap) (t : ObjTree) :
  stored h t -> class_at h (oref t) = Some (oclass t).
Proof. intros S; unfold class_at; rewrite (stored_root h t S); reflexivity. Qed.

Lemma modules_of_stored (h : Heap) (t : ObjTree) :
  stored h t -> modules_of h (oref t) = map entry (ochildren t).
Proof. intros S; unfold modules_of; rewrite (stored_root h t S); reflexivity. Qed.

Section ReplaceLayersHeapProps.

Variable base_size_arg : option BaseSize.
Variable train_size_arg : option (list Z).
Variable fast_imp_arg : bool.

Let fresh_object := new_pool_object base_size_arg train_size_arg fast_imp_arg.
Let conv := oconverted base_size_arg train_size_arg fast_imp_arg.
Let conv_children := oconverted_children base_size_arg train_size_arg fast_imp_arg.
Let rlh := replace_layers_heap base_size_arg train_size_arg fast_imp_arg.

Lemma oconverted_unfold (next : nat) (r : ref) (cls : ModuleClass)
    (cs : list (string * ObjTree)) :
  conv next (ONode r cls cs) =
  (ONode r cls (fst (conv_children next cs)), snd (conv_children next cs)).
Proof.
  unfold conv; cbn [oconverted].
  match goal with
  | |- (let (_, _) := ?g next cs in _) = _ =>
      assert (E : forall l k, g k l = conv_children k l)
  end.
  { induction l as [|[n c] l IHl]; intros k; [reflexivity|].
    cbn [oconverted_children conv_children].
    destruct (oconverted _ _ _ k c) as [c1 k1].
    destruct (adaptive_class (oclass c)); rewrite IHl; reflexivity. }
  rewrite E; destruct (conv_children next cs); reflexivity.
Qed.

Lemma oconverted_children_cons (next : nat) (n : string) (c : ObjTree)
    (rest : list (string * ObjTree)) :
  conv_children next ((n, c) :: rest) =
  if adaptive_class (oclass c)
  then ((n, ONode (snd (conv next c)) (obj_class fresh_object) [])
          :: fst (conv_children (S (snd (conv next c))) rest),
        snd (conv_children (S (snd (conv next c))) rest))
  else ((n, fst (conv next c)) :: fst (conv_children (snd (conv next c)) rest),
        snd (conv_children (snd (conv next c)) rest)).
Proof.
  unfold conv_children, conv; cbn [oconverted_children].
  destruct (oconverted _ _ _ next c) as [c1 k1]; cbn [fst snd].
  destruct (adaptive_class (oclass c));
    [destruct (oconverted_children _ _ _ (S k1) rest)
    |destruct (oconverted_children _ _ _ k1 rest)]; reflexivity.
Qed.

Lemma oref_converted (next : nat) (t : ObjTree) : oref (fst (conv next t)) = oref t.
Proof. destruct t; rewrite oconverted_unfold; reflexivity. Qed.

Lemma oclass_converted (next : nat) (t : ObjTree) : oclass (fst (conv next t)) = oclass t.
Proof. destruct t; rewrite oconverted_unfold; reflexivity. Qed.

Lemma oconverted_leaf (next : nat) (t : ObjTree) :
  ochildren t = [] -> conv next t = (t, next).
Proof. destruct t as [r cls cs]; cbn [ochildren]; intros ->; rewrite oconverted_unfold; reflexivity. Qed.

Lemma names_converted_children (cs : list (string * ObjTree)) :
  forall next, map fst (fst (conv_children next cs)) = map fst cs.
Proof.
  induction cs as [|[n c] cs IH]; intros next; [reflexivity|].
  rewrite oconverted_children_cons.
  destruct (adaptive_class (oclass c)); cbn [fst map]; rewrite IH; reflexivity.
Qed.

(** The rewrite only hands out references from [next] on. *)
Lemma oconverted_next (t : ObjTree) : forall next, next <= snd (conv next t).
Proof.
  induction t as [r cls cs IH] using ObjTree_induction; intros next.
  rewrite oconverted_unfold; cbn [snd].
  revert next; induction cs as [|[n c] cs IHcs]; intros next; [cbn; lia|].
  inversion IH as [|? ? IHc IHrest]; subst; cbn [snd] in IHc.
  rewrite oconverted_children_cons.
  pose proof (IHc next).
  destruct (adaptive_class (oclass c)); cbn [snd].
  - pose proof (IHcs IHrest (S (snd (conv next c)))); lia.
  - pose proof (IHcs IHrest (snd (conv next c))); lia.
Qed.

Lemma oconverted_children_next (cs : list (string * ObjTree)) :
  forall next, next <= snd (conv_children next cs).
Proof.
  intros next.
  pose proof (oconverted_next (ONode 0 (OtherModule EmptyString) cs) next) as H.
  rewrite oconverted_unfold in H; exact H.
Qed.

(** The references of the rewritten tree are references of the tree, or
    new. *)
Lemma oconverted_refs (t : ObjTree) :
  forall next q, In q (refs_of (fst (conv next t))) ->
    In q (refs_of t) \/ next <= q < snd (conv next t).
Proof.
  induction t as [r cls cs IH] using ObjTree_induction; intros next q.
  rewrite oconverted_unfold; cbn [fst snd refs_of In].
  intros [->|Hq]; [left; left; reflexivity|].
  assert (G : In q (flat_map (fun nc => refs_of (snd nc)) cs)
              \/ next <= q < snd (conv_children next cs));
    [|destruct G; [left; right; assumption | right; assumption]].
  revert next Hq; induction cs as [|[n c] cs IHcs]; intros next Hq; [contradiction|].
  inversion IH as [|? ? IHc IHrest]; subst; cbn [snd] in IHc.
  rewrite oconverted_children_cons in *.
  pose proof (oconverted_next c next) as N1.
  cbn [flat_map snd].
  destruct (adaptive_class (oclass c)); cbn [fst snd flat_map refs_of In app] in *.
  - pose proof (oconverted_children_next cs (S (snd (conv next c)))) as N2.
    destruct Hq as [<-|Hq]; [right; lia|].
    destruct (IHcs IHrest _ Hq) as [G|G]; [left; apply in_or_app; right; exact G | right; lia].
  - pose proof (oconverted_children_next cs (snd (conv next c))) as N2.
    apply in_app_or in Hq; destruct Hq as [Hq|Hq].
    + destruct (IHc next q Hq) as [G|G]; [left; apply in_or_app; left; exact G | right; lia].
    + destruct (IHcs IHrest _ Hq) as [G|G]; [left; apply in_or_app; right; exact G | right; lia].
Qed.

Lemma children_loop_converts (depth : nat) (r : ref) (cls : ModuleClass)
    (post : list (string * ObjTree)) :
  Forall (fun nc => rewrites base_size_arg train_size_arg fast_imp_arg depth (snd nc)) post ->
  forall (pre : list (string * ref)) (memo : list ref) (todo : nat) (h : Heap),
    nth_error h r = Some (mkObject cls (pre ++ map entry post)) ->
    Forall (fun nc => stored h (snd nc)) post ->
    NoDup (r :: flat_map (fun nc => refs_of (snd nc)) post) ->
    NoDup (map fst pre ++ map fst post) ->
    Forall (fun nc => names_ok (snd nc) = true) post ->
    (forall x, In x memo -> ~ In x (flat_map (fun nc => refs_of (snd nc)) post)) ->
    List.length post <= todo ->
    Forall (fun nc =>
              class_passes (oclass (snd nc)) = true /\
              forall p c, p <> [] -> onode_at (snd nc) p = Some c ->
                          class_passes (oclass c) = true) post ->
    Forall (fun nc => height (snd nc) < depth) post ->
    exists h',
      children_loop base_size_arg train_size_arg fast_imp_arg (rlh depth) r todo
        (List.length pre) memo h = (h', Ok tt) /\
      nth_error h' r
      = Some (mkObject cls (pre ++ map entry (fst (conv_children (List.length h) post)))) /\
      Forall (fun nc => stored h' (snd nc)) (fst (conv_children (List.length h) post)) /\
      List.length h' = snd (conv_children (List.length h) post) /\
      (forall q, q < List.length h -> q <> r ->
                 ~ In q (flat_map (fun nc => refs_of (snd nc)) post) ->
                 nth_error h' q = nth_error h q).
Proof.
  induction post as [|[n c] rest IHrest];
    intros IH pre memo todo h Hr Hst Hnd Hnames Hnok Hmemo Htodo Hpass Hheight.
  - exists h.
    cbn [conv_children oconverted_children fst snd map] in *.
    split.
    { destruct todo as [|todo]; [reflexivity|].
      cbn [children_loop]; unfold modules_of; rewrite Hr; cbn [obj_modules].
      rewrite app_nil_r.
      replace (nth_error pre (List.length pre)) with (@None (string * ref))
        by (symmetry; apply nth_error_None; lia).
      reflexivity. }
    split; [exact Hr|]. split; [constructor|]. split; [reflexivity|].
    intros; reflexivity.
  - inversion IH as [|? ? IHc IHrest']; subst; cbn [snd] in IHc.
    inversion Hst as [|? ? Sc Srest]; subst; cbn [snd] in Sc.
    inversion Hnok as [|? ? Nc Nrest]; subst; cbn [snd] in Nc.
    inversion Hpass as [|? ? [Pc Pdeep] Prest]; subst; cbn [snd] in Pc, Pdeep.
    inversion Hheight as [|? ? Hc Hrest]; subst; cbn [snd] in Hc.
    cbn [flat_map snd] in Hnd, Hmemo.
    assert (Rlt : r < List.length h) by (apply nth_error_Some; rewrite Hr; discriminate).
    assert (Hrc : ~ In r (refs_of c)).
    { inversion Hnd as [|? ? Hnin _]; subst.
      intros Hin; apply Hnin; apply in_or_app; left; exact Hin. }
    assert (Hrrest : ~ In r (flat_map (fun nc => refs_of (snd nc)) rest)).
    { inversion Hnd as [|? ? Hnin _]; subst.
      intros Hin; apply Hnin; apply in_or_app; right; exact Hin. }
    assert (Ndc : NoDup (refs_of c)).
    { inversion Hnd as [|? ? _ Hnd']; subst; exact (NoDup_app_remove_r _ _ Hnd'). }
    assert (Ndrest : NoDup (r :: flat_map (fun nc => refs_of (snd nc)) rest)).
    { inversion Hnd as [|? ? _ Hnd']; subst.
      constructor; [exact Hrrest | exact (NoDup_app_remove_l _ _ Hnd')]. }
    assert (Disj : forall q, In q (refs_of c) ->
                     ~ In q (flat_map (fun nc => refs_of (snd nc)) rest)).
    { inversion Hnd as [|? ? _ Hnd']; subst.
      intros q Hq1 Hq2; exact (NoDup_app_disjoint _ _ q Hnd' Hq1 Hq2). }
    assert (Rootc : In (oref c) (refs_of c)) by (destruct c; cbn; left; reflexivity).
    assert (Hnin : ~ In n (map fst pre)).
    { intros Hin.
      apply (NoDup_app_disjoint _ _ n Hnames Hin); cbn; left; reflexivity. }
    assert (Restlt : forall q, In q (flat_map (fun nc => refs_of (snd nc)) rest) ->
                       q < List.length h).
    { intros q Hq; apply in_flat_map in Hq; destruct Hq as (nc & Hin & Hq).
      rewrite Forall_forall in Srest; exact (stored_refs h (snd nc) q (Srest nc Hin) Hq). }
    (* the recursive call, if any *)
    assert (Rec : exists h1,
               match modules_of h (oref c) with
               | [] => (h, Ok tt)
               | _ :: _ => rlh depth (oref c) h
               end = (h1, Ok tt) /\
               stored h1 (fst (conv (List.length h) c)) /\
               List.length h1 = snd (conv (List.length h) c) /\
               (forall q, q < List.length h -> ~ In q (refs_of c) ->
                          nth_error h1 q = nth_error h q)).
    { rewrite (modules_of_stored h c Sc).
      destruct (ochildren c) as [|nc0 cs0] eqn:Ec.
      - exists h; rewrite (oconverted_leaf _ c Ec); cbn [map fst snd].
        split; [reflexivity|]. split; [exact Sc|]. split; [reflexivity|].
        intros; reflexivity.
      - cbn [map]. exact (IHc h Sc Ndc Nc Pdeep Hc). }
    destruct Rec as (h1 & Erec & S1 & L1 & F1).
    pose proof (oconverted_next c (List.length h)) as Mono.
    assert (Hr1 : nth_error h1 r = Some (mkObject cls (pre ++ (n, oref c) :: map entry rest)))
      by (rewrite (F1 r Rlt Hrc); exact Hr).
    assert (Cl1 : class_at h1 (oref c) = Some (oclass c)).
    { rewrite <- (oref_converted (List.length h) c), <- (oclass_converted (List.length h) c).
      apply class_at_stored; exact S1. }
    destruct todo as [|todo]; [cbn in Htodo; lia|].
    cbn [List.length] in Htodo.
    cbn [children_loop]; unfold modules_of at 1; rewrite Hr; cbn [obj_modules map entry fst snd].
    rewrite nth_error_app2 by lia; rewrite Nat.sub_diag; cbn [nth_error].
    unfold entry at 1; cbn [fst snd].
    replace (existsb (Nat.eqb (oref c)) memo) with false.
    2:{ symmetry; apply not_true_is_false; intros E; apply existsb_eqb_In in E.
        apply (Hmemo _ E); apply in_or_app; left; exact Rootc. }
    rewrite Erec, Cl1.
    rewrite oconverted_children_cons.
    destruct (oclass c) as [o| |] eqn:Ecls; cbn [adaptive_class class_passes] in *.
    + (* an [nn.AdaptiveAvgPool2d]: replaced *)
      rewrite Pc; cbn [alloc].
      set (h2 := h1 ++ [new_pool_object base_size_arg train_size_arg fast_imp_arg]).
      assert (Hr2 : nth_error h2 r = Some (mkObject cls (pre ++ (n, oref c) :: map entry rest)))
        by (unfold h2; rewrite nth_error_app1 by lia; exact Hr1).
      unfold setattr; rewrite Hr2; cbn [obj_class obj_modules].
      rewrite (assign_middle n (List.length h1) (oref c) pre (map entry rest) Hnin).
      set (h3 := store r _ h2).
      assert (L3 : List.length h3 = S (List.length h1)).
      { unfold h3; rewrite store_length; unfold h2; rewrite length_app; cbn; lia. }
      assert (F3 : forall q, q < List.length h -> q <> r -> ~ In q (refs_of c) ->
                     nth_error h3 q = nth_error h q).
      { intros q Hq Hqr Hqc; unfold h3; rewrite nth_error_store_neq by exact Hqr.
        unfold h2; rewrite nth_error_app1 by lia. exact (F1 q Hq Hqc). }
      destruct (IHrest IHrest' (pre ++ [(n, List.length h1)]) (oref c :: memo) todo h3)
        as (h' & Eloop & Hr' & Sr' & L' & F').
      { unfold h3; rewrite nth_error_store_eq
          by (unfold h2; rewrite length_app; cbn; lia).
        rewrite <- app_assoc; reflexivity. }
      { rewrite Forall_forall in *; intros nc Hin.
        apply (stored_frame h h3 (snd nc)); [|exact (Srest nc Hin)].
        intros q Hq.
        assert (Hq' : In q (flat_map (fun nc => refs_of (snd nc)) rest))
          by (apply in_flat_map; exists nc; split; assumption).
        apply F3; [exact (Restlt q Hq') | intros ->; exact (Hrrest Hq')
                  | intros Hqc; exact (Disj q Hqc Hq')]. }
      { exact Ndrest. }
      { rewrite map_app; cbn [map fst]; rewrite <- app_assoc; exact Hnames. }
      { exact Nrest. }
      { intros x [<-|Hx]; [exact (Disj _ Rootc)|].
        intros Hin; apply (Hmemo x Hx); apply in_or_app; right; exact Hin. }
      { lia. }
      { exact Prest. }
      { exact Hrest. }
      rewrite length_app in Eloop; cbn [List.length] in Eloop.
      rewrite Nat.add_1_r in Eloop.
      exists h'; split; [exact Eloop|].
      rewrite L3, L1 in *.
      cbn [fst snd map entry oref].
      split; [rewrite <- app_assoc in Hr'; exact Hr'|].
      split.
      { constructor; [|exact Sr'].
        cbn [snd]; apply stored_unfold; split; [|constructor].
        rewrite F'.
        - unfold h3; rewrite nth_error_store_neq by lia.
          unfold h2; rewrite <- L1, nth_error_app2 by lia.
          rewrite Nat.sub_diag; reflexivity.
        - lia.
        - lia.
        - intros Hin; pose proof (Restlt _ Hin); lia. }
      split; [exact L'|].
      intros q Hq Hqr Hqn.
      rewrite F' by (try lia; intros Hin; apply Hqn; apply in_or_app; right; exact Hin).
      apply F3; [exact Hq | exact Hqr
                | intros Hin; apply Hqn; apply in_or_app; left; exact Hin].
    + (* an [AvgPool2d]: kept *)
      destruct (IHrest IHrest' (pre ++ [(n, oref c)]) (oref c :: memo) todo h1)
        as (h' & Eloop & Hr' & Sr' & L' & F').
      { rewrite <- app_assoc; exact Hr1. }
      { rewrite Forall_forall in *; intros nc Hin.
        apply (stored_frame h h1 (snd nc)); [|exact (Srest nc Hin)].
        intros q Hq.
        assert (Hq' : In q (flat_map (fun nc => refs_of (snd nc)) rest))
          by (apply in_flat_map; exists nc; split; assumption).
        apply F1; [exact (Restlt q Hq') | intros Hqc; exact (Disj q Hqc Hq')]. }
      { exact Ndrest. }
      { rewrite map_app; cbn [map fst]; rewrite <- app_assoc; exact Hnames. }
      { exact Nrest. }
      { intros x [<-|Hx]; [exact (Disj _ Rootc)|].
        intros Hin; apply (Hmemo x Hx); apply in_or_app; right; exact Hin. }
      { lia. }
      { exact Prest. }
      { exact Hrest. }
      rewrite length_app in Eloop; cbn [List.length] in Eloop.
      rewrite Nat.add_1_r in Eloop.
      exists h'; split; [exact Eloop|].
      rewrite L1 in *.
      cbn [fst snd map].
      unfold entry at 1; cbn [fst snd].
      rewrite oref_converted.
      split; [rewrite <- app_assoc in Hr'; exact Hr'|].
      split.
      { constructor; [|exact Sr'].
        cbn [snd]; apply (stored_frame h1 h'); [|exact S1].
        intros q Hq.
        pose proof (stored_refs h1 _ q S1 Hq) as Hlt.
        destruct (oconverted_refs c (List.length h) q Hq) as [G|G].
        - apply F'; [lia | intros ->; exact (Hrc G) | exact (Disj q G)].
        - apply F'; [lia | lia | intros Hin; pose proof (Restlt _ Hin); lia]. }
      split; [exact L'|].
      intros q Hq Hqr Hqn.
      rewrite F' by (try lia; intros Hin; apply Hqn; apply in_or_app; right; exact Hin).
      apply F1; [exact Hq | intros Hin; apply Hqn; apply in_or_app; left; exact Hin].
    + (* any other module: kept *)
      destruct (IHrest IHrest' (pre ++ [(n, oref c)]) (oref c :: memo) todo h1)
        as (h' & Eloop & Hr' & Sr' & L' & F').
      { rewrite <- app_assoc; exact Hr1. }
      { rewrite Forall_forall in *; intros nc Hin.
        apply (stored_frame h h1 (snd nc)); [|exact (Srest nc Hin)].
        intros q Hq.
        assert (Hq' : In q (flat_map (fun nc => refs_of (snd nc)) rest))
          by (apply in_flat_map; exists nc; split; assumption).
        apply F1; [exact (Restlt q Hq') | intros Hqc; exact (Disj q Hqc Hq')]. }
      { exact Ndrest. }
      { rewrite map_app; cbn [map fst]; rewrite <- app_assoc; exact Hnames. }
      { exact Nrest. }
      { intros x [<-|Hx]; [exact (Disj _ Rootc)|].
        intros Hin; apply (Hmemo x Hx); apply in_or_app; right; exact Hin. }
      { lia. }
      { exact Prest. }
      { exact Hrest. }
      rewrite length_app in Eloop; cbn [List.length] in Eloop.
      rewrite Nat.add_1_r in Eloop.
      exists h'; split; [exact Eloop|].
      rewrite L1 in *.
      cbn [fst snd map].
      unfold entry at 1; cbn [fst snd].
      rewrite oref_converted.
      split; [rewrite <- app_assoc in Hr'; exact Hr'|].
      split.
      { constructor; [|exact Sr'].
        cbn [snd]; apply (stored_frame h1 h'); [|exact S1].
        intros q Hq.
        pose proof (stored_refs h1 _ q S1 Hq) as Hlt.
        destruct (oconverted_refs c (List.length h) q Hq) as [G|G].
        - apply F'; [lia | intros ->; exact (Hrc G) | exact (Disj q G)].
        - apply F'; [lia | lia | intros Hin; pose proof (Restlt _ Hin); lia]. }
      split; [exact L'|].
      intros q Hq Hqr Hqn.
      rewrite F' by (try lia; intros Hin; apply Hqn; apply in_or_app; right; exact Hin).
      apply F1; [exact Hq | intros Hin; apply Hqn; apply in_or_app; left; exact Hin].
Qed.

Lemma height_child (r : ref) (cls : ModuleClass) (cs : list (string * ObjTree))
    (nc : string * ObjTree) :
  In nc cs -> height (snd nc) < height (ONode r cls cs).
Proof.
  intros Hin; cbn [height].
  assert (H : Forall (fun k => k <= list_max (map (fun nc => S (height (snd nc))) cs))
                (map (fun nc => S (height (snd nc))) cs))
    by (apply list_max_le; lia).
  rewrite Forall_forall in H.
  specialize (H (S (height (snd nc)))).
  assert (In (S (height (snd nc))) (map (fun nc => S (height (snd nc))) cs))
    by (apply in_map_iff; exists nc; split; [reflexivity | exact Hin]).
  apply H in H0; lia.
Qed.

(** On a tree of module objects whose pools pass the assertion, and with
    enough nested calls allowed, [replace_layers] returns normally and
    leaves the rewritten tree. *)
Lemma replace_layers_heap_converts (t : ObjTree) :
  forall depth, rewrites base_size_arg train_size_arg fast_imp_arg depth t.
Proof.
  induction t as [r cls cs IH] using ObjTree_induction.
  intros depth h S Nd Nk Hp Hh.
  destruct depth as [|d]; [lia|].
  apply stored_unfold in S; destruct S as [S1 S2].
  cbn [names_ok] in Nk; apply andb_prop in Nk; destruct Nk as [Nk1 Nk2].
  destruct (children_loop_converts d r cls cs) with
    (pre := @nil (string * ref)) (memo := @nil ref) (todo := List.length cs) (h := h)
    as (h' & Eloop & Hr' & Sr' & L' & F').
  - rewrite Forall_forall in *; intros nc Hin; apply (IH nc Hin).
  - exact S1.
  - exact S2.
  - exact Nd.
  - cbn [map app]; apply distinct_string_NoDup; exact Nk1.
  - rewrite Forall_forall; rewrite forallb_forall in Nk2; exact Nk2.
  - intros x [].
  - lia.
  - rewrite Forall_forall; intros [n c] Hin; cbn [snd].
    destruct (In_nth_error _ _ Hin) as [i Ei].
    split.
    + apply (Hp [i] c); [discriminate|].
      cbn [onode_at ochildren]; rewrite Ei; reflexivity.
    + intros p c' Hne E; apply (Hp (i :: p) c'); [discriminate|].
      cbn [onode_at ochildren]; rewrite Ei; exact E.
  - rewrite Forall_forall; intros nc Hin.
    pose proof (height_child r cls cs nc Hin); lia.
  - exists h'.
    cbn [oref]; unfold rlh; cbn [replace_layers_heap].
    unfold modules_of at 1; rewrite S1; cbn [obj_modules]; rewrite length_map.
    fold rlh; cbn [List.length] in Eloop.
    split; [exact Eloop|].
    rewrite oconverted_unfold; cbn [fst snd].
    split; [apply stored_unfold; split; [exact Hr' | exact Sr']|].
    split; [exact L'|].
    intros q Hq Hn; cbn [refs_of In] in Hn.
    apply F'; [exact Hq | intros ->; apply Hn; left; reflexivity
              | intros Hin; apply Hn; right; exact Hin].
Qed.

Lemma length_converted_children (cs : list (string * ObjTree)) (next : nat) :
  List.length (fst (conv_children next cs)) = List.length cs.
Proof.
  rewrite <- (length_map fst), names_converted_children, length_map; reflexivity.
Qed.

(** The child at position [i] after the rewrite: a new pool object for an
    [nn.AdaptiveAvgPool2d], the rewritten child otherwise. *)
Lemma nth_error_converted_children (cs : list (string * ObjTree)) :
  forall next i n c,
    nth_error cs i = Some (n, c) ->
    exists k, next <= k /\
      nth_error (fst (conv_children next cs)) i =
      Some (n, if adaptive_class (oclass c)
               then ONode (snd (conv k c)) (obj_class fresh_object) []
               else fst (conv k c)).
Proof.
  induction cs as [|[n0 c0] cs IH]; intros next i n c E; [destruct i; discriminate|].
  rewrite oconverted_children_cons.
  pose proof (oconverted_next c0 next) as M.
  destruct i as [|i]; cbn [nth_error] in E.
  - inversion E; subst; exists next; split; [lia|].
    destruct (adaptive_class (oclass c)); reflexivity.
  - destruct (adaptive_class (oclass c0)); cbn [fst nth_error].
    + destruct (IH (S (snd (conv next c0))) i n c E) as (k & Hk & Ek).
      exists k; split; [lia | exact Ek].
    + destruct (IH (snd (conv next c0)) i n c E) as (k & Hk & Ek).
      exists k; split; [lia | exact Ek].
Qed.

Lemma converted_children_origin (cs : list (string * ObjTree)) (next i : nat)
    (n : string) (c' : ObjTree) :
  nth_error (fst (conv_children next cs)) i = Some (n, c') ->
  exists c k, nth_error cs i = Some (n, c) /\ next <= k /\
    c' = (if adaptive_class (oclass c)
          then ONode (snd (conv k c)) (obj_class fresh_object) []
          else fst (conv k c)).
Proof.
  intros E.
  assert (Hi : i < List.length cs).
  { rewrite <- (length_converted_children cs next).
    apply nth_error_Some; rewrite E; discriminate. }
  destruct (nth_error cs i) as [[n0 c]|] eqn:Ei;
    [|apply nth_error_None in Ei; lia].
  destruct (nth_error_converted_children cs next i n0 c Ei) as (k & Hk & Ek).
  rewrite Ek in E; inversion E; subst.
  exists c, k; split; [reflexivity|]. split; [exact Hk | reflexivity].
Qed.


Lemma adaptive_fresh : adaptive_class (obj_class fresh_object) = false.
Proof. reflexivity. Qed.

Lemma oconverted_nodes (p : list nat) :
  forall t next c',
    p <> [] -> onode_at (fst (conv next t)) p = Some c' ->
    adaptive_class (oclass c') = false.
Proof.
  induction p as [|i p IH]; intros t next c' Hp E; [contradiction|].
  destruct t as [r cls cs]; rewrite oconverted_unfold in E.
  cbn [fst onode_at ochildren] in E.
  destruct (nth_error (fst (conv_children next cs)) i) as [[n c1]|] eqn:Ei;
    [|discriminate].
  destruct (converted_children_origin cs next i n c1 Ei) as (c & k & Ec & Hk & ->).
  destruct (adaptive_class (oclass c)) eqn:Ea.
  - destruct p as [|j p]; cbn [onode_at ochildren] in E.
    + inversion E; subst; reflexivity.
    + destruct j; discriminate.
  - destruct p as [|j p].
    + cbn [onode_at] in E; inversion E; subst.
      rewrite oclass_converted; exact Ea.
    + apply (IH c k c'); [discriminate | exact E].
Qed.

Lemma stored_names_ok (h : Heap) (t : ObjTree) :
  dictionaries h = true -> stored h t -> names_ok t = true.
Proof.
  intros D; induction t as [r cls cs IH] using ObjTree_induction.
  intros S; apply stored_unfold in S; destruct S as [S1 S2].
  cbn [names_ok]; apply andb_true_intro; split.
  - unfold dictionaries in D; rewrite forallb_forall in D.
    pose proof (D _ (nth_error_In _ _ S1)) as Hd; cbn [obj_modules] in Hd.
    rewrite map_map in Hd; exact Hd.
  - apply forallb_forall; intros nc Hin.
    rewrite Forall_forall in *; exact (IH nc Hin (S2 nc Hin)).
Qed.

Lemma oassert_free_paths (t : ObjTree) :
  oassert_free t = true ->
  forall p c, p <> [] -> onode_at t p = Some c -> class_passes (oclass c) = true.
Proof.
  induction t as [r cls cs IH] using ObjTree_induction.
  cbn [oassert_free]; rewrite forallb_forall.
  intros Hok [|i p] c Hp E; [contradiction|].
  cbn [onode_at ochildren] in E.
  destruct (nth_error cs i) as [[n c0]|] eqn:Ei; [|discriminate].
  pose proof (nth_error_In _ _ Ei) as Hin.
  pose proof (Hok _ Hin) as Hc; cbn [snd] in Hc.
  apply andb_prop in Hc; destruct Hc as [Hc1 Hc2].
  destruct p as [|j p].
  - cbn in E; inversion E; subst; exact Hc1.
  - rewrite Forall_forall in IH.
    apply (IH _ Hin Hc2 (j :: p) c); [discriminate | exact E].
Qed.

Lemma oconverted_children_refs (cs : list (string * ObjTree)) :
  forall next q,
    In q (flat_map (fun nc => refs_of (snd nc)) (fst (conv_children next cs))) ->
    In q (flat_map (fun nc => refs_of (snd nc)) cs)
    \/ next <= q < snd (conv_children next cs).
Proof.
  induction cs as [|[n c] cs IH]; intros next q Hq; [contradiction|].
  rewrite oconverted_children_cons in *.
  pose proof (oconverted_next c next) as N1.
  cbn [flat_map snd].
  destruct (adaptive_class (oclass c)); cbn [fst snd flat_map refs_of In app] in *.
  - pose proof (oconverted_children_next cs (S (snd (conv next c)))) as N2.
    destruct Hq as [<-|Hq]; [right; lia|].
    destruct (IH _ _ Hq) as [G|G]; [left; apply in_or_app; right; exact G | right; lia].
  - pose proof (oconverted_children_next cs (snd (conv next c))) as N2.
    apply in_app_or in Hq; destruct Hq as [Hq|Hq].
    + destruct (oconverted_refs c next q Hq) as [G|G];
        [left; apply in_or_app; left; exact G | right; lia].
    + destruct (IH _ _ Hq) as [G|G]; [left; apply in_or_app; right; exact G | right; lia].
Qed.

(** The rewritten tree is a tree again: the new objects are pairwise
    distinct and distinct from the old ones. *)
Lemma oconverted_NoDup (t : ObjTree) :
  forall next,
    NoDup (refs_of t) -> (forall q, In q (refs_of t) -> q < next) ->
    NoDup (refs_of (fst (conv next t))).
Proof.
  induction t as [r cls cs IH] using ObjTree_induction; intros next Nd Lt.
  rewrite oconverted_unfold; cbn [fst refs_of].
  cbn [refs_of] in Nd, Lt.
  inversion Nd as [|? ? Hr Ndcs]; subst.
  constructor.
  - intros Hin; destruct (oconverted_children_refs cs next r Hin) as [G|G];
      [exact (Hr G)|].
    pose proof (Lt r (or_introl eq_refl)); lia.
  - assert (Ltcs : forall q, In q (flat_map (fun nc => refs_of (snd nc)) cs) -> q < next)
      by (intros q Hq; apply Lt; right; exact Hq).
    clear Hr Nd Lt.
    revert next Ndcs Ltcs; induction cs as [|[n c] cs IHcs]; intros next Ndcs Ltcs;
      [constructor|].
    inversion IH as [|? ? IHc IHrest]; subst; cbn [snd] in IHc.
    cbn [flat_map snd] in Ndcs, Ltcs.
    pose proof (NoDup_app_remove_r _ _ Ndcs) as Ndc.
    pose proof (NoDup_app_remove_l _ _ Ndcs) as Ndrest.
    pose proof (oconverted_next c next) as N1.
    rewrite oconverted_children_cons.
    destruct (adaptive_class (oclass c)); cbn [fst flat_map snd refs_of app].
    + constructor.
      * intros Hin.
        destruct (oconverted_children_refs cs _ _ Hin) as [G|G]; [|lia].
        pose proof (Ltcs _ (in_or_app _ _ _ (or_intror G))); lia.
      * apply (IHcs IHrest); [exact Ndrest|].
        intros q Hq; pose proof (Ltcs q (in_or_app _ _ _ (or_intror Hq))); lia.
    + apply NoDup_app.
      * apply IHc; [exact Ndc|].
        intros q Hq; apply Ltcs; apply in_or_app; left; exact Hq.
      * apply (IHcs IHrest); [exact Ndrest|].
        intros q Hq; pose proof (Ltcs q (in_or_app _ _ _ (or_intror Hq))); lia.
      * intros a Ha Hb.
        destruct (oconverted_refs c next a Ha) as [G1|G1];
          destruct (oconverted_children_refs cs _ _ Hb) as [G2|G2].
        -- exact (NoDup_app_disjoint _ _ a Ndcs G1 G2).
        -- pose proof (Ltcs a (in_or_app _ _ _ (or_introl G1))); lia.
        -- pose proof (Ltcs a (in_or_app _ _ _ (or_intror G2))); lia.
        -- lia.
Qed.






End ReplaceLayersHeapProps.



(** ** The shape of the output of [RLFN_Prune] *)

Lemma broadcast_dim_same (a : nat) : broadcast_dim a a = Ok a.
Proof. unfold broadcast_dim; rewrite Nat.eqb_refl; reflexivity. Qed.

Module ShapesProps.
Import Shapes.

Lemma broadcast_same (s : shape) : broadcast s s = Ok s.
Proof.
  destruct s as [[[n c] h] w]; unfold broadcast.
  rewrite !broadcast_dim_same; reflexivity.
Qed.

Lemma window_out_ok (n k p s : nat) :
  k <= n + 2 * p -> s <> 0 -> window_out n k p s = Ok ((n + 2 * p - k) / s + 1).
Proof.
  intros H1 H2; unfold window_out.
  destruct (Nat.ltb_spec (n + 2 * p) k); [lia|].
  destruct (Nat.eqb_spec s 0); [contradiction | reflexivity].
Qed.

(** A 3x3 convolution with padding 1 and a 1x1 convolution keep the size. *)
Lemma window_same_3 (n : nat) : 1 <= n -> window_out n 3 1 1 = Ok n.
Proof.
  intros H; rewrite window_out_ok by lia.
  rewrite Nat.div_1_r; f_equal; lia.
Qed.

Lemma window_same_1 (n : nat) : 1 <= n -> window_out n 1 0 1 = Ok n.
Proof.
  intros H; rewrite window_out_ok by lia.
  rewrite Nat.div_1_r; f_equal; lia.
Qed.

Lemma conv2d_ok (cv : Conv2d) (n c h w h' w' : nat) :
  in_channels cv <> 0 -> out_channels cv <> 0 -> groups cv <> 0 ->
  c = in_channels cv ->
  in_channels cv mod groups cv = 0 ->
  out_channels cv mod groups cv = 0 ->
  window_out h (fst (ksize cv)) (fst (padding cv)) (stride cv) = Ok h' ->
  window_out w (snd (ksize cv)) (snd (padding cv)) (stride cv) = Ok w' ->
  conv2d cv (n, c, h, w) = Ok (n, out_channels cv, h', w').
Proof.
  intros Zi Zo Zg Hc Hi Ho Hh Hw; unfold conv2d.
  destruct (Nat.eqb_spec (in_channels cv) 0); [contradiction|].
  destruct (Nat.eqb_spec (out_channels cv) 0); [contradiction|].
  destruct (Nat.eqb_spec (groups cv) 0); [contradiction|].
  rewrite Hc, Nat.eqb_refl, Hi, Ho, Hh, Hw; reflexivity.
Qed.

Ltac conv_step :=
  erewrite conv2d_ok;
  [ | discriminate | discriminate | discriminate
    | reflexivity | reflexivity | reflexivity
    | first [apply window_same_3; lia | apply window_same_1; lia
            | apply window_out_ok; cbn [fst snd ksize padding stride]; lia]
    | first [apply window_same_3; lia | apply window_same_1; lia
            | apply window_out_ok; cbn [fst snd ksize padding stride]; lia] ];
  cbn [bind out_channels fst snd ksize padding stride].

Lemma pooled_extent (h : nat) : 15 <= h -> 7 <= (h + 2 * 0 - 3) / 2 + 1.
Proof.
  intros H.
  assert (6 <= (h + 2 * 0 - 3) / 2); [|lia].
  apply Nat.div_le_lower_bound; lia.
Qed.

Lemma ESA_forward_shape (n h w : nat) :
  15 <= h -> 15 <= w ->
  ESA_forward 16 46 (n, 46, h, w) = Ok (n, 46, h, w).
Proof.
  intros Hh Hw.
  pose proof (pooled_extent h Hh) as Ph.
  pose proof (pooled_extent w Hw) as Pw.
  unfold ESA_forward.
  conv_step. conv_step.
  unfold max_pool2d.
  rewrite !window_out_ok by lia; cbn [bind].
  conv_step.
  cbn [interpolate_size].
  conv_step.
  rewrite broadcast_same; cbn [bind].
  conv_step.
  apply broadcast_same.
Qed.

Lemma RLFB_forward_shape (n h w : nat) :
  15 <= h -> 15 <= w ->
  RLFB_forward 46 48 (n, 46, h, w) = Ok (n, 46, h, w).
Proof.
  intros Hh Hw.
  unfold RLFB_forward, conv_layer_depth_wise, conv_layer.
  conv_step. conv_step. conv_step. conv_step.
  rewrite broadcast_same; cbn [bind].
  conv_step.
  apply ESA_forward_shape; assumption.
Qed.

(** C6, for inputs of at least 15x15 with 1 or 3 channels.  With the default
    arguments ([out_channels=3], [upscale=4]) and 1 or 3 input channels,
    [RLFN_Prune.forward] maps every input of shape [(N, in_channels, H, W)]
    with [H >= 15] and [W >= 15] to an output of shape [(N, 3, 4*H, 4*W)]. *)
Theorem RLFN_forward_shape (cin n h w : nat) :
  cin = 1 \/ cin = 3 ->
  15 <= h -> 15 <= w ->
  RLFN_forward (RLFN_default cin) (n, cin, h, w) = Ok (n, 3, 4 * h, 4 * w).
Proof.
  intros Hc Hh Hw.
  unfold RLFN_forward, RLFN_default, pixelshuffle_block, conv_layer.
  cbn [feature_channels mid_channels rl_in_channels rl_out_channels upscale].
  erewrite conv2d_ok;
    [ | cbn [in_channels]; lia | discriminate | discriminate
      | reflexivity | apply Nat.mod_1_r | reflexivity
      | apply window_same_3; lia | apply window_same_3; lia ].
  cbn [bind out_channels fst snd ksize padding stride].
  do 4 (rewrite RLFB_forward_shape by assumption; cbn [bind]).
  conv_step.
  rewrite broadcast_same; cbn [bind].
  conv_step.
  unfold pixel_shuffle, interpolate_scale, broadcast.
  change (4 =? 0) with false.
  change (3 * (4 * 4) mod (4 * 4) =? 0) with true.
  change (3 * (4 * 4) / (4 * 4)) with 3.
  cbn [orb negb bind].
  rewrite !broadcast_dim_same; cbn [bind].
  replace (broadcast_dim 3 cin) with (Ok (A := nat) 3)
    by (destruct Hc; subst; reflexivity).
  cbn [bind]; do 2 f_equal; [f_equal|]; lia.
Qed.

Lemma RLFN_forward_shape_witness :
  RLFN_forward (RLFN_default 3) (1, 3, 64, 48) = Ok (1, 3, 4 * 64, 4 * 48).
Proof. apply (RLFN_forward_shape 3 1 64 48); [right; reflexivity | lia | lia]. Defined.

(** Inputs smaller than 15 in a direction do not get through the attention
    block (stride-2 convolution, then a 7x7 max pooling), and with, say, four
    input channels the final sum with the upsampled input fails. *)
Lemma RLFN_forward_small_input :
  RLFN_forward (RLFN_default 3) (1, 3, 14, 14) = Err RuntimeError /\
  RLFN_forward (RLFN_default 3) (1, 3, 64, 8) = Err RuntimeError /\
  RLFN_forward (RLFN_default 4) (1, 4, 64, 64) = Err RuntimeError.
Proof. split; [|split]; vm_compute; reflexivity. Qed.

End ShapesProps.

(** ** The integral-image branch computes the sliding-window mean *)

Lemma sum_below_ext (f g : nat -> Qc) (n : nat) :
  (forall i, i < n -> f i = g i) -> sum_below f n = sum_below g n.
Proof.
  induction n as [|n IH]; intros H; [reflexivity|].
  cbn [sum_below]; rewrite IH, (H n) by auto with arith; reflexivity.
Qed.

Lemma sum_below_zero (n : nat) : sum_below (fun _ => 0%Qc) n = 0%Qc.
Proof.
  induction n as [|n IH]; [reflexivity|].
  cbn [sum_below]; rewrite IH; ring.
Qed.

Lemma sum_below_plus (f g : nat -> Qc) (n : nat) :
  sum_below (fun i => (f i + g i)%Qc) n = (sum_below f n + sum_below g n)%Qc.
Proof.
  induction n as [|n IH]; cbn [sum_below]; [ring|].
  rewrite IH; ring.
Qed.

Lemma sum_below_split (f : nat -> Qc) (a k : nat) :
  sum_below f (a + k) = (sum_below f a + sum_below (fun d => f (a + d)%nat) k)%Qc.
Proof.
  induction k as [|k IH].
  - rewrite Nat.add_0_r; cbn [sum_below]; ring.
  - rewrite Nat.add_succ_r; cbn [sum_below]; rewrite IH; ring.
Qed.

Lemma prefix_sum_below (f : nat -> Qc) (j : nat) :
  prefix_sum f j = sum_below f (S j).
Proof.
  induction j as [|j IH]; cbn [prefix_sum sum_below].
  - ring.
  - rewrite IH; reflexivity.
Qed.

(** The padded double running sum is the integral image. *)
Lemma integral_image (x : Tensor) (b c a e : nat) :
  a <= dimH x -> e <= dimW x ->
  get (pad_zero 1 0 1 0 (cumsum_h (cumsum_w x))) b c a e = rect_sum x b c a e.
Proof.
  intros Ha He; unfold rect_sum.
  cbn [pad_zero get cumsum_h cumsum_w dimH dimW].
  destruct a as [|a]; [reflexivity|].
  destruct e as [|e]; [cbn [Nat.ltb Nat.leb orb]; rewrite orb_true_r|].
  - symmetry; apply sum_below_zero.
  - destruct (Nat.leb_spec (1 + dimH x) (S a)); [lia|].
    destruct (Nat.leb_spec (1 + dimW x) (S e)); [lia|].
    cbn [Nat.ltb Nat.leb orb].
    rewrite !Nat.sub_succ, !Nat.sub_0_r.
    rewrite prefix_sum_below.
    apply sum_below_ext; intros i _; apply prefix_sum_below.
Qed.

(** Four corners of the integral image give the sum over a window. *)
Lemma four_corners (x : Tensor) (b c i j k1 k2 : nat) :
  (rect_sum x b c (i + k1) (j + k2) + rect_sum x b c i j
   - rect_sum x b c i (j + k2) - rect_sum x b c (i + k1) j)%Qc
  = window_sum x b c i j k1 k2.
Proof.
  unfold rect_sum, window_sum.
  rewrite !(sum_below_split _ i k1).
  rewrite (sum_below_ext
             (fun d => sum_below (fun j0 => get x b c (i + d) j0) (j + k2))
             (fun d => (sum_below (fun j0 => get x b c (i + d) j0) j
                        + sum_below (fun dj => get x b c (i + d) (j + dj)) k2)%Qc) k1)
    by (intros; apply sum_below_split).
  rewrite sum_below_plus.
  ring.
Qed.

(** The two slices that the branch takes along one dimension of the padded
    integral image: [s[:-k]] and [s[k:]]. *)
Lemma py_slice_drop_last (len k : nat) :
  k <= len ->
  py_slice len None (Some (- Z.of_nat k)%Z) 1 = Ok (0, if k =? 0 then 0 else len - k).
Proof.
  intros H; unfold py_slice, slice_bound; cbn [Z.leb Z.compare].
  destruct (Nat.eqb_spec k 0) as [->|Hk].
  - cbn [Z.of_nat Z.opp Z.ltb Z.compare].
    rewrite Z.min_r, Z.max_l by lia; reflexivity.
  - destruct (Z.ltb_spec (- Z.of_nat k) 0); [|lia].
    rewrite Z.min_r, Z.max_r by lia.
    destruct (Z.ltb_spec 0 (- Z.of_nat k + Z.of_nat len)).
    + f_equal; f_equal.
      replace (- Z.of_nat k + Z.of_nat len - 0 + 1 - 1)%Z
        with (Z.of_nat (len - k)) by lia.
      rewrite Z.div_1_r; apply Nat2Z.id.
    + f_equal; f_equal; cbn; lia.
Qed.

Lemma py_slice_drop_first (len k : nat) :
  k <= len ->
  py_slice len (Some (Z.of_nat k)) None 1 = Ok (k, len - k).
Proof.
  intros H; unfold py_slice, slice_bound; cbn [Z.leb Z.compare].
  destruct (Z.ltb_spec (Z.of_nat k) 0); [lia|].
  rewrite Z.min_r, Z.max_r by lia.
  destruct (Z.ltb_spec (Z.of_nat k) (Z.of_nat len)).
  - f_equal; f_equal; [apply Nat2Z.id|].
    replace (Z.of_nat len - Z.of_nat k + 1 - 1)%Z with (Z.of_nat (len - k)) by lia.
    rewrite Z.div_1_r; apply Nat2Z.id.
  - f_equal; f_equal; [apply Nat2Z.id | cbn; lia].
Qed.

Lemma bidx_lt (d i : nat) : i < d -> bidx d i = i.
Proof.
  intros H; unfold bidx.
  destruct (Nat.eqb_spec d 1); [lia | reflexivity].
Qed.

(** Broadcasting between a size and the same size, or between 0 and 1. *)
Lemma broadcast_dim_left (a b : nat) :
  a = b \/ (a = 0 /\ b = 1) -> broadcast_dim a b = Ok a.
Proof. intros [->|[-> ->]]; [apply broadcast_dim_same | reflexivity]. Qed.

Lemma broadcast_dim_right (a b : nat) :
  a = b \/ (a = 0 /\ b = 1) -> broadcast_dim b a = Ok a.
Proof. intros [->|[-> ->]]; [apply broadcast_dim_same | reflexivity]. Qed.

(** What the branch returns, in terms of the padded integral image [s]. *)
Lemma integral_image_pool_eval (x : Tensor) (ks : Z * Z) (k1 k2 : nat) :
  Z.min (Z.of_nat (dimH x)) (fst ks) = Z.of_nat k1 ->
  Z.min (Z.of_nat (dimW x)) (snd ks) = Z.of_nat k2 ->
  (k1 = 0 -> dimH x = 0) -> (k2 = 0 -> dimW x = 0) ->
  let s := pad_zero 1 0 1 0 (cumsum_h (cumsum_w x)) in
  exists out,
    integral_image_pool ks x = Ok out /\
    dimN out = dimN x /\ dimC out = dimC x /\
    dimH out = (if k1 =? 0 then 0 else S (dimH x) - k1) /\
    dimW out = (if k2 =? 0 then 0 else S (dimW x) - k2) /\
    forall b c i j, b < dimN out -> c < dimC out -> i < dimH out -> j < dimW out ->
      get out b c i j =
      ((get s b c (k1 + i) (k2 + j) + get s b c i j
        - get s b c i (k2 + j) - get s b c (k1 + i) j)
       / Z2Qc (Z.of_nat k1 * Z.of_nat k2))%Qc.
Proof.
  intros E1 E2 Z1 Z2 s.
  assert (L1 : k1 <= dimH s) by (cbn; lia).
  assert (L2 : k2 <= dimW s) by (cbn; lia).
  assert (D1 : dimH s = S (dimH x)) by (cbn; lia).
  assert (D2 : dimW s = S (dimW x)) by (cbn; lia).
  unfold integral_image_pool; fold s; cbv zeta.
  rewrite E1, E2.
  unfold slice_hw.
  rewrite !(py_slice_drop_last (dimH s) k1 L1), !(py_slice_drop_last (dimW s) k2 L2).
  rewrite !(py_slice_drop_first (dimH s) k1 L1), !(py_slice_drop_first (dimW s) k2 L2).
  cbn [bind fst snd].
  unfold tensor_add, tensor_sub, tensor_binop; cbn [dimN dimC dimH dimW bind].
  set (a1 := if k1 =? 0 then 0 else dimH s - k1).
  set (a2 := if k2 =? 0 then 0 else dimW s - k2).
  assert (B1 : a1 = dimH s - k1 \/ (a1 = 0 /\ dimH s - k1 = 1)).
  { unfold a1; destruct (Nat.eqb_spec k1 0); [right; split; [reflexivity|]; lia | left; reflexivity]. }
  assert (B2 : a2 = dimW s - k2 \/ (a2 = 0 /\ dimW s - k2 = 1)).
  { unfold a2; destruct (Nat.eqb_spec k2 0); [right; split; [reflexivity|]; lia | left; reflexivity]. }
  repeat (first [ rewrite broadcast_dim_same
                | rewrite (broadcast_dim_right a1 _ B1)
                | rewrite (broadcast_dim_right a2 _ B2)
                | rewrite (broadcast_dim_left a1 _ B1)
                | rewrite (broadcast_dim_left a2 _ B2) ];
          cbn [bind dimN dimC dimH dimW]).
  eexists; split; [reflexivity|].
  cbn [dimN dimC dimH dimW div_scalar get].
  split; [reflexivity|]. split; [reflexivity|].
  split; [unfold a1; rewrite D1; reflexivity|].
  split; [unfold a2; rewrite D2; reflexivity|].
  intros b c i j Hb Hc Hi Hj.
  assert (K1 : k1 <> 0) by (intros ->; unfold a1 in Hi; cbn in Hi; lia).
  assert (K2 : k2 <> 0) by (intros ->; unfold a2 in Hj; cbn in Hj; lia).
  assert (A1 : a1 = dimH s - k1) by (unfold a1; destruct (Nat.eqb_spec k1 0); congruence).
  assert (A2 : a2 = dimW s - k2) by (unfold a2; destruct (Nat.eqb_spec k2 0); congruence).
  rewrite <- A1, <- A2.
  rewrite !(bidx_lt _ b), !(bidx_lt _ c), !(bidx_lt _ i), !(bidx_lt _ j) by assumption.
  change (Z.to_nat 1) with 1; rewrite !Nat.mul_1_r, !Nat.add_0_l.
  reflexivity.
Qed.

(** [forward] once the kernel size in force is known not to cover the input. *)
Lemma forward_sliding (x : Tensor) (s s' : AvgPool2d) (ks : Z * Z) :
  lazy_kernel_size x s = (s', Ok tt) ->
  kernel_size s' = Some ks ->
  ~ ((fst ks >= Z.of_nat (dimH x))%Z /\ (snd ks >= Z.of_nat (dimW x))%Z) ->
  forward x s =
  (s', do out <- (if fast_imp s' then fast_pool s' ks x else integral_image_pool ks x);
       if auto_pad s' then auto_pad_out x out else Ok out).
Proof.
  intros HL HK Hn.
  unfold forward, bindM; rewrite HL.
  unfold read_kernel_size, bindM, self_, ret, lift; rewrite HK.
  destruct (Z.geb_spec (fst ks) (Z.of_nat (dimH x)));
    destruct (Z.geb_spec (snd ks) (Z.of_nat (dimW x)));
    cbn [andb]; try (exfalso; apply Hn; split; lia);
    destruct (if fast_imp s' then _ else _) as [out|e]; cbn [bind]; try reflexivity;
    destruct (auto_pad s'); reflexivity.
Qed.

(** What lines 98-103 return for an [out] without a dimension of size 0 beyond
    the batch. *)
Lemma split_in_halves (d : Z) : (d / 2 + (d + 1) / 2 = d)%Z.
Proof. Z.to_euclidean_division_equations; lia. Qed.

Lemma auto_pad_out_eval (x out : Tensor) :
  dimC out <> 0 -> dimH out <> 0 -> dimW out <> 0 ->
  1 <= dimH x \/ 1 <= dimW x ->
  auto_pad_out x out =
  Ok (mkTensor (dimN out) (dimC out) (dimH x) (dimW x)
        (fun b c i j =>
           get out b c
             (clamp_index (dimH out)
                (Z.of_nat i - (Z.of_nat (dimH x) - Z.of_nat (dimH out)) / 2))
             (clamp_index (dimW out)
                (Z.of_nat j - (Z.of_nat (dimW x) - Z.of_nat (dimW out)) / 2)))).
Proof.
  intros Hc Hh Hw Hx; unfold auto_pad_out, pad_replicate; cbv zeta.
  destruct (Nat.eqb_spec (dimC out) 0); [contradiction|].
  destruct (Nat.eqb_spec (dimH out) 0); [contradiction|].
  destruct (Nat.eqb_spec (dimW out) 0); [contradiction|].
  cbn [orb].
  rewrite <- !Z.add_assoc, !split_in_halves.
  replace (Z.of_nat (dimH out) + (Z.of_nat (dimH x) - Z.of_nat (dimH out)))%Z
    with (Z.of_nat (dimH x)) by lia.
  replace (Z.of_nat (dimW out) + (Z.of_nat (dimW x) - Z.of_nat (dimW out)))%Z
    with (Z.of_nat (dimW x)) by lia.
  destruct (Z.ltb_spec (Z.of_nat (dimH x)) 0); [lia|].
  destruct (Z.ltb_spec (Z.of_nat (dimW x)) 0); [lia|].
  destruct (Z.ltb_spec (Z.of_nat (dimH x)) 1);
    destruct (Z.ltb_spec (Z.of_nat (dimW x)) 1); cbn [orb andb]; try lia;
    rewrite !Nat2Z.id; reflexivity.
Qed.

Lemma auto_pad_out_shape (x out : Tensor) :
  dimC out <> 0 -> dimH out <> 0 -> dimW out <> 0 ->
  1 <= dimH x \/ 1 <= dimW x ->
  exists t, auto_pad_out x out = Ok t /\
            has_shape t (dimN out) (dimC out) (dimH x) (dimW x).
Proof.
  intros Hc Hh Hw Hx.
  rewrite (auto_pad_out_eval x out Hc Hh Hw Hx).
  eexists; split; [reflexivity|].
  unfold has_shape; cbn [dimN dimC dimH dimW]; repeat split.
Qed.

(** C1, for kernel sizes with positive components.  For a kernel size (given,
    or derived in this call) with both components at least 1 that does not
    cover the input, and [fast_imp=False], the integral-image computation of
    [forward] (double running sum, zero padding, four-corner difference,
    division by [k1*k2] with [k1 = min(h, kernel_size[0])] and
    [k2 = min(w, kernel_size[1])]) succeeds and returns, in exact arithmetic,
    the sliding-window mean: same shape, and at every position [(i, j)] the
    mean of [x] over the k1-by-k2 window whose top-left corner is [(i, j)].
    This tensor is the [out] that [forward] reaches line 98 with: [forward]
    returns it as it is when [auto_pad] is false and returns what the
    replicate padding of lines 99-103 makes of it otherwise (an error when
    it has a dimension of size 0 other than the batch); on an input with at
    least one channel, row and column [forward] returns a tensor. *)
Theorem integral_image_pool_is_sliding_mean (x : Tensor) (s s' : AvgPool2d)
    (ks0 ks1 : Z) :
  lazy_kernel_size x s = (s', Ok tt) ->
  kernel_size s' = Some (ks0, ks1) ->
  fast_imp s' = false ->
  (1 <= ks0)%Z -> (1 <= ks1)%Z ->
  ~ ((ks0 >= Z.of_nat (dimH x))%Z /\ (ks1 >= Z.of_nat (dimW x))%Z) ->
  let k1 := Z.to_nat (Z.min (Z.of_nat (dimH x)) ks0) in
  let k2 := Z.to_nat (Z.min (Z.of_nat (dimW x)) ks1) in
  exists out,
    integral_image_pool (ks0, ks1) x = Ok out /\
    tensor_eq out (sliding_mean k1 k2 x) /\
    snd (forward x s) = (if auto_pad s' then auto_pad_out x out else Ok out) /\
    (1 <= dimC x -> 1 <= dimH x -> 1 <= dimW x -> is_ok (snd (forward x s)) = true).
Proof.
  intros HL HK HF P0 P1 Hn k1 k2.
  assert (E1 : Z.min (Z.of_nat (dimH x)) (fst (ks0, ks1)) = Z.of_nat k1)
    by (unfold k1; cbn [fst]; lia).
  assert (E2 : Z.min (Z.of_nat (dimW x)) (snd (ks0, ks1)) = Z.of_nat k2)
    by (unfold k2; cbn [snd]; lia).
  assert (Z1 : k1 = 0 -> dimH x = 0) by (unfold k1; lia).
  assert (Z2 : k2 = 0 -> dimW x = 0) by (unfold k2; lia).
  assert (L1 : k1 <= dimH x) by (unfold k1; lia).
  assert (L2 : k2 <= dimW x) by (unfold k2; lia).
  destruct (integral_image_pool_eval x (ks0, ks1) k1 k2 E1 E2 Z1 Z2)
    as (out & Eout & DN & DC & DH & DW & Hget).
  assert (EF : snd (forward x s) = (if auto_pad s' then auto_pad_out x out else Ok out))
    by (rewrite (forward_sliding x s s' (ks0, ks1) HL HK Hn), HF, Eout; reflexivity).
  exists out; split; [exact Eout|]; split; [|split; [exact EF|]].
  - unfold tensor_eq, sliding_mean; cbn [dimN dimC dimH dimW get].
    split; [exact DN|]. split; [exact DC|].
    split; [rewrite DH; destruct (Nat.eqb_spec k1 0); lia|].
    split; [rewrite DW; destruct (Nat.eqb_spec k2 0); lia|].
    intros b c i j Hb Hc Hi Hj.
    rewrite (Hget b c i j Hb Hc Hi Hj).
    assert (k1 + i <= dimH x) by (rewrite DH in Hi; destruct (Nat.eqb_spec k1 0); lia).
    assert (k2 + j <= dimW x) by (rewrite DW in Hj; destruct (Nat.eqb_spec k2 0); lia).
    rewrite !integral_image by lia.
    rewrite (Nat.add_comm k1 i), (Nat.add_comm k2 j), four_corners.
    rewrite Nat2Z.inj_mul; reflexivity.
  - intros Hc Hh Hw; rewrite EF.
    destruct (auto_pad s'); [|reflexivity].
    destruct (auto_pad_out_shape x out) as (t & Et & _);
      [ lia
      | rewrite DH; destruct (Nat.eqb_spec k1 0); lia
      | rewrite DW; destruct (Nat.eqb_spec k2 0); lia
      | left; exact Hh
      | rewrite Et; reflexivity ].
Qed.

Lemma integral_image_pool_is_sliding_mean_witness :
  let x := tensor_of_list
             [[[[Z2Qc 1; Z2Qc 2; Z2Qc 3]; [Z2Qc 4; Z2Qc 5; Z2Qc 6];
                [Z2Qc 7; Z2Qc 8; Z2Qc 10]]]] in
  exists out,
    integral_image_pool (2, 2)%Z x = Ok out /\
    tensor_eq out (sliding_mean 2 2 x) /\
    snd (forward x (init (Some (2, 2)%Z) None false false None)) = Ok out /\
    (1 <= 1 -> 1 <= 3 -> 1 <= 3 ->
     is_ok (snd (forward x (init (Some (2, 2)%Z) None false false None))) = true).
Proof.
  intros x.
  apply (integral_image_pool_is_sliding_mean x
           (init (Some (2, 2)%Z) None false false None)
           (init (Some (2, 2)%Z) None false false None) 2 2);
    [reflexivity | reflexivity | reflexivity | lia | lia | cbn; lia].
Defined.

(** With a kernel size that has a zero, the slices [s[:-0]] are empty while
    [s[0:]] are not, and the four-corner difference does not broadcast: the
    branch raises.  A base size of 1 on a 64x64 input with
    [train_size=(1, 3, 256, 256)] derives such a kernel size.  With a
    negative component the slices are taken from the other end and the
    branch returns a tensor, which is no mean: for the kernel size
    [(-1, 1)] it holds the input negated. *)
Lemma integral_image_pool_zero_kernel :
  let x := tensor_of_list [[[[Z2Qc 1; Z2Qc 2]]]] in
  let big := mkTensor 1 1 64 64 (fun _ _ _ _ => Z2Qc 1) in
  let s := init None (Some (BS_int 1)) true false (Some [1; 3; 256; 256]%Z) in
  integral_image_pool (0, 1)%Z x = Err RuntimeError /\
  snd (forward x (init (Some (0, 1)%Z) None true false None)) = Err RuntimeError /\
  kernel_size (fst (forward big s)) = Some (0, 0)%Z /\
  snd (forward big s) = Err RuntimeError /\
  exists out,
    integral_image_pool (-1, 1)%Z x = Ok out /\
    has_shape out 1 1 1 2 /\
    get out 0 0 0 0 = Z2Qc (-1) /\ get out 0 0 0 1 = Z2Qc (-2).
Proof.
  cbv zeta; split; [reflexivity | split; [reflexivity | split; [reflexivity|]]].
  split; [reflexivity|].
  eexists; split; [reflexivity|].
  split; [repeat split|].
  split; apply Qc_is_canon; reflexivity.
Qed.

(** ** [auto_pad] restores the spatial size *)

(** [x[:, :, ::r]] along one dimension. *)
Lemma py_slice_stride (len : nat) (r : Z) :
  (1 <= r)%Z ->
  py_slice len None None r = Ok (0, Z.to_nat ((Z.of_nat len + r - 1) / r)).
Proof.
  intros Hr; unfold py_slice, slice_bound.
  destruct (Z.leb_spec r 0); [lia|].
  destruct (Z.ltb_spec 0 (Z.of_nat len)).
  - rewrite Z.sub_0_r; reflexivity.
  - assert (len = 0) by lia; subst len.
    cbn [Z.of_nat]; rewrite Z.add_0_l, Z.div_small by lia; reflexivity.
Qed.

(** The two slices [s[:-k]] and [s[k:]] for a window [k] that is not 0 and
    smaller than the length: both select the same, positive number of
    entries (the first and the last [len - k] for a positive [k], the first
    and the last [min(len, -k)] for a negative one). *)
Lemma py_slice_window (len : nat) (k : Z) :
  1 <= len -> k <> 0%Z -> (k < Z.of_nat len)%Z ->
  exists lo cnt,
    py_slice len None (Some (- k)%Z) 1 = Ok (0, cnt) /\
    py_slice len (Some k) None 1 = Ok (lo, cnt) /\
    1 <= cnt.
Proof.
  intros Hl Hk Hlt.
  exists (Z.to_nat (if (0 <? k)%Z then k else Z.max 0 (Z.of_nat len + k))),
         (Z.to_nat (if (0 <? k)%Z then Z.of_nat len - k else Z.min (Z.of_nat len) (- k))).
  unfold py_slice, slice_bound; cbn [Z.leb Z.compare].
  destruct (Z.ltb_spec 0 k) as [Hp|Hp].
  - destruct (Z.ltb_spec (- k) 0); [|lia].
    destruct (Z.ltb_spec k 0); [lia|].
    rewrite (Z.min_r (Z.of_nat len) (- k + Z.of_nat len)) by lia.
    rewrite (Z.max_r 0 (- k + Z.of_nat len)) by lia.
    rewrite (Z.min_r (Z.of_nat len) k) by lia.
    rewrite (Z.max_r 0 k) by lia.
    destruct (Z.ltb_spec 0 (- k + Z.of_nat len)); [|lia].
    destruct (Z.ltb_spec k (Z.of_nat len)); [|lia].
    rewrite !Z.div_1_r.
    split; [f_equal; f_equal; lia|]. split; [f_equal; f_equal; lia | lia].
  - destruct (Z.ltb_spec (- k) 0); [lia|].
    destruct (Z.ltb_spec k 0); [|lia].
    destruct (Z.ltb_spec 0 (Z.max 0 (Z.min (Z.of_nat len) (- k)))); [|lia].
    destruct (Z.ltb_spec (Z.max 0 (Z.min (Z.of_nat len) (k + Z.of_nat len)))
                (Z.of_nat len)); [|lia].
    rewrite !Z.div_1_r.
    split; [f_equal; f_equal; lia|]. split; [f_equal; f_equal; lia | lia].
Qed.

(** The four corner slices of lines 87 and 94 have one and the same shape. *)
Lemma window_slices (s : Tensor) (k1 k2 : Z) :
  1 <= dimH s -> 1 <= dimW s ->
  k1 <> 0%Z -> (k1 < Z.of_nat (dimH s))%Z ->
  k2 <> 0%Z -> (k2 < Z.of_nat (dimW s))%Z ->
  exists c1 c2 s1 s2 s3 s4,
    1 <= c1 /\ 1 <= c2 /\
    slice_hw None (Some (- k1)%Z) 1 None (Some (- k2)%Z) 1 s = Ok s1 /\
    slice_hw None (Some (- k1)%Z) 1 (Some k2) None 1 s = Ok s2 /\
    slice_hw (Some k1) None 1 None (Some (- k2)%Z) 1 s = Ok s3 /\
    slice_hw (Some k1) None 1 (Some k2) None 1 s = Ok s4 /\
    has_shape s1 (dimN s) (dimC s) c1 c2 /\
    has_shape s2 (dimN s) (dimC s) c1 c2 /\
    has_shape s3 (dimN s) (dimC s) c1 c2 /\
    has_shape s4 (dimN s) (dimC s) c1 c2.
Proof.
  intros Hh Hw K1 L1 K2 L2.
  destruct (py_slice_window (dimH s) k1 Hh K1 L1) as (lo1 & c1 & A1 & B1 & C1).
  destruct (py_slice_window (dimW s) k2 Hw K2 L2) as (lo2 & c2 & A2 & B2 & C2).
  exists c1, c2; unfold slice_hw; rewrite A1, A2, B1, B2; cbn [bind fst snd].
  do 4 eexists.
  split; [exact C1|]. split; [exact C2|].
  do 4 (split; [reflexivity|]).
  unfold has_shape; cbn [dimN dimC dimH dimW]; repeat split.
Qed.

Lemma tensor_binop_same (op : Qc -> Qc -> Qc) (a b : Tensor) (n c h w : nat) :
  has_shape a n c h w -> has_shape b n c h w ->
  exists t, tensor_binop op a b = Ok t /\ has_shape t n c h w.
Proof.
  intros (A1 & A2 & A3 & A4) (B1 & B2 & B3 & B4).
  unfold tensor_binop; rewrite A1, A2, A3, A4, B1, B2, B3, B4.
  rewrite !broadcast_dim_same; cbn [bind].
  eexists; split; [reflexivity|].
  unfold has_shape; cbn [dimN dimC dimH dimW]; repeat split.
Qed.

Lemma fast_pool_shape (s : AvgPool2d) (ks : Z * Z) (x : Tensor) :
  fast_imp s = true ->
  ~ ((fst ks >= Z.of_nat (dimH x))%Z /\ (snd ks >= Z.of_nat (dimW x))%Z) ->
  1 <= dimC x -> 1 <= dimH x -> 1 <= dimW x ->
  windows_nonzero s ks x ->
  exists out, fast_pool s ks x = Ok out /\
              dimN out = dimN x /\ dimC out = dimC x /\
              dimH out <> 0 /\ dimW out <> 0.
Proof.
  intros HF Hn Hc Hh Hw HW.
  unfold windows_nonzero in HW; rewrite HF in HW.
  destruct HW as (r1 & r2 & S1 & S2 & R1 & R2 & W1 & W2).
  unfold fast_pool.
  replace ((fst ks >=? Z.of_nat (dimH x))%Z && (snd ks >=? Z.of_nat (dimW x))%Z)
    with false
    by (destruct (Z.geb_spec (fst ks) (Z.of_nat (dimH x)));
        destruct (Z.geb_spec (snd ks) (Z.of_nat (dimW x)));
        cbn [andb]; try reflexivity; exfalso; apply Hn; split; lia).
  rewrite S1, S2; cbn [bind].
  set (q1 := Z.min (max_r1 s) r1) in *; set (q2 := Z.min (max_r2 s) r2) in *.
  unfold slice_hw at 1.
  rewrite (py_slice_stride (dimH x) q1 R1), (py_slice_stride (dimW x) q2 R2).
  cbn [bind fst snd].
  match goal with
  | |- context [cumsum_h (cumsum_w ?t)] => set (xs := t)
  end.
  set (sm := cumsum_h (cumsum_w xs)).
  assert (Eh : Z.of_nat (dimH sm) = ((Z.of_nat (dimH x) + q1 - 1) / q1)%Z)
    by (cbn [sm xs cumsum_h cumsum_w dimH]; apply Z2Nat.id; apply Z.div_pos; lia).
  assert (Ew : Z.of_nat (dimW sm) = ((Z.of_nat (dimW x) + q2 - 1) / q2)%Z)
    by (cbn [sm xs cumsum_h cumsum_w dimW]; apply Z2Nat.id; apply Z.div_pos; lia).
  assert (Ph : (1 <= (Z.of_nat (dimH x) + q1 - 1) / q1)%Z)
    by (apply Z.div_le_lower_bound; lia).
  assert (Pw : (1 <= (Z.of_nat (dimW x) + q2 - 1) / q2)%Z)
    by (apply Z.div_le_lower_bound; lia).
  rewrite Eh, Ew in *.
  set (k1 := Z.min ((Z.of_nat (dimH x) + q1 - 1) / q1 - 1) (fst ks / q1)) in *.
  set (k2 := Z.min ((Z.of_nat (dimW x) + q2 - 1) / q2 - 1) (snd ks / q2)) in *.
  destruct (window_slices sm k1 k2) as
    (c1 & c2 & s1 & s2 & s3 & s4 & C1 & C2 & E1 & E2 & E3 & E4 & H1 & H2 & H3 & H4);
    try lia.
  rewrite E1, E2, E3, E4; cbn [bind].
  unfold tensor_sub, tensor_add.
  destruct (tensor_binop_same Qcminus s1 s2 _ _ _ _ H1 H2) as (a & Ea & Ha).
  rewrite Ea; cbn [bind].
  destruct (tensor_binop_same Qcminus a s3 _ _ _ _ Ha H3) as (b & Eb & Hb).
  rewrite Eb; cbn [bind].
  destruct (tensor_binop_same Qcplus b s4 _ _ _ _ Hb H4) as (o & Eo & (O1 & O2 & O3 & O4)).
  rewrite Eo; cbn [bind].
  unfold interpolate_nearest; cbn [div_scalar dimN dimC dimH dimW].
  rewrite O2, O3, O4.
  change (dimC sm) with (dimC x).
  destruct (Nat.eqb_spec (dimC x) 0); [lia|].
  destruct (Nat.eqb_spec c1 0); [lia|].
  destruct (Nat.eqb_spec c2 0); [lia|].
  destruct (Z.leb_spec q1 0); [lia|].
  destruct (Z.leb_spec q2 0); [lia|].
  cbn [orb]; eexists; split; [reflexivity|].
  cbn [dimN dimC dimH dimW].
  split; [exact O1|]. split; [reflexivity|]. split; nia.
Qed.

Lemma integral_image_pool_shape (ks : Z * Z) (x : Tensor) :
  Z.min (Z.of_nat (dimH x)) (fst ks) <> 0%Z ->
  Z.min (Z.of_nat (dimW x)) (snd ks) <> 0%Z ->
  exists out, integral_image_pool ks x = Ok out /\
              dimN out = dimN x /\ dimC out = dimC x /\
              dimH out <> 0 /\ dimW out <> 0.
Proof.
  intros K1 K2.
  unfold integral_image_pool; cbv zeta.
  set (sm := pad_zero 1 0 1 0 (cumsum_h (cumsum_w x))).
  set (k1 := Z.min (Z.of_nat (dimH x)) (fst ks)) in *.
  set (k2 := Z.min (Z.of_nat (dimW x)) (snd ks)) in *.
  assert (Dh : dimH sm = S (dimH x)) by (cbn; lia).
  assert (Dw : dimW sm = S (dimW x)) by (cbn; lia).
  destruct (window_slices sm k1 k2) as
    (c1 & c2 & s1 & s2 & s3 & s4 & C1 & C2 & E1 & E2 & E3 & E4 & H1 & H2 & H3 & H4);
    try lia.
  rewrite E1, E2, E3, E4; cbn [bind].
  unfold tensor_sub, tensor_add.
  destruct (tensor_binop_same Qcplus s4 s1 _ _ _ _ H4 H1) as (a & Ea & Ha).
  rewrite Ea; cbn [bind].
  destruct (tensor_binop_same Qcminus a s2 _ _ _ _ Ha H2) as (b & Eb & Hb).
  rewrite Eb; cbn [bind].
  destruct (tensor_binop_same Qcminus b s3 _ _ _ _ Hb H3) as (o & Eo & (O1 & O2 & O3 & O4)).
  rewrite Eo; cbn [bind].
  eexists; split; [reflexivity|].
  cbn [div_scalar dimN dimC dimH dimW].
  split; [exact O1|]. split; [exact O2|]. split; lia.
Qed.

(** C10, for an input with at least one channel, row and column and
    effective windows that are not 0 ([windows_nonzero]).  When [forward]
    takes a sliding-window branch on such an input with [auto_pad=True], it
    returns a tensor with the batch size, channels, height and width of the
    input. *)
Theorem forward_keeps_spatial_size (x : Tensor) (s s' : AvgPool2d) (ks : Z * Z) :
  lazy_kernel_size x s = (s', Ok tt) ->
  kernel_size s' = Some ks ->
  auto_pad s' = true ->
  ~ ((fst ks >= Z.of_nat (dimH x))%Z /\ (snd ks >= Z.of_nat (dimW x))%Z) ->
  1 <= dimC x -> 1 <= dimH x -> 1 <= dimW x ->
  windows_nonzero s' ks x ->
  exists out, snd (forward x s) = Ok out /\
              has_shape out (dimN x) (dimC x) (dimH x) (dimW x).
Proof.
  intros HL HK HA Hn Hc Hh Hw HW.
  rewrite (forward_sliding x s s' ks HL HK Hn), HA; cbn [snd].
  assert (E : exists out,
             (if fast_imp s' then fast_pool s' ks x else integral_image_pool ks x) = Ok out /\
             dimN out = dimN x /\ dimC out = dimC x /\ dimH out <> 0 /\ dimW out <> 0).
  { destruct (fast_imp s') eqn:HF.
    - apply fast_pool_shape; assumption.
    - unfold windows_nonzero in HW; rewrite HF in HW; destruct HW.
      apply integral_image_pool_shape; assumption. }
  destruct E as (out & E & DN & DC & DH & DW).
  rewrite E; cbn [bind].
  destruct (auto_pad_out_shape x out) as (t & Et & St);
    [lia | exact DH | exact DW | left; exact Hh |].
  exists t; split; [exact Et|].
  rewrite <- DN, <- DC; exact St.
Qed.

Lemma forward_keeps_spatial_size_witness :
  let x := mkTensor 1 2 10 12 (fun _ c i j => Z2Qc (Z.of_nat (c + i * j))) in
  (exists out,
     snd (forward x (init (Some (3, 4)%Z) None true false None)) = Ok out /\
     has_shape out 1 2 10 12) /\
  (exists out,
     snd (forward x (init (Some (6, 7)%Z) None true true None)) = Ok out /\
     has_shape out 1 2 10 12) /\
  (exists out,
     snd (forward x (init (Some (-2, -20)%Z) None true false None)) = Ok out /\
     has_shape out 1 2 10 12).
Proof.
  intros x; split; [|split].
  - apply (forward_keeps_spatial_size x
             (init (Some (3, 4)%Z) None true false None)
             (init (Some (3, 4)%Z) None true false None) (3, 4)%Z);
      try reflexivity; cbn; lia.
  - apply (forward_keeps_spatial_size x
             (init (Some (6, 7)%Z) None true true None)
             (init (Some (6, 7)%Z) None true true None) (6, 7)%Z);
      try reflexivity; try (cbn; lia).
    exists 5%Z, 4%Z; cbn; repeat split; lia.
  - apply (forward_keeps_spatial_size x
             (init (Some (-2, -20)%Z) None true false None)
             (init (Some (-2, -20)%Z) None true false None) (-2, -20)%Z);
      try reflexivity; cbn; lia.
Defined.

(** The subsampled branch with a kernel size below the subsampling rate: on a
    10x10 input the rate is 5, [k1 = k2 = min(1, 4 // 5) = 0], the slices
    [s[:-0]] are empty while [s[0:]] are not, and the four-corner difference
    does not broadcast.  The integral-image branch fails the same way on a
    kernel size with a zero.  An input with an empty plane leaves nothing to
    replicate, and replicate padding rejects an input without channels. *)
Lemma forward_sliding_can_raise :
  let x := mkTensor 1 1 10 10 (fun _ _ i j => Z2Qc (Z.of_nat (i * 10 + j))) in
  let e := mkTensor 1 1 0 5 (fun _ _ _ _ => Z2Qc 0) in
  let z := mkTensor 1 0 5 5 (fun _ _ _ _ => Z2Qc 0) in
  snd (forward x (init (Some (4, 4)%Z) None true true None)) = Err RuntimeError /\
  snd (forward x (init (Some (0, 4)%Z) None true false None)) = Err RuntimeError /\
  snd (forward e (init (Some (1, 1)%Z) None true false None)) = Err RuntimeError /\
  snd (forward z (init (Some (2, 2)%Z) None true false None)) = Err RuntimeError.
Proof. cbv zeta; split; [reflexivity | split; [reflexivity | split; reflexivity]]. Qed.

(** ** [UnPixelShuffle] *)

Lemma mapM_ok {A B : Type} (f : A -> result B) (l : list A) :
  (forall a, In a l -> exists b, f a = Ok b) ->
  exists bs, mapM f l = Ok bs /\
             List.length bs = List.length l /\
             forall k a, nth_error l k = Some a ->
               exists b, nth_error bs k = Some b /\ f a = Ok b.
Proof.
  induction l as [|a l IH]; intros H.
  - exists []; split; [reflexivity|]; split; [reflexivity|].
    intros [|k] a Hk; discriminate.
  - destruct (H a (or_introl eq_refl)) as [b Hb].
    destruct (IH (fun a' Ha' => H a' (or_intror Ha'))) as (bs & E & L & N).
    exists (b :: bs); cbn [mapM]; rewrite Hb, E; cbn [bind].
    split; [reflexivity|]; split; [cbn; rewrite L; reflexivity|].
    intros [|k] a' Hk; cbn in Hk.
    + inversion Hk; subst; exists b; split; [reflexivity | exact Hb].
    + exact (N k a' Hk).
Qed.

Lemma flat_map_length_uniform {A B : Type} (f : A -> list B) (m : nat) (l : list A) :
  (forall a, List.length (f a) = m) ->
  List.length (flat_map f l) = List.length l * m.
Proof.
  intros H; induction l as [|a l IH]; [reflexivity|].
  cbn [flat_map List.length]; rewrite length_app, H, IH; reflexivity.
Qed.

(** Position [a*m + b] of the concatenation of blocks of length [m]. *)
Lemma flat_map_nth_error {A B : Type} (f : A -> list B) (m : nat) (l : list A)
    (a b : nat) (x : A) :
  (forall y, List.length (f y) = m) ->
  nth_error l a = Some x -> b < m ->
  nth_error (flat_map f l) (a * m + b) = nth_error (f x) b.
Proof.
  intros H; revert a; induction l as [|y l IH]; intros a Ha Hb.
  - destruct a; discriminate.
  - cbn [flat_map]; destruct a as [|a].
    + cbn in Ha; inversion Ha; subst.
      cbn [Nat.mul Nat.add]; apply nth_error_app1; rewrite H; exact Hb.
    + cbn in Ha.
      rewrite nth_error_app2 by (rewrite H; cbn; lia).
      rewrite H; replace (S a * m + b - m) with (a * m + b) by (cbn; lia).
      apply IH; assumption.
Qed.

Lemma py_range_length (n : Z) : List.length (py_range n) = Z.to_nat n.
Proof. unfold py_range; rewrite length_map, length_seq; reflexivity. Qed.

Lemma py_range_nth_error (n : Z) (i : nat) :
  i < Z.to_nat n -> nth_error (py_range n) i = Some (Z.of_nat i).
Proof.
  intros H; unfold py_range.
  rewrite nth_error_map, nth_error_seq.
  destruct (Nat.ltb_spec i (Z.to_nat n)); [reflexivity | lia].
Qed.

Lemma py_range_In (n k : Z) : In k (py_range n) -> (0 <= k < n)%Z.
Proof.
  unfold py_range; rewrite in_map_iff; intros (i & <- & Hi).
  apply in_seq in Hi; lia.
Qed.

(** [seq[i:len:r]] on a sequence of [q*r] elements, for an offset [i < r]. *)
Lemma py_slice_chunk (q rn i : nat) :
  1 <= rn -> i < rn ->
  exists lo,
    py_slice (q * rn) (Some (Z.of_nat i)) (Some (Z.of_nat (q * rn))) (Z.of_nat rn)
    = Ok (lo, q) /\ (1 <= q -> lo = i).
Proof.
  intros Hr Hi; unfold py_slice, slice_bound.
  destruct (Z.leb_spec (Z.of_nat rn) 0); [lia|].
  destruct (Z.ltb_spec (Z.of_nat i) 0); [lia|].
  destruct (Z.ltb_spec (Z.of_nat (q * rn)) 0); [lia|].
  rewrite (Z.min_id (Z.of_nat (q * rn))), (Z.max_r 0 (Z.of_nat (q * rn))) by lia.
  destruct q as [|q].
  - cbn [Nat.mul Z.of_nat].
    rewrite Z.min_l, Z.max_l by lia.
    exists 0; split; [reflexivity | lia].
  - assert (Z.of_nat i < Z.of_nat (S q * rn))%Z by nia.
    rewrite Z.min_r, Z.max_r by lia.
    destruct (Z.ltb_spec (Z.of_nat i) (Z.of_nat (S q * rn))); [|lia].
    exists i; split; [|reflexivity].
    rewrite Nat2Z.id; do 2 f_equal.
    rewrite <- (Nat2Z.id (S q)) at 2; f_equal.
    symmetry; apply (Z.div_unique _ _ _ (Z.of_nat (rn - 1 - i))); [lia|nia].
Qed.

(** One entry of [chunk_list]: the sub-grid of offset [(i, j)] and step [r]. *)
Lemma chunk_spec (x : Tensor) (rn H W i j : nat) :
  1 <= rn -> dimH x = H * rn -> dimW x = W * rn -> i < rn -> j < rn ->
  exists t,
    slice_hw (Some (Z.of_nat i)) (Some (Z.of_nat (dimH x))) (Z.of_nat rn)
             (Some (Z.of_nat j)) (Some (Z.of_nat (dimW x))) (Z.of_nat rn) x = Ok t /\
    has_shape t (dimN x) (dimC x) H W /\
    forall b c y u, y < H -> u < W ->
      get t b c y u = get x b c (i + y * rn) (j + u * rn).
Proof.
  intros Hr EH EW Hi Hj; unfold slice_hw; rewrite EH, EW.
  destruct (py_slice_chunk H rn i Hr Hi) as (lo1 & E1 & P1).
  destruct (py_slice_chunk W rn j Hr Hj) as (lo2 & E2 & P2).
  rewrite E1, E2; cbn [bind fst snd].
  eexists; split; [reflexivity|].
  split; [repeat split|].
  intros b c y u Hy Hu; cbn [get].
  rewrite Nat2Z.id, P1, P2 by lia; reflexivity.
Qed.

(** Channels of a concatenation of tensors with [C] channels each. *)
Lemma cat_get_uniform (C : nat) (ts : list Tensor) :
  (forall t, In t ts -> dimC t = C) ->
  forall k c t b i j, nth_error ts k = Some t -> c < C ->
    cat_get ts b (k * C + c) i j = get t b c i j.
Proof.
  induction ts as [|t0 ts IH]; intros HC k c t b i j Hk Hc.
  - destruct k; discriminate.
  - cbn [cat_get]; rewrite (HC t0 (or_introl eq_refl)).
    destruct k as [|k]; cbn in Hk.
    + inversion Hk; subst.
      cbn [Nat.mul Nat.add].
      destruct (Nat.ltb_spec c C); [reflexivity | lia].
    + destruct (Nat.ltb_spec (S k * C + c) C); [cbn in *; lia|].
      replace (S k * C + c - C) with (k * C + c) by (cbn; lia).
      apply IH; [intros t' Ht'; apply HC; right; exact Ht' | exact Hk | exact Hc].
Qed.

Lemma list_sum_uniform (C : nat) (ts : list Tensor) :
  (forall t, In t ts -> dimC t = C) ->
  list_sum (map dimC ts) = List.length ts * C.
Proof.
  induction ts as [|t ts IH]; intros HC; [reflexivity|].
  change (list_sum (map dimC (t :: ts))) with (dimC t + list_sum (map dimC ts)).
  rewrite IH by (intros t' Ht'; apply HC; right; exact Ht').
  rewrite (HC t (or_introl eq_refl)); reflexivity.
Qed.

Lemma cat_dim1_uniform (N C H W : nat) (ts : list Tensor) :
  ts <> [] ->
  (forall t, In t ts -> has_shape t N C H W) ->
  exists xc, cat_dim1 ts = Ok xc /\
             has_shape xc N (List.length ts * C) H W /\
             get xc = cat_get ts.
Proof.
  intros Hne HS; destruct ts as [|t0 ts]; [contradiction|].
  unfold cat_dim1.
  assert (F : forallb (same_outer t0) ts = true).
  { apply forallb_forall; intros t Ht.
    destruct (HS t0 (or_introl eq_refl)) as (A1 & _ & A3 & A4).
    destruct (HS t (or_intror Ht)) as (B1 & _ & B3 & B4).
    unfold same_outer; rewrite A1, A3, A4, B1, B3, B4, !Nat.eqb_refl; reflexivity. }
  rewrite F; eexists; split; [reflexivity|].
  destruct (HS t0 (or_introl eq_refl)) as (A1 & _ & A3 & A4).
  split; [|reflexivity].
  unfold has_shape; cbn [dimN dimC dimH dimW].
  pose proof (list_sum_uniform C (t0 :: ts)
                (fun t Ht => proj1 (proj2 (HS t Ht)))) as LS.
  rewrite LS; auto.
Qed.

Lemma offsets_nth_error (r : Z) (i j : nat) :
  i < Z.to_nat r -> j < Z.to_nat r ->
  nth_error (flat_map (fun i => map (fun j => (i, j)) (py_range r)) (py_range r))
            (i * Z.to_nat r + j)
  = Some (Z.of_nat i, Z.of_nat j).
Proof.
  intros Hi Hj.
  rewrite (flat_map_nth_error _ (Z.to_nat r) _ i j (Z.of_nat i));
    [ | intros y; rewrite length_map; apply py_range_length
      | apply py_range_nth_error; exact Hi | exact Hj ].
  rewrite nth_error_map, (py_range_nth_error r j Hj); reflexivity.
Qed.

Lemma offsets_In (r : Z) (a : Z * Z) :
  In a (flat_map (fun i => map (fun j => (i, j)) (py_range r)) (py_range r)) ->
  exists i j, i < Z.to_nat r /\ j < Z.to_nat r /\ a = (Z.of_nat i, Z.of_nat j).
Proof.
  rewrite in_flat_map; intros (zi & Hzi & Ha).
  rewrite in_map_iff in Ha; destruct Ha as (zj & <- & Hzj).
  apply py_range_In in Hzi; apply py_range_In in Hzj.
  exists (Z.to_nat zi), (Z.to_nat zj).
  rewrite !Z2Nat.id by lia; repeat split; lia.
Qed.

Lemma gather_index_length (r C : Z) :
  List.length (gather_index r C) = Z.to_nat C * Z.to_nat (r * r).
Proof.
  unfold gather_index.
  rewrite (flat_map_length_uniform _ (Z.to_nat (r * r)))
    by (intros a; rewrite length_map; apply py_range_length).
  rewrite py_range_length; reflexivity.
Qed.

Lemma gather_index_nth (r C : Z) (c k : nat) :
  c < Z.to_nat C -> k < Z.to_nat (r * r) ->
  nth (c * Z.to_nat (r * r) + k) (gather_index r C) 0%Z
  = (Z.of_nat c + Z.of_nat k * C)%Z.
Proof.
  intros Hc Hk; apply nth_error_nth; unfold gather_index.
  rewrite (flat_map_nth_error _ (Z.to_nat (r * r)) _ c k (Z.of_nat c));
    [ | intros y; rewrite length_map; apply py_range_length
      | apply py_range_nth_error; exact Hc | exact Hk ].
  rewrite nth_error_map, (py_range_nth_error _ k Hk); reflexivity.
Qed.

Lemma gather_index_In (r C k : Z) :
  In k (gather_index r C) -> (0 <= k < r * r * C)%Z.
Proof.
  unfold gather_index; rewrite in_flat_map; intros (i & Hi & Hk).
  rewrite in_map_iff in Hk; destruct Hk as (j & <- & Hj).
  apply py_range_In in Hi; apply py_range_In in Hj; nia.
Qed.

(** What [UnPixelShuffle.forward] returns on an input whose height and width
    are multiples of the factor. *)
Lemma UnPixelShuffle_eval (rn : nat) (x : Tensor) (H W : nat) :
  1 <= rn -> dimH x = H * rn -> dimW x = W * rn ->
  exists out,
    UnPixelShuffle_forward (Z.of_nat rn) x = Ok out /\
    has_shape out (dimN x) (dimC x * (rn * rn)) H W /\
    forall b c i j y u,
      c < dimC x -> i < rn -> j < rn -> y < H -> u < W ->
      get out b (c * (rn * rn) + (i * rn + j)) y u
      = get x b c (y * rn + i) (u * rn + j).
Proof.
  intros Hr EH EW.
  set (r := Z.of_nat rn).
  assert (Er : Z.to_nat r = rn) by apply Nat2Z.id.
  assert (Err : Z.to_nat (r * r) = rn * rn) by (unfold r; lia).
  unfold UnPixelShuffle_forward, chunk_list; fold r.
  set (offsets := flat_map (fun i => map (fun j => (i, j)) (py_range r)) (py_range r)).
  set (f := fun ij : Z * Z =>
              slice_hw (Some (fst ij)) (Some (Z.of_nat (dimH x))) r
                       (Some (snd ij)) (Some (Z.of_nat (dimW x))) r x).
  assert (Hf : forall i j, i < rn -> j < rn ->
             exists t, f (Z.of_nat i, Z.of_nat j) = Ok t /\
               has_shape t (dimN x) (dimC x) H W /\
               forall b c y u, y < H -> u < W ->
                 get t b c y u = get x b c (i + y * rn) (j + u * rn)).
  { intros i j Hi Hj; exact (chunk_spec x rn H W i j Hr EH EW Hi Hj). }
  destruct (mapM_ok f offsets) as (cs & Ecs & Lcs & Ncs).
  { intros a Ha; destruct (offsets_In r a Ha) as (i & j & Hi & Hj & ->).
    rewrite Er in Hi, Hj.
    destruct (Hf i j Hi Hj) as (t & Et & _); exists t; exact Et. }
  assert (Loff : List.length offsets = rn * rn).
  { unfold offsets.
    rewrite (flat_map_length_uniform _ rn)
      by (intros a; rewrite length_map, py_range_length; exact Er).
    rewrite py_range_length, Er; reflexivity. }
  assert (Hcs : forall t, In t cs -> has_shape t (dimN x) (dimC x) H W).
  { intros t Ht; destruct (In_nth_error _ _ Ht) as [k Hk].
    assert (Hlt : k < List.length offsets).
    { rewrite <- Lcs; apply nth_error_Some; congruence. }
    destruct (nth_error offsets k) as [a|] eqn:Ea;
      [|apply nth_error_None in Ea; lia].
    destruct (Ncs k a Ea) as (t' & Et' & Ft').
    assert (t' = t) by congruence; subst t'.
    destruct (offsets_In r a (nth_error_In _ _ Ea)) as (i & j & Hi & Hj & ->).
    rewrite Er in Hi, Hj.
    destruct (Hf i j Hi Hj) as (t' & Et & St & _).
    assert (t' = t) by congruence; subst t'; exact St. }
  rewrite Ecs; cbn [bind].
  destruct (cat_dim1_uniform (dimN x) (dimC x) H W cs) as (xc & Exc & Sxc & Gxc);
    [intros ->; cbn in Lcs; nia | exact Hcs |].
  rewrite Exc; cbn [bind].
  destruct Sxc as (XN & XC & XH & XW).
  unfold floordiv.
  destruct (Z.eqb_spec r 0); [unfold r in *; lia|].
  cbn [bind].
  assert (QH : Z.to_nat (Z.of_nat (dimH x) / r) = H).
  { rewrite EH, Nat2Z.inj_mul; fold r; rewrite Z.div_mul by assumption; apply Nat2Z.id. }
  assert (QW : Z.to_nat (Z.of_nat (dimW x) / r) = W).
  { rewrite EW, Nat2Z.inj_mul; fold r; rewrite Z.div_mul by assumption; apply Nat2Z.id. }
  rewrite QH, QW.
  unfold gather_dim1.
  rewrite XN, XH, XW, XC, !Nat.leb_refl; cbn [andb].
  assert (F : forallb (fun k => (0 <=? k)%Z && (k <? Z.of_nat (List.length cs * dimC x))%Z)
                (gather_index r (Z.of_nat (dimC x))) = true).
  { apply forallb_forall; intros k Hk.
    apply gather_index_In in Hk.
    apply andb_true_intro; split; [apply Z.leb_le; lia|].
    apply Z.ltb_lt; rewrite Lcs, Loff; unfold r in *; nia. }
  rewrite F.
  eexists; split; [reflexivity|].
  split.
  { unfold has_shape; cbn [dimN dimC dimH dimW].
    rewrite gather_index_length, Nat2Z.id, Err; auto. }
  intros b c i j y u Hc Hi Hj Hy Hu; cbn [get].
  assert (Hk : i * rn + j < rn * rn) by nia.
  rewrite <- Err at 1.
  rewrite (gather_index_nth r (Z.of_nat (dimC x)) c (i * rn + j))
    by (rewrite ?Nat2Z.id, ?Err; assumption).
  replace (Z.to_nat (Z.of_nat c + Z.of_nat (i * rn + j) * Z.of_nat (dimC x)))
    with ((i * rn + j) * dimC x + c) by lia.
  rewrite Gxc.
  pose proof (offsets_nth_error r i j) as Eo; rewrite Er in Eo.
  specialize (Eo Hi Hj); fold offsets in Eo.
  destruct (Ncs _ _ Eo) as (t & Et & Ft).
  rewrite (cat_get_uniform (dimC x) cs (fun t' Ht' => proj1 (proj2 (Hcs t' Ht')))
             (i * rn + j) c t b y u Et Hc).
  destruct (Hf i j Hi Hj) as (t' & Et' & _ & Gt').
  assert (t' = t) by congruence; subst t'.
  rewrite (Gt' b c y u Hy Hu).
  f_equal; lia.
Qed.

(** Every channel index below [C*r^2] is [c*r^2 + (i*r + j)] for exactly one
    [(c, i, j)] with [c < C] and [i, j < r]. *)
Lemma channel_split (C rn m : nat) :
  1 <= rn -> m < C * (rn * rn) ->
  exists c i j, c < C /\ i < rn /\ j < rn /\ m = c * (rn * rn) + (i * rn + j).
Proof.
  intros Hr Hm.
  exists (m / (rn * rn)), (m mod (rn * rn) / rn), (m mod (rn * rn) mod rn).
  assert (Hrr : rn * rn <> 0) by nia.
  assert (Hr0 : rn <> 0) by lia.
  pose proof (Nat.div_mod_eq m (rn * rn)) as E1.
  pose proof (Nat.mod_upper_bound m (rn * rn) Hrr) as B1.
  pose proof (Nat.div_mod_eq (m mod (rn * rn)) rn) as E2.
  pose proof (Nat.mod_upper_bound (m mod (rn * rn)) rn Hr0) as B2.
  repeat split.
  - apply Nat.Div0.div_lt_upper_bound; lia.
  - apply Nat.Div0.div_lt_upper_bound; lia.
  - exact B2.
  - lia.
Qed.

Lemma channel_split_unique (rn c i j c' i' j' : nat) :
  i < rn -> j < rn -> i' < rn -> j' < rn ->
  c * (rn * rn) + (i * rn + j) = c' * (rn * rn) + (i' * rn + j') ->
  c = c' /\ i = i' /\ j = j'.
Proof.
  intros Hi Hj Hi' Hj' E.
  assert (i * rn + j < rn * rn) by nia.
  assert (i' * rn + j' < rn * rn) by nia.
  assert (c = c') by nia; subst c'.
  assert (i = i') by nia; subst i'.
  repeat split; lia.
Qed.

(** C4. For a factor [r >= 1] and an input of shape [(N, C, H*r, W*r)],
    [UnPixelShuffle(r).forward] returns a tensor of shape [(N, C*r^2, H, W)]
    whose channel [c*r^2 + (i*r + j)] holds, at [(y, x)], the input entry of
    channel [c] at [(y*r + i, x*r + j)].  Every output channel is of that form
    for exactly one [(c, i, j)], so no entry is lost or repeated. *)
Theorem UnPixelShuffle_rearranges (r : Z) (x : Tensor) (N C H W : nat) :
  (1 <= r)%Z ->
  has_shape x N C (H * Z.to_nat r) (W * Z.to_nat r) ->
  exists out,
    UnPixelShuffle_forward r x = Ok out /\
    has_shape out N (C * (Z.to_nat r * Z.to_nat r)) H W /\
    (forall b c i j y u,
       b < N -> c < C -> i < Z.to_nat r -> j < Z.to_nat r -> y < H -> u < W ->
       get out b (c * (Z.to_nat r * Z.to_nat r) + (i * Z.to_nat r + j)) y u
       = get x b c (y * Z.to_nat r + i) (u * Z.to_nat r + j)) /\
    (forall m, m < C * (Z.to_nat r * Z.to_nat r) ->
       exists c i j, c < C /\ i < Z.to_nat r /\ j < Z.to_nat r /\
         m = c * (Z.to_nat r * Z.to_nat r) + (i * Z.to_nat r + j)) /\
    (forall c i j c' i' j',
       i < Z.to_nat r -> j < Z.to_nat r -> i' < Z.to_nat r -> j' < Z.to_nat r ->
       c * (Z.to_nat r * Z.to_nat r) + (i * Z.to_nat r + j)
       = c' * (Z.to_nat r * Z.to_nat r) + (i' * Z.to_nat r + j') ->
       c = c' /\ i = i' /\ j = j').
Proof.
  intros Hr (SN & SC & SH & SW).
  set (rn := Z.to_nat r) in *.
  assert (Hrn : 1 <= rn) by (unfold rn; lia).
  destruct (UnPixelShuffle_eval rn x H W Hrn SH SW) as (out & E & S & G).
  replace (Z.of_nat rn) with r in E by (unfold rn; lia).
  rewrite SN, SC in S.
  exists out; split; [exact E|]. split; [exact S|].
  split; [|split].
  - intros b c i j y u _ Hc Hi Hj Hy Hu; apply G; try assumption; lia.
  - intros m Hm; apply channel_split; assumption.
  - intros c i j c' i' j' A1 A2 A3 A4 A5.
    exact (channel_split_unique rn c i j c' i' j' A1 A2 A3 A4 A5).
Qed.

Lemma UnPixelShuffle_rearranges_witness :
  let x := mkTensor 1 2 4 6 (fun _ c i j => Z2Qc (Z.of_nat (c * 100 + i * 10 + j))) in
  exists out,
    UnPixelShuffle_forward 2 x = Ok out /\ has_shape out 1 8 2 3.
Proof.
  intros x.
  destruct (UnPixelShuffle_rearranges 2 x 1 2 2 3) as (out & E & S & _);
    [lia | repeat split |].
  exists out; split; [exact E | exact S].
Defined.

(** ** Pixel shuffle undoes pixel unshuffle *)

Lemma PixelShuffle_eval (rn : nat) (y : Tensor) (C : nat) :
  1 <= rn -> dimC y = C * (rn * rn) ->
  PixelShuffle_forward (Z.of_nat rn) y =
  Ok (mkTensor (dimN y) C (dimH y * rn) (dimW y * rn)
        (fun b c h w =>
           get y b (c * (rn * rn) + (h mod rn) * rn + w mod rn) (h / rn) (w / rn))).
Proof.
  intros Hr EC; unfold PixelShuffle_forward.
  rewrite Nat2Z.id, EC.
  destruct (Z.leb_spec (Z.of_nat rn) 0); [lia|].
  rewrite Nat.Div0.mod_mul, Nat.div_mul by nia.
  reflexivity.
Qed.

Lemma split_index (rn q i : nat) :
  i < rn -> (q * rn + i) / rn = q /\ (q * rn + i) mod rn = i.
Proof.
  intros Hi; split.
  - symmetry; apply (Nat.div_unique _ _ _ i); [exact Hi | lia].
  - symmetry; apply (Nat.mod_unique _ _ q); [exact Hi | lia].
Qed.

(** C5. For a factor [r >= 1], pixel shuffle after [UnPixelShuffle] gives back
    every input of shape [(N, C, H*r, W*r)], and [UnPixelShuffle] after pixel
    shuffle gives back every input of shape [(N, C*r^2, H, W)]: the two are
    inverse to each other. *)
Theorem PixelShuffle_inverts_UnPixelShuffle (r : Z) (N C H W : nat) :
  (1 <= r)%Z ->
  (forall x, has_shape x N C (H * Z.to_nat r) (W * Z.to_nat r) ->
     exists y z, UnPixelShuffle_forward r x = Ok y /\
                 PixelShuffle_forward r y = Ok z /\
                 tensor_eq z x) /\
  (forall y, has_shape y N (C * (Z.to_nat r * Z.to_nat r)) H W ->
     exists z x, PixelShuffle_forward r y = Ok z /\
                 UnPixelShuffle_forward r z = Ok x /\
                 tensor_eq x y).
Proof.
  intros Hr.
  set (rn := Z.to_nat r).
  assert (Hrn : 1 <= rn) by (unfold rn; lia).
  assert (Er : r = Z.of_nat rn) by (unfold rn; lia).
  split.
  - intros x (SN & SC & SH & SW).
    destruct (UnPixelShuffle_eval rn x H W Hrn SH SW) as (y & Ey & (YN & YC & YH & YW) & G).
    rewrite <- Er in Ey.
    exists y; eexists; split; [exact Ey|].
    rewrite Er, (PixelShuffle_eval rn y (dimC x) Hrn YC).
    split; [reflexivity|].
    unfold tensor_eq; cbn [dimN dimC dimH dimW get].
    rewrite YN, YH, YW, SH, SW.
    repeat (split; [reflexivity|]).
    intros b c h w Hb Hc Hh Hw.
    rewrite <- Nat.add_assoc.
    rewrite G;
      [ | exact Hc | apply Nat.mod_upper_bound; lia | apply Nat.mod_upper_bound; lia
        | apply Nat.Div0.div_lt_upper_bound; lia
        | apply Nat.Div0.div_lt_upper_bound; lia ].
    f_equal.
    + pose proof (Nat.div_mod_eq h rn); lia.
    + pose proof (Nat.div_mod_eq w rn); lia.
  - intros y (SN & SC & SH & SW).
    eexists; rewrite Er, (PixelShuffle_eval rn y C Hrn SC).
    set (z := mkTensor _ _ _ _ _).
    destruct (UnPixelShuffle_eval rn z (dimH y) (dimW y) Hrn eq_refl eq_refl)
      as (x & Ex & (XN & XC & XH & XW) & G).
    exists x; split; [reflexivity|]. split; [exact Ex|].
    unfold tensor_eq.
    rewrite XN, XC, XH, XW; cbn [dimN dimC z].
    split; [reflexivity|]. split; [symmetry; exact SC|].
    repeat (split; [reflexivity|]).
    intros b m i j Hb Hm Hi Hj.
    destruct (channel_split C rn m Hrn Hm) as (c & a & e & Hc & Ha & He & ->).
    rewrite (G b c a e i j Hc Ha He Hi Hj).
    unfold z; cbn [get].
    destruct (split_index rn i a Ha) as [D1 M1].
    destruct (split_index rn j e He) as [D2 M2].
    rewrite D1, M1, D2, M2, Nat.add_assoc; reflexivity.
Qed.

Lemma PixelShuffle_inverts_UnPixelShuffle_witness :
  let x := mkTensor 1 2 4 6 (fun _ c i j => Z2Qc (Z.of_nat (c * 100 + i * 10 + j))) in
  exists y z, UnPixelShuffle_forward 2 x = Ok y /\
              PixelShuffle_forward 2 y = Ok z /\
              tensor_eq z x.
Proof.
  intros x.
  apply (proj1 (PixelShuffle_inverts_UnPixelShuffle 2 1 2 2 3 ltac:(lia)) x).
  repeat split.
Defined.

(** * Further properties *)

(** ** More on [AvgPool2d.forward] *)

(** A call whose kernel-size derivation went through is the same as a call on
    the object that the derivation left. *)
Lemma forward_after_lazy (x : Tensor) (s s' : AvgPool2d) (ks : Z * Z) :
  lazy_kernel_size x s = (s', Ok tt) ->
  kernel_size s' = Some ks ->
  forward x s = forward x s'.
Proof.
  intros HL HK; unfold forward, bindM.
  rewrite HL, (lazy_kernel_size_known x s' ks HK); reflexivity.
Qed.

(** Without a kernel size and without a base size to derive one from,
    [forward] raises at line 71 ([None] is subscripted) and writes nothing.
    This is the state of [AvgPool2d()] with default arguments. *)
Theorem forward_needs_a_size (x : Tensor) (s : AvgPool2d) :
  kernel_size s = None ->
  truthy (base_size s) = false ->
  forward x s = (s, Err TypeError).
Proof.
  intros HK HB.
  unfold forward, bindM, lazy_kernel_size, bindM, self_, ret.
  rewrite HK, HB.
  unfold read_kernel_size, bindM, self_, raise; rewrite HK; reflexivity.
Qed.

Lemma forward_needs_a_size_witness :
  forward (tensor_of_list [[[[Z2Qc 1; Z2Qc 2]]]]) (init None None true false None)
  = (init None None true false None, Err TypeError).
Proof.
  apply (forward_needs_a_size (tensor_of_list [[[[Z2Qc 1; Z2Qc 2]]]])
           (init None None true false None)); reflexivity.
Defined.

(** A call that returned a tensor returns the same tensor when repeated on
    the same input, and the repeated call writes nothing. *)
Theorem forward_repeatable (x : Tensor) (s : AvgPool2d) (out : Tensor) :
  snd (forward x s) = Ok out ->
  forward x (fst (forward x s)) = (fst (forward x s), Ok out).
Proof.
  intros H.
  destruct (lazy_kernel_size x s) as [s' r] eqn:HL.
  destruct r as [[]|e].
  - destruct (kernel_size s') as [ks|] eqn:HK.
    + assert (E : fst (forward x s) = s') by (rewrite forward_state, HL; reflexivity).
      rewrite E.
      rewrite (forward_after_lazy x s s' ks HL HK) in H.
      pose proof (forward_keeps_known x s' ks HK) as F.
      destruct (forward x s') as [s2 r2]; cbn [fst snd] in *; subst; reflexivity.
    + exfalso; revert H.
      unfold forward, bindM; rewrite HL.
      unfold read_kernel_size, bindM, self_, raise; rewrite HK; discriminate.
  - exfalso; revert H; unfold forward, bindM; rewrite HL; discriminate.
Qed.

Lemma forward_repeatable_witness :
  let x := tensor_of_list [[[[Z2Qc 1; Z2Qc 2]; [Z2Qc 3; Z2Qc 6]]]] in
  let s := init None (Some (BS_int 3)) true false (Some [1; 1; 2; 2]%Z) in
  forward x (fst (forward x s)) = (fst (forward x s), Ok (adaptive_avg_pool2d_1 x)).
Proof.
  intros x s.
  apply (forward_repeatable x s (adaptive_avg_pool2d_1 x)); reflexivity.
Defined.

(** With a base size that is at least the training size in both directions
    (as [RLFN_PruneLocal] chooses it: one and a half times the training size),
    the kernel size derived by the first call covers the input of that call,
    whatever its size: the first call is plain global average pooling. *)
Theorem first_call_is_global (bs : BaseSize) (ap fi : bool) (ts : list Z)
    (th tw : Z) (x : Tensor) :
  py_index ts (-2) = Ok th -> py_index ts (-1) = Ok tw ->
  (1 <= th <= fst (base_pair bs))%Z ->
  (1 <= tw <= snd (base_pair bs))%Z ->
  snd (forward x (init None (Some bs) ap fi (Some ts))) = Ok (adaptive_avg_pool2d_1 x).
Proof.
  intros Hh Hw Bh Bw.
  assert (Ht : truthy (Some bs) = true).
  { destruct bs as [b|b0 b1]; [|reflexivity].
    cbn in *; destruct (Z.eqb_spec b 0); [lia | reflexivity]. }
  pose proof (first_call_state bs ap fi ts th tw x Ht Hh Hw
                ltac:(lia) ltac:(lia)) as HL.
  erewrite forward_early_return; [reflexivity | exact HL | reflexivity | |];
    cbn [fst snd]; apply Z.le_ge; apply Z.div_le_lower_bound; nia.
Qed.

Lemma first_call_is_global_witness :
  snd (forward (mkTensor 1 1 64 48 (fun _ _ i j => Z2Qc (Z.of_nat (i + j))))
         (init None (Some (BS_pair 384 384)) true false (Some [1; 3; 256; 256]%Z)))
  = Ok (adaptive_avg_pool2d_1 (mkTensor 1 1 64 48 (fun _ _ i j => Z2Qc (Z.of_nat (i + j))))).
Proof.
  apply (first_call_is_global (BS_pair 384 384) true false [1; 3; 256; 256]%Z 256 256);
    try reflexivity; cbn; lia.
Defined.

(** [forward] never lowers a reduction bound below 1. *)
Lemma forward_max_r (x : Tensor) (s : AvgPool2d) :
  (1 <= max_r1 s)%Z -> (1 <= max_r2 s)%Z ->
  (1 <= max_r1 (fst (forward x s)))%Z /\ (1 <= max_r2 (fst (forward x s)))%Z.
Proof.
  intros H1 H2; rewrite forward_state.
  unfold lazy_kernel_size, bindM, self_, ret, lift, write.
  destruct (kernel_size s); [cbn; auto|].
  destruct (truthy (base_size s)); [|cbn; auto].
  destruct (train_size_at (train_size s) (-2)) as [th|]; [|cbn; auto].
  destruct (floordiv _ th); [|cbn; auto].
  destruct (train_size_at (train_size s) (-1)) as [tw|]; [|cbn; auto].
  destruct (floordiv _ tw); [|cbn; auto].
  destruct (floordiv _ th); [|cbn; auto].
  destruct (floordiv _ tw); cbn; split; lia.
Qed.

Lemma after_calls_max_r (xs : list Tensor) (s : AvgPool2d) :
  (1 <= max_r1 s)%Z -> (1 <= max_r2 s)%Z ->
  (1 <= max_r1 (after_calls xs s))%Z /\ (1 <= max_r2 (after_calls xs s))%Z.
Proof.
  revert s; induction xs as [|x xs IH]; intros s H1 H2; [cbn; auto|].
  cbn [after_calls fold_left].
  destruct (forward_max_r x s H1 H2) as [G1 G2].
  exact (IH _ G1 G2).
Qed.

(** On an object built by [__init__], after any calls of [forward] (failed
    ones included), both reduction bounds are at least 1; so the subsampling
    rates of lines 82-83 lie between 1 and 5 and the strided slice of line 84
    is never rejected. *)
Theorem subsampling_rates_in_range (ks : option (Z * Z)) (bs : option BaseSize)
    (ap fi : bool) (ts : option (list Z)) (xs : list Tensor) :
  let s := after_calls xs (init ks bs ap fi ts) in
  (1 <= max_r1 s)%Z /\ (1 <= max_r2 s)%Z /\
  forall (x : Tensor) (r1 r2 : Z),
    select_rate (Z.of_nat (dimH x)) = Ok r1 ->
    select_rate (Z.of_nat (dimW x)) = Ok r2 ->
    (1 <= Z.min (max_r1 s) r1 <= 5)%Z /\ (1 <= Z.min (max_r2 s) r2 <= 5)%Z /\
    is_ok (slice_hw None None (Z.min (max_r1 s) r1) None None (Z.min (max_r2 s) r2) x)
    = true.
Proof.
  intros s.
  destruct (after_calls_max_r xs (init ks bs ap fi ts)) as [M1 M2];
    [cbn; lia | cbn; lia |].
  fold s in M1, M2.
  split; [exact M1|]. split; [exact M2|].
  intros x r1 r2 S1 S2.
  destruct (select_rate_cases (Z.of_nat (dimH x))) as (q1 & E1 & I1 & _).
  destruct (select_rate_cases (Z.of_nat (dimW x))) as (q2 & E2 & I2 & _).
  assert (q1 = r1) by congruence; assert (q2 = r2) by congruence; subst q1 q2.
  pose proof (rs_range r1 I1); pose proof (rs_range r2 I2).
  split; [lia|]. split; [lia|].
  unfold slice_hw.
  rewrite !py_slice_stride by lia; reflexivity.
Qed.

(** In exact arithmetic, with a kernel size that covers a non-empty input,
    the integral-image computation itself would give the global mean: the
    early return of lines 71-72 agrees with the branch it skips (before any
    padding).  Entries are rationals here; the floating-point sums of the
    program agree with this up to rounding only. *)
Theorem integral_image_pool_covering (ks : Z * Z) (x : Tensor) :
  1 <= dimH x -> 1 <= dimW x ->
  (fst ks >= Z.of_nat (dimH x))%Z -> (snd ks >= Z.of_nat (dimW x))%Z ->
  exists out,
    integral_image_pool ks x = Ok out /\ tensor_eq out (adaptive_avg_pool2d_1 x).
Proof.
  intros Hh Hw K1 K2.
  destruct (integral_image_pool_eval x ks (dimH x) (dimW x))
    as (out & E & DN & DC & DH & DW & G); try lia.
  exists out; split; [exact E|].
  unfold tensor_eq; cbn [adaptive_avg_pool2d_1 dimN dimC dimH dimW get].
  split; [exact DN|]. split; [exact DC|].
  assert (DH1 : dimH out = 1) by (rewrite DH; destruct (Nat.eqb_spec (dimH x) 0); lia).
  assert (DW1 : dimW out = 1) by (rewrite DW; destruct (Nat.eqb_spec (dimW x) 0); lia).
  split; [exact DH1|]. split; [exact DW1|].
  intros b c i j Hb Hc Hi Hj.
  rewrite (G b c i j Hb Hc Hi Hj).
  assert (i = 0) by lia; assert (j = 0) by lia; subst i j.
  rewrite !Nat.add_0_r, !integral_image by lia.
  pose proof (four_corners x b c 0 0 (dimH x) (dimW x)) as FC.
  cbn [Nat.add] in FC; rewrite FC.
  rewrite Nat2Z.inj_mul; reflexivity.
Qed.

Lemma integral_image_pool_covering_witness :
  exists out,
    integral_image_pool (5, 2)%Z (tensor_of_list [[[[Z2Qc 1; Z2Qc 2]; [Z2Qc 3; Z2Qc 6]]]])
    = Ok out /\
    tensor_eq out
      (adaptive_avg_pool2d_1 (tensor_of_list [[[[Z2Qc 1; Z2Qc 2]; [Z2Qc 3; Z2Qc 6]]]])).
Proof.
  apply (integral_image_pool_covering (5, 2)%Z
           (tensor_of_list [[[[Z2Qc 1; Z2Qc 2]; [Z2Qc 3; Z2Qc 6]]]])); cbn; lia.
Defined.

(** The integral-image branch on its own: it returns the sliding-window mean. *)
Lemma integral_image_pool_values (ks : Z * Z) (x : Tensor) :
  (1 <= fst ks)%Z -> (1 <= snd ks)%Z ->
  let k1 := Z.to_nat (Z.min (Z.of_nat (dimH x)) (fst ks)) in
  let k2 := Z.to_nat (Z.min (Z.of_nat (dimW x)) (snd ks)) in
  exists out, integral_image_pool ks x = Ok out /\ tensor_eq out (sliding_mean k1 k2 x).
Proof.
  intros P0 P1 k1 k2.
  destruct (integral_image_pool_eval x ks k1 k2)
    as (out & Eout & DN & DC & DH & DW & Hget); try (unfold k1, k2; lia).
  assert (L1 : k1 <= dimH x) by (unfold k1; lia).
  assert (L2 : k2 <= dimW x) by (unfold k2; lia).
  exists out; split; [exact Eout|].
  unfold tensor_eq, sliding_mean; cbn [dimN dimC dimH dimW get].
  split; [exact DN|]. split; [exact DC|].
  split; [rewrite DH; destruct (Nat.eqb_spec k1 0); lia|].
  split; [rewrite DW; destruct (Nat.eqb_spec k2 0); lia|].
  intros b c i j Hb Hc Hi Hj.
  rewrite (Hget b c i j Hb Hc Hi Hj).
  assert (k1 + i <= dimH x) by (rewrite DH in Hi; destruct (Nat.eqb_spec k1 0); lia).
  assert (k2 + j <= dimW x) by (rewrite DW in Hj; destruct (Nat.eqb_spec k2 0); lia).
  rewrite !integral_image by lia.
  rewrite (Nat.add_comm k1 i), (Nat.add_comm k2 j), four_corners.
  rewrite Nat2Z.inj_mul; reflexivity.
Qed.

(** Where replicate padding by [auto_pad] reads the unpadded result: the
    window is centred on the position and pushed back inside at the borders. *)
Lemma auto_pad_source (len k i : nat) :
  1 <= k <= len -> i < len ->
  clamp_index (len + 1 - k)
    (Z.of_nat i - (Z.of_nat len - Z.of_nat (len + 1 - k)) / 2)
  = Nat.min (len - k) (i - (k - 1) / 2).
Proof.
  intros Hk Hi; unfold clamp_index.
  assert (E : ((Z.of_nat len - Z.of_nat (len + 1 - k)) / 2
               = Z.of_nat ((k - 1) / 2))%Z).
  { rewrite Nat2Z.inj_div; f_equal; lia. }
  rewrite E; lia.
Qed.

(** Integral-image branch with [auto_pad], in exact arithmetic, on an input
    with at least one channel, row and column: the value at [(i, j)] of what
    [forward] returns is the mean of the input over the k1-by-k2 window whose
    top-left corner is [(i - (k1-1)//2, j - (k2-1)//2)], moved to the nearest
    position at which the window lies inside the input. *)
Theorem forward_padded_values (x : Tensor) (s s' : AvgPool2d) (ks0 ks1 : Z) :
  lazy_kernel_size x s = (s', Ok tt) ->
  kernel_size s' = Some (ks0, ks1) ->
  fast_imp s' = false -> auto_pad s' = true ->
  (1 <= ks0)%Z -> (1 <= ks1)%Z ->
  ~ ((ks0 >= Z.of_nat (dimH x))%Z /\ (ks1 >= Z.of_nat (dimW x))%Z) ->
  1 <= dimC x -> 1 <= dimH x -> 1 <= dimW x ->
  let k1 := Z.to_nat (Z.min (Z.of_nat (dimH x)) ks0) in
  let k2 := Z.to_nat (Z.min (Z.of_nat (dimW x)) ks1) in
  exists t,
    snd (forward x s) = Ok t /\
    has_shape t (dimN x) (dimC x) (dimH x) (dimW x) /\
    forall b c i j, b < dimN x -> c < dimC x -> i < dimH x -> j < dimW x ->
      get t b c i j =
      (window_sum x b c
         (Nat.min (dimH x - k1) (i - (k1 - 1) / 2))
         (Nat.min (dimW x - k2) (j - (k2 - 1) / 2)) k1 k2
       / Z2Qc (Z.of_nat (k1 * k2)))%Qc.
Proof.
  intros HL HK HF HA P0 P1 Hn Hch Hh Hw k1 k2.
  rewrite (forward_sliding x s s' (ks0, ks1) HL HK Hn), HF, HA; cbn [snd].
  destruct (integral_image_pool_values (ks0, ks1) x P0 P1)
    as (out & Eout & (DN & DC & DH & DW & G)).
  cbn [fst snd] in DH, DW, G; fold k1 k2 in DH, DW, G.
  cbn [sliding_mean dimN dimC dimH dimW get] in DN, DC, DH, DW, G.
  assert (L1 : 1 <= k1 <= dimH x) by (unfold k1; lia).
  assert (L2 : 1 <= k2 <= dimW x) by (unfold k2; lia).
  assert (DH' : dimH out = dimH x + 1 - k1) by lia.
  assert (DW' : dimW out = dimW x + 1 - k2) by lia.
  rewrite Eout; cbn [bind].
  rewrite (auto_pad_out_eval x out) by lia.
  eexists; split; [reflexivity|].
  split.
  { unfold has_shape; cbn [dimN dimC dimH dimW].
    split; [exact DN|]. split; [exact DC|]. split; reflexivity. }
  intros b c i j Hb Hc Hi Hj; cbn [get].
  rewrite DH', DW'.
  rewrite (auto_pad_source (dimH x) k1 i L1 Hi), (auto_pad_source (dimW x) k2 j L2 Hj).
  apply G; lia.
Qed.

Lemma forward_padded_values_witness :
  exists t,
    snd (forward (mkTensor 1 1 5 6 (fun _ _ i j => Z2Qc (Z.of_nat (i * 6 + j))))
           (init (Some (3, 2)%Z) None true false None)) = Ok t /\
    has_shape t 1 1 5 6.
Proof.
  destruct (forward_padded_values
              (mkTensor 1 1 5 6 (fun _ _ i j => Z2Qc (Z.of_nat (i * 6 + j))))
              (init (Some (3, 2)%Z) None true false None)
              (init (Some (3, 2)%Z) None true false None) 3 2)
    as (t & E & S & _); try reflexivity; try (cbn; lia).
  exists t; split; [exact E | exact S].
Defined.

(** The double running sum without padding: entry [(a, e)] is the sum over
    rows [0..a] and columns [0..e]. *)
Lemma running_sums (x : Tensor) (b c a e : nat) :
  get (cumsum_h (cumsum_w x)) b c a e = rect_sum x b c (S a) (S e).
Proof.
  unfold rect_sum; cbn [cumsum_h cumsum_w get].
  rewrite prefix_sum_below.
  apply sum_below_ext; intros i _; apply prefix_sum_below.
Qed.

Lemma to_nat_scale (n : nat) (q : Z) :
  (0 <= q)%Z -> Z.to_nat (Z.of_nat n * q) = n * Z.to_nat q.
Proof. intros H; rewrite Z2Nat.inj_mul, Nat2Z.id by lia; reflexivity. Qed.

(** Subsampled branch: what it computes, in exact arithmetic, on an input
    with at least one channel.  With [xs] the subsampled input and [k1], [k2]
    the effective windows, the value at [(i, j)] is the mean of [xs] over the
    k1-by-k2 window whose top-left corner is [(i // r1 + 1, j // r2 + 1)]:
    the first row and the first column of [xs] never enter a window. *)
Theorem fast_pool_values (s : AvgPool2d) (ks : Z * Z) (x : Tensor) (r1 r2 : Z) :
  1 <= dimC x ->
  ~ ((fst ks >= Z.of_nat (dimH x))%Z /\ (snd ks >= Z.of_nat (dimW x))%Z) ->
  select_rate (Z.of_nat (dimH x)) = Ok r1 ->
  select_rate (Z.of_nat (dimW x)) = Ok r2 ->
  let q1 := Z.min (max_r1 s) r1 in
  let q2 := Z.min (max_r2 s) r2 in
  let xs := subsample q1 q2 x in
  let k1 := Z.to_nat (Z.min (Z.of_nat (dimH xs) - 1) (fst ks / q1)) in
  let k2 := Z.to_nat (Z.min (Z.of_nat (dimW xs) - 1) (snd ks / q2)) in
  (1 <= q1)%Z -> (1 <= q2)%Z -> 1 <= k1 -> 1 <= k2 ->
  exists out,
    fast_pool s ks x = Ok out /\
    has_shape out (dimN x) (dimC x)
      ((dimH xs - k1) * Z.to_nat q1) ((dimW xs - k2) * Z.to_nat q2) /\
    forall b c i j,
      b < dimN x -> c < dimC x ->
      i < (dimH xs - k1) * Z.to_nat q1 -> j < (dimW xs - k2) * Z.to_nat q2 ->
      get out b c i j =
      (window_sum xs b c (i / Z.to_nat q1 + 1) (j / Z.to_nat q2 + 1) k1 k2
       / Z2Qc (Z.of_nat (k1 * k2)))%Qc.
Proof.
  intros Hch Hn S1 S2 q1 q2 xs k1 k2 R1 R2 W1 W2.
  unfold fast_pool.
  replace ((fst ks >=? Z.of_nat (dimH x))%Z && (snd ks >=? Z.of_nat (dimW x))%Z)
    with false
    by (destruct (Z.geb_spec (fst ks) (Z.of_nat (dimH x)));
        destruct (Z.geb_spec (snd ks) (Z.of_nat (dimW x)));
        cbn [andb]; try reflexivity; exfalso; apply Hn; split; lia).
  rewrite S1, S2; cbn [bind]; fold q1 q2.
  unfold slice_hw at 1.
  rewrite (py_slice_stride (dimH x) q1 R1), (py_slice_stride (dimW x) q2 R2).
  cbn [bind fst snd].
  change (mkTensor (dimN x) (dimC x)
            (Z.to_nat ((Z.of_nat (dimH x) + q1 - 1) / q1))
            (Z.to_nat ((Z.of_nat (dimW x) + q2 - 1) / q2))
            (fun b c i j => get x b c (0 + i * Z.to_nat q1) (0 + j * Z.to_nat q2)))
    with xs.
  set (sm := cumsum_h (cumsum_w xs)).
  assert (DSH : dimH sm = dimH xs) by reflexivity.
  assert (DSW : dimW sm = dimW xs) by reflexivity.
  rewrite DSH, DSW.
  assert (K1 : Z.min (Z.of_nat (dimH xs) - 1) (fst ks / q1) = Z.of_nat k1)
    by (unfold k1; lia).
  assert (K2 : Z.min (Z.of_nat (dimW xs) - 1) (snd ks / q2) = Z.of_nat k2)
    by (unfold k2; lia).
  rewrite K1, K2.
  assert (L1 : k1 <= dimH sm) by (rewrite DSH; lia).
  assert (L2 : k2 <= dimW sm) by (rewrite DSW; lia).
  unfold slice_hw.
  rewrite !(py_slice_drop_last (dimH sm) k1 L1), !(py_slice_drop_last (dimW sm) k2 L2),
          !(py_slice_drop_first (dimH sm) k1 L1), !(py_slice_drop_first (dimW sm) k2 L2).
  destruct (Nat.eqb_spec k1 0); [lia|].
  destruct (Nat.eqb_spec k2 0); [lia|].
  cbn [bind fst snd].
  unfold tensor_add, tensor_sub, tensor_binop; cbn [dimN dimC dimH dimW bind].
  repeat (rewrite broadcast_dim_same; cbn [bind dimN dimC dimH dimW]).
  unfold interpolate_nearest; cbn [div_scalar dimN dimC dimH dimW].
  change (dimC sm) with (dimC x).
  destruct (Nat.eqb_spec (dimC x) 0); [lia|].
  destruct (Nat.eqb_spec (dimH sm - k1) 0); [lia|].
  destruct (Nat.eqb_spec (dimW sm - k2) 0); [lia|].
  destruct (Z.leb_spec q1 0); [lia|].
  destruct (Z.leb_spec q2 0); [lia|].
  cbn [orb]; eexists; split; [reflexivity|].
  cbn [dimN dimC dimH dimW get].
  split.
  { unfold has_shape; rewrite DSH, DSW.
    split; [reflexivity|]. split; [reflexivity|].
    split; apply to_nat_scale; lia. }
  intros b c i j Hb Hc Hi Hj.
  assert (Q1 : 1 <= Z.to_nat q1) by lia.
  assert (Q2 : 1 <= Z.to_nat q2) by lia.
  assert (I1 : i / Z.to_nat q1 < dimH sm - k1).
  { apply Nat.Div0.div_lt_upper_bound; rewrite DSH; lia. }
  assert (J1 : j / Z.to_nat q2 < dimW sm - k2).
  { apply Nat.Div0.div_lt_upper_bound; rewrite DSW; lia. }
  assert (Bn : b < dimN sm) by exact Hb.
  assert (Bc : c < dimC sm) by exact Hc.
  cbn [get div_scalar].
  rewrite !(bidx_lt _ b), !(bidx_lt _ c),
          !(bidx_lt _ (i / Z.to_nat q1)), !(bidx_lt _ (j / Z.to_nat q2)) by assumption.
  change (Z.to_nat 1) with 1; rewrite !Nat.mul_1_r, !Nat.add_0_l.
  unfold sm; rewrite !running_sums.
  rewrite <- (four_corners xs b c (i / Z.to_nat q1 + 1) (j / Z.to_nat q2 + 1) k1 k2).
  rewrite Nat2Z.inj_mul.
  replace (S (k1 + i / Z.to_nat q1)) with (i / Z.to_nat q1 + 1 + k1) by lia.
  replace (S (k2 + j / Z.to_nat q2)) with (j / Z.to_nat q2 + 1 + k2) by lia.
  replace (S (i / Z.to_nat q1)) with (i / Z.to_nat q1 + 1) by lia.
  replace (S (j / Z.to_nat q2)) with (j / Z.to_nat q2 + 1) by lia.
  f_equal; ring.
Qed.

Lemma fast_pool_values_witness :
  exists out,
    fast_pool (init (Some (6, 7)%Z) None true true None) (6, 7)%Z
      (mkTensor 1 1 10 12 (fun _ _ i j => Z2Qc (Z.of_nat (i * 12 + j)))) = Ok out /\
    has_shape out 1 1 5 8.
Proof.
  destruct (fast_pool_values (init (Some (6, 7)%Z) None true true None) (6, 7)%Z
              (mkTensor 1 1 10 12 (fun _ _ i j => Z2Qc (Z.of_nat (i * 12 + j)))) 5 4)
    as (out & E & S & _); try reflexivity; try (cbn; lia).
  exists out; split; [exact E | exact S].
Defined.

(** ** More on [replace_layers] *)

Lemma pool_free_unfold (cls : ModuleClass) (cs : list (string * Module)) :
  pool_free (Mod cls cs)
  = forallb (fun nc => negb (is_adaptive (snd nc)) && pool_free (snd nc)) cs.
Proof.
  cbn [pool_free].
  induction cs as [|[n c] cs IHcs]; [reflexivity|].
  cbn [forallb]; rewrite IHcs; reflexivity.
Qed.

Lemma pool_free_paths (m : Module) :
  pool_free m = true <->
  (forall p c, p <> [] -> node_at m p = Some c -> is_adaptive c = false).
Proof.
  induction m as [cls cs IH] using Module_induction.
  rewrite pool_free_unfold, forallb_forall, Forall_forall in *.
  split.
  - intros Hok [|i p] c Hp Hn; [contradiction|].
    cbn [node_at children] in Hn.
    destruct (nth_error cs i) as [[n c0]|] eqn:Ei; [|discriminate].
    pose proof (nth_error_In _ _ Ei) as Hin.
    pose proof (Hok _ Hin) as Hc; cbn [snd] in Hc.
    apply andb_prop in Hc; destruct Hc as [Hc1 Hc2].
    destruct p as [|j p].
    + cbn in Hn; inversion Hn; subst; apply negb_true_iff; exact Hc1.
    + apply (proj1 (IH _ Hin) Hc2 (j :: p) c); [discriminate | exact Hn].
  - intros Hall [n c0] Hin.
    destruct (In_nth_error _ _ Hin) as [i Ei].
    cbn [snd]; apply andb_true_intro; split.
    + apply negb_true_iff; apply (Hall [i] c0); [discriminate|].
      cbn [node_at children]; rewrite Ei; reflexivity.
    + apply (proj2 (IH _ Hin)); intros p c Hp Hn.
      apply (Hall (i :: p) c); [discriminate|].
      cbn [node_at children]; rewrite Ei; exact Hn.
Qed.

Section ReplaceLayersMore.

Variable base_size_arg : option BaseSize.
Variable train_size_arg : option (list Z).
Variable fast_imp_arg : bool.

Let rl := replace_layers base_size_arg train_size_arg fast_imp_arg.
Let conv := converted base_size_arg train_size_arg fast_imp_arg.
Let conv_child := converted_child base_size_arg train_size_arg fast_imp_arg.

Lemma pool_free_assert_free (m : Module) : pool_free m = true -> assert_free m = true.
Proof.
  intros H; apply assert_free_paths; intros p c Hp Hn.
  pose proof (proj1 (pool_free_paths m) H p c Hp Hn) as Ha.
  unfold passes_assert, is_adaptive in *.
  destruct (class_of c); [discriminate | reflexivity | reflexivity].
Qed.

Lemma converted_pool_free (m : Module) : pool_free m = true -> conv m = m.
Proof.
  induction m as [cls cs IH] using Module_induction.
  rewrite pool_free_unfold; intros H.
  unfold conv; rewrite converted_unfold; f_equal.
  induction cs as [|[n c] cs IHcs]; [reflexivity|].
  inversion IH as [|? ? IHc IHrest]; subst; cbn [snd] in IHc.
  cbn [forallb snd] in H; apply andb_prop in H; destruct H as [Hc Hcs].
  apply andb_prop in Hc; destruct Hc as [Ha Hf].
  apply negb_true_iff in Ha.
  cbn [map converted_child]; rewrite Ha.
  fold conv; rewrite (IHc Hf); f_equal.
  exact (IHcs IHrest Hcs).
Qed.

Lemma pool_free_converted (m : Module) :
  assert_free m = true -> pool_free (conv m) = true.
Proof.
  intros _; apply pool_free_paths; intros p c Hp Hn.
  destruct (converted_nodes base_size_arg train_size_arg fast_imp_arg p m c Hp Hn)
    as (c0 & _ & Hc).
  destruct (is_adaptive c0) eqn:Ha; subst c; [reflexivity|].
  fold conv; unfold conv; rewrite is_adaptive_converted; exact Ha.
Qed.

(** On a model without any [nn.AdaptiveAvgPool2d] submodule, [replace_layers]
    returns normally and leaves the model exactly as it was. *)
Theorem replace_layers_without_pools (model : Module) :
  (forall p c, p <> [] -> node_at model p = Some c -> is_adaptive c = false) ->
  rl model = (model, Ok tt).
Proof.
  intros H; apply pool_free_paths in H.
  unfold rl; rewrite (replace_layers_completes _ _ _ model (pool_free_assert_free model H)).
  fold conv; rewrite (converted_pool_free model H); reflexivity.
Qed.

Lemma aborted_still_fails (m m' : Module) :
  aborted base_size_arg train_size_arg fast_imp_arg m m' -> assert_free m' = false.
Proof.
  induction 1 as [cls pre n c c' post Hpre Hab IH | cls pre n c post Hpre Hfree Hfail];
    rewrite assert_free_unfold, forallb_app; cbn [forallb];
    unfold child_ok at 2; cbn [snd].
  - rewrite IH, andb_false_r; cbn [andb]; apply andb_false_r.
  - rewrite passes_assert_converted, Hfail; cbn [andb]; apply andb_false_r.
Qed.

(** After a failed [replace_layers] the failing pool is still in the model:
    calling again raises the same [AssertionError]. *)
Theorem replace_layers_fails_again (model : Module) (e : error) :
  snd (rl model) = Err e ->
  snd (rl (fst (rl model))) = Err AssertionError.
Proof.
  intros H.
  destruct (assert_free model) eqn:E.
  - unfold rl in H; rewrite (replace_layers_completes _ _ _ model E) in H; discriminate.
  - destruct (replace_layers_aborts base_size_arg train_size_arg fast_imp_arg model E)
      as (m' & Em & Ab).
    unfold rl; rewrite Em; cbn [fst].
    destruct (replace_layers_aborts base_size_arg train_size_arg fast_imp_arg m'
                (aborted_still_fails model m' Ab)) as (m'' & Em' & _).
    rewrite Em'; reflexivity.
Qed.

End ReplaceLayersMore.

(** [RLFN_Prune] has no [nn.AdaptiveAvgPool2d] (its attention block pools with
    [F.max_pool2d]): the conversion of [RLFN_PruneLocal] replaces nothing. *)
Lemma replace_layers_without_pools_witness :
  replace_layers (Some (BS_pair 384 384)) (Some [1; 3; 256; 256]%Z) false
    RLFN_Prune_module
  = (RLFN_Prune_module, Ok tt).
Proof.
  apply (replace_layers_without_pools (Some (BS_pair 384 384))
           (Some [1; 3; 256; 256]%Z) false RLFN_Prune_module).
  apply pool_free_paths; reflexivity.
Defined.

Lemma replace_layers_fails_again_witness :
  let m := Mod (OtherModule "Net"%string)
             [("a"%string, Mod (AdaptiveAvgPool2d_ (OS_int 1)) []);
              ("b"%string, Mod (AdaptiveAvgPool2d_ (OS_pair (Some 1%Z) (Some 1%Z))) [])] in
  snd (replace_layers None None false (fst (replace_layers None None false m)))
  = Err AssertionError.
Proof.
  intros m.
  apply (replace_layers_fails_again None None false m AssertionError); reflexivity.
Defined.

(** ** More on [replace_layers] on module objects *)

Section ReplaceLayersHeapMore.

Variable base_size_arg : option BaseSize.
Variable train_size_arg : option (list Z).
Variable fast_imp_arg : bool.

Let fresh_object := new_pool_object base_size_arg train_size_arg fast_imp_arg.
Let conv := oconverted base_size_arg train_size_arg fast_imp_arg.
Let conv_children := oconverted_children base_size_arg train_size_arg fast_imp_arg.
Let rlh := replace_layers_heap base_size_arg train_size_arg fast_imp_arg.

Lemma height_converted (t : ObjTree) :
  forall next, height (fst (conv next t)) <= height t.
Proof.
  induction t as [r cls cs IH] using ObjTree_induction; intros next.
  unfold conv; rewrite oconverted_unfold; cbn [fst height].
  revert next; induction cs as [|[n c] cs IHcs]; intros next; [cbn; lia|].
  inversion IH as [|? ? IHc IHrest]; subst; cbn [snd] in IHc.
  rewrite oconverted_children_cons.
  destruct (adaptive_class (oclass c)); cbn [fst map snd list_max fold_right height].
  - pose proof (IHcs IHrest
                  (S (snd (oconverted base_size_arg train_size_arg fast_imp_arg next c)))) as G.
    unfold list_max in G; cbn [fold_right] in *; lia.
  - pose proof (IHcs IHrest
                  (snd (oconverted base_size_arg train_size_arg fast_imp_arg next c))) as G.
    pose proof (IHc next) as G'.
    unfold list_max in G; unfold conv in G'; cbn [fold_right] in *; lia.
Qed.

(** Without an [nn.AdaptiveAvgPool2d] to replace, the loop of line 108 reads
    the heap and writes nothing. *)
Lemma children_loop_unchanged (depth : nat) (r : ref) (cls : ModuleClass) (h : Heap)
    (post : list (string * ObjTree)) :
  Forall (fun nc => untouched base_size_arg train_size_arg fast_imp_arg depth (snd nc)) post ->
  Forall (fun nc => stored h (snd nc)) post ->
  NoDup (flat_map (fun nc => refs_of (snd nc)) post) ->
  Forall (fun nc =>
            adaptive_class (oclass (snd nc)) = false /\
            forall p c, p <> [] -> onode_at (snd nc) p = Some c ->
                        adaptive_class (oclass c) = false) post ->
  Forall (fun nc => height (snd nc) < depth) post ->
  forall (pre : list (string * ref)) (memo : list ref) (todo : nat),
    nth_error h r = Some (mkObject cls (pre ++ map entry post)) ->
    (forall x, In x memo -> ~ In x (flat_map (fun nc => refs_of (snd nc)) post)) ->
    List.length post <= todo ->
    children_loop base_size_arg train_size_arg fast_imp_arg (rlh depth) r todo
      (List.length pre) memo h = (h, Ok tt).
Proof.
  induction post as [|[n c] rest IHrest];
    intros IH Hst Hnd Hfree Hheight pre memo todo Hr Hmemo Htodo.
  - destruct todo as [|todo]; [reflexivity|].
    cbn [children_loop]; unfold modules_of; rewrite Hr; cbn [obj_modules map].
    rewrite app_nil_r.
    replace (nth_error pre (List.length pre)) with (@None (string * ref))
      by (symmetry; apply nth_error_None; lia).
    reflexivity.
  - inversion IH as [|? ? IHc IHrest']; subst; cbn [snd] in IHc.
    inversion Hst as [|? ? Sc Srest]; subst; cbn [snd] in Sc.
    inversion Hfree as [|? ? [Pc Pdeep] Prest]; subst; cbn [snd] in Pc, Pdeep.
    inversion Hheight as [|? ? Hc Hrest]; subst; cbn [snd] in Hc.
    cbn [flat_map snd] in Hnd, Hmemo.
    assert (Rootc : In (oref c) (refs_of c)) by (destruct c; cbn; left; reflexivity).
    destruct todo as [|todo]; [cbn in Htodo; lia|].
    cbn [List.length] in Htodo.
    cbn [children_loop]; unfold modules_of at 1; rewrite Hr; cbn [obj_modules map].
    rewrite nth_error_app2 by lia; rewrite Nat.sub_diag; cbn [nth_error].
    unfold entry at 1; cbn [fst snd].
    replace (existsb (Nat.eqb (oref c)) memo) with false.
    2:{ symmetry; apply not_true_is_false; intros E; apply existsb_eqb_In in E.
        apply (Hmemo _ E); apply in_or_app; left; exact Rootc. }
    assert (Rec : match modules_of h (oref c) with
                  | [] => (h, Ok tt)
                  | _ :: _ => rlh depth (oref c) h
                  end = (h, Ok tt)).
    { rewrite (modules_of_stored h c Sc).
      destruct (ochildren c) as [|nc0 cs0] eqn:Ec; [reflexivity|].
      cbn [map]; exact (IHc h Sc (NoDup_app_remove_r _ _ Hnd) Pdeep Hc). }
    rewrite Rec, (class_at_stored h c Sc).
    assert (Next : children_loop base_size_arg train_size_arg fast_imp_arg (rlh depth) r
                     todo (S (List.length pre)) (oref c :: memo) h = (h, Ok tt)).
    { replace (S (List.length pre)) with (List.length (pre ++ [(n, oref c)]))
        by (rewrite length_app; cbn; lia).
      apply (IHrest IHrest' Srest (NoDup_app_remove_l _ _ Hnd) Prest Hrest).
      - rewrite <- app_assoc; exact Hr.
      - intros x [<-|Hx].
        + exact (NoDup_app_disjoint _ _ _ Hnd Rootc).
        + intros Hin; apply (Hmemo x Hx); apply in_or_app; right; exact Hin.
      - lia. }
    destruct (oclass c); [discriminate | exact Next | exact Next].
Qed.

Lemma replace_layers_heap_unchanged (t : ObjTree) :
  forall depth, untouched base_size_arg train_size_arg fast_imp_arg depth t.
Proof.
  induction t as [r cls cs IH] using ObjTree_induction.
  intros depth h S Nd Hp Hh.
  destruct depth as [|d]; [lia|].
  apply stored_unfold in S; destruct S as [S1 S2].
  cbn [oref]; unfold rlh; cbn [replace_layers_heap].
  unfold modules_of at 1; rewrite S1; cbn [obj_modules]; rewrite length_map.
  apply (children_loop_unchanged d r cls h cs) with (pre := @nil (string * ref)).
  - rewrite Forall_forall in *; intros nc Hin; apply (IH nc Hin).
  - exact S2.
  - cbn [refs_of] in Nd; inversion Nd; assumption.
  - rewrite Forall_forall; intros [n c] Hin; cbn [snd].
    destruct (In_nth_error _ _ Hin) as [i Ei].
    split.
    + apply (Hp [i] c); [discriminate|].
      cbn [onode_at ochildren]; rewrite Ei; reflexivity.
    + intros p c' Hne E; apply (Hp (i :: p) c'); [discriminate|].
      cbn [onode_at ochildren]; rewrite Ei; exact E.
  - rewrite Forall_forall; intros nc Hin.
    pose proof (height_child r cls cs nc Hin); lia.
  - exact S1.
  - intros x [].
  - lia.
Qed.

(** On a model in which no module object is registered twice and every
    [nn.AdaptiveAvgPool2d] has [output_size == 1], [replace_layers] returns
    normally, and a second call returns normally and leaves every object as
    the first call left it. *)
Theorem replace_layers_idempotent (depth : nat) (h : Heap) (t : ObjTree) :
  tree_shaped h t ->
  (forall p c, p <> [] -> onode_at t p = Some c -> class_passes (oclass c) = true) ->
  height t < depth ->
  exists h',
    rlh depth (oref t) h = (h', Ok tt) /\
    rlh depth (oref t) h' = (h', Ok tt).
Proof.
  intros (D & S & Nd) Hp Hh.
  apply distinct_nat_NoDup in Nd.
  destruct (replace_layers_heap_converts base_size_arg train_size_arg fast_imp_arg
              t depth h S Nd (stored_names_ok h t D S) Hp Hh) as (h' & E & S' & _ & _).
  exists h'; split; [exact E|].
  rewrite <- (oref_converted base_size_arg train_size_arg fast_imp_arg (List.length h) t).
  apply replace_layers_heap_unchanged.
  - exact S'.
  - apply oconverted_NoDup; [exact Nd|].
    intros q Hq; exact (stored_refs h t q S Hq).
  - intros p c Hne Ec.
    exact (oconverted_nodes base_size_arg train_size_arg fast_imp_arg p t _ c Hne Ec).
  - pose proof (height_converted t (List.length h)); unfold conv in *; lia.
Qed.

End ReplaceLayersHeapMore.

Lemma replace_layers_idempotent_witness :
  let h := [mkObject (OtherModule "Block"%string) [("conv1"%string, 1); ("sca"%string, 2)];
            mkObject (OtherModule "Conv2d"%string) [];
            mkObject (OtherModule "Sequential"%string) [("0"%string, 3); ("1"%string, 4)];
            mkObject (AdaptiveAvgPool2d_ (OS_int 1)) [];
            mkObject (OtherModule "Conv2d"%string) []] in
  exists h',
    replace_layers_heap None None false 3 0 h = (h', Ok tt) /\
    replace_layers_heap None None false 3 0 h' = (h', Ok tt).
Proof.
  intros h.
  apply (replace_layers_idempotent None None false 3 h
           (ONode 0 (OtherModule "Block"%string)
              [("conv1"%string, ONode 1 (OtherModule "Conv2d"%string) []);
               ("sca"%string,
                ONode 2 (OtherModule "Sequential"%string)
                  [("0"%string, ONode 3 (AdaptiveAvgPool2d_ (OS_int 1)) []);
                   ("1"%string, ONode 4 (OtherModule "Conv2d"%string) [])])])).
  - split; [reflexivity|]. split; [|reflexivity].
    cbn; repeat split.
  - apply oassert_free_paths; reflexivity.
  - cbn; lia.
Defined.

(** With one pool object under two names the second call is not idle: the
    first call left the second name on the old pool, and the second call
    replaces it. *)
Example replace_layers_shared_pool_again :
  let h := [mkObject (OtherModule "Net"%string) [("a"%string, 1); ("b"%string, 1)];
            mkObject (AdaptiveAvgPool2d_ (OS_int 1)) []] in
  let h1 := fst (replace_layers_heap None None false 1000 0 h) in
  let h2 := fst (replace_layers_heap None None false 1000 0 h1) in
  modules_of h1 0 = [("a"%string, 2); ("b"%string, 1)] /\
  modules_of h2 0 = [("a"%string, 2); ("b"%string, 3)].
Proof. cbv zeta; split; reflexivity. Qed.

(** ** When [UnPixelShuffle.forward] raises *)

(** Number of entries of [seq[i:len:r]] for an offset [i < r]. *)
Lemma py_slice_offset (len rn i : nat) :
  1 <= rn -> i < rn ->
  exists lo,
    py_slice len (Some (Z.of_nat i)) (Some (Z.of_nat len)) (Z.of_nat rn)
    = Ok (lo, (len + rn - 1 - i) / rn).
Proof.
  intros Hr Hi; unfold py_slice, slice_bound.
  destruct (Z.leb_spec (Z.of_nat rn) 0); [lia|].
  destruct (Z.ltb_spec (Z.of_nat i) 0); [lia|].
  destruct (Z.ltb_spec (Z.of_nat len) 0); [lia|].
  rewrite (Z.min_id (Z.of_nat len)), (Z.max_r 0 (Z.of_nat len)) by lia.
  eexists; f_equal; f_equal.
  destruct (Nat.lt_ge_cases i len) as [Hlt|Hge].
  - rewrite Z.min_r, Z.max_r by lia.
    destruct (Z.ltb_spec (Z.of_nat i) (Z.of_nat len)); [|lia].
    replace (Z.of_nat len - Z.of_nat i + Z.of_nat rn - 1)%Z
      with (Z.of_nat (len + rn - 1 - i)) by lia.
    rewrite <- Nat2Z.inj_div; apply Nat2Z.id.
  - rewrite Z.min_l, Z.max_r by lia.
    destruct (Z.ltb_spec (Z.of_nat len) (Z.of_nat len)); [lia|].
    rewrite Nat.div_small by lia; reflexivity.
Qed.

Lemma chunk_dims (x : Tensor) (rn i j : nat) :
  1 <= rn -> i < rn -> j < rn ->
  exists t,
    slice_hw (Some (Z.of_nat i)) (Some (Z.of_nat (dimH x))) (Z.of_nat rn)
             (Some (Z.of_nat j)) (Some (Z.of_nat (dimW x))) (Z.of_nat rn) x = Ok t /\
    dimH t = (dimH x + rn - 1 - i) / rn /\
    dimW t = (dimW x + rn - 1 - j) / rn.
Proof.
  intros Hr Hi Hj; unfold slice_hw.
  destruct (py_slice_offset (dimH x) rn i Hr Hi) as (lo1 & E1).
  destruct (py_slice_offset (dimW x) rn j Hr Hj) as (lo2 & E2).
  rewrite E1, E2; cbn [bind fst snd].
  eexists; split; [reflexivity|]; split; reflexivity.
Qed.

(** The first and the last offset select equally many entries only when the
    length is a multiple of the step. *)
Lemma uneven_chunks (len rn : nat) :
  1 <= rn -> len mod rn <> 0 ->
  (len + rn - 1 - 0) / rn <> (len + rn - 1 - (rn - 1)) / rn.
Proof.
  intros Hr Hm.
  replace (len + rn - 1 - (rn - 1)) with len by lia.
  pose proof (Nat.div_mod_eq len rn) as E.
  pose proof (Nat.mod_upper_bound len rn ltac:(lia)) as B.
  assert (D : (len + rn - 1 - 0) / rn = len / rn + 1).
  { symmetry; apply (Nat.div_unique _ _ _ (len mod rn - 1)); lia. }
  lia.
Qed.

Lemma forallb_false_In {A : Type} (f : A -> bool) (l : list A) (a : A) :
  In a l -> f a = false -> forallb f l = false.
Proof.
  intros Hin Hf.
  destruct (forallb f l) eqn:E; [|reflexivity].
  rewrite forallb_forall in E; rewrite (E a Hin) in Hf; discriminate.
Qed.

Lemma UnPixelShuffle_uneven (rn : nat) (x : Tensor) :
  1 <= rn -> dimH x mod rn <> 0 \/ dimW x mod rn <> 0 ->
  UnPixelShuffle_forward (Z.of_nat rn) x = Err RuntimeError.
Proof.
  intros Hr Hm.
  assert (R2 : 2 <= rn).
  { destruct (Nat.eq_dec rn 1) as [->|]; [|lia].
    rewrite !Nat.mod_1_r in Hm; destruct Hm; congruence. }
  set (r := Z.of_nat rn).
  assert (Er : Z.to_nat r = rn) by apply Nat2Z.id.
  unfold UnPixelShuffle_forward, chunk_list; fold r.
  set (offsets := flat_map (fun i => map (fun j => (i, j)) (py_range r)) (py_range r)).
  set (f := fun ij : Z * Z =>
              slice_hw (Some (fst ij)) (Some (Z.of_nat (dimH x))) r
                       (Some (snd ij)) (Some (Z.of_nat (dimW x))) r x).
  destruct (mapM_ok f offsets) as (cs & Ecs & Lcs & Ncs).
  { intros a Ha; destruct (offsets_In r a Ha) as (i & j & Hi & Hj & ->).
    rewrite Er in Hi, Hj.
    destruct (chunk_dims x rn i j ltac:(lia) Hi Hj) as (t & Et & _); exists t; exact Et. }
  rewrite Ecs; cbn [bind].
  assert (Hnth : forall i j, i < rn -> j < rn ->
            exists t, nth_error cs (i * rn + j) = Some t /\
                      dimH t = (dimH x + rn - 1 - i) / rn /\
                      dimW t = (dimW x + rn - 1 - j) / rn).
  { intros i j Hi Hj.
    pose proof (offsets_nth_error r i j) as Eo; rewrite Er in Eo.
    specialize (Eo Hi Hj); fold offsets in Eo.
    destruct (Ncs _ _ Eo) as (t & Et & Ft).
    destruct (chunk_dims x rn i j ltac:(lia) Hi Hj) as (t' & Et' & D1 & D2).
    assert (t' = t) by (unfold f, r in Ft; cbn [fst snd] in Ft; congruence); subst t'.
    exists t; auto. }
  destruct (Hnth 0 0 ltac:(lia) ltac:(lia)) as (t0 & E0 & H0 & W0).
  cbn [Nat.mul Nat.add] in E0.
  destruct cs as [|t0' rest]; [discriminate|].
  cbn in E0; inversion E0; subst t0'.
  assert (Bad : exists t, In t rest /\ same_outer t0 t = false).
  { destruct Hm as [Hm|Hm].
    - destruct (Hnth (rn - 1) 0 ltac:(lia) ltac:(lia)) as (t & Et & Ht & _).
      exists t; split.
      + destruct ((rn - 1) * rn + 0) as [|k] eqn:Ek; [nia|].
        cbn in Et; exact (nth_error_In _ _ Et).
      + unfold same_outer; rewrite H0, Ht.
        pose proof (uneven_chunks (dimH x) rn ltac:(lia) Hm) as U.
        apply Nat.eqb_neq in U; rewrite U, andb_false_r; reflexivity.
    - destruct (Hnth 0 (rn - 1) ltac:(lia) ltac:(lia)) as (t & Et & _ & Wt).
      exists t; split.
      + destruct (0 * rn + (rn - 1)) as [|k] eqn:Ek; [lia|].
        cbn in Et; exact (nth_error_In _ _ Et).
      + unfold same_outer; rewrite W0, Wt.
        pose proof (uneven_chunks (dimW x) rn ltac:(lia) Hm) as U.
        apply Nat.eqb_neq in U; rewrite U, andb_false_r; reflexivity. }
  destruct Bad as (t & Hin & Hbad).
  unfold cat_dim1; rewrite (forallb_false_In _ rest t Hin Hbad); reflexivity.
Qed.

(** [UnPixelShuffle(r).forward] returns a tensor exactly when [r >= 1] and
    both the height and the width of the input are multiples of [r].  With
    [r <= 0] the chunk list is empty and [torch.cat] raises; with a height or
    width that is not a multiple, the chunks differ in size and [torch.cat]
    raises as well. *)
Theorem UnPixelShuffle_defined_iff (r : Z) (x : Tensor) :
  is_ok (UnPixelShuffle_forward r x) = true <->
  ((1 <= r)%Z /\ (Z.of_nat (dimH x) mod r = 0)%Z /\ (Z.of_nat (dimW x) mod r = 0)%Z).
Proof.
  destruct (Z.le_gt_cases 1 r) as [Hr|Hr].
  - set (rn := Z.to_nat r).
    assert (E : r = Z.of_nat rn) by (unfold rn; lia).
    assert (Hrn : 1 <= rn) by (unfold rn; lia).
    rewrite E, <- !Nat2Z.inj_mod.
    destruct (Nat.eq_dec (dimH x mod rn) 0) as [MH|MH];
      [destruct (Nat.eq_dec (dimW x mod rn) 0) as [MW|MW]|].
    + assert (EH : dimH x = (dimH x / rn) * rn)
        by (pose proof (Nat.div_mod_eq (dimH x) rn); lia).
      assert (EW : dimW x = (dimW x / rn) * rn)
        by (pose proof (Nat.div_mod_eq (dimW x) rn); lia).
      destruct (UnPixelShuffle_eval rn x _ _ Hrn EH EW) as (out & Eo & _).
      rewrite Eo; cbn [is_ok]; split; [intros _; lia | reflexivity].
    + rewrite (UnPixelShuffle_uneven rn x Hrn (or_intror MW)); cbn [is_ok].
      split; [discriminate | lia].
    + rewrite (UnPixelShuffle_uneven rn x Hrn (or_introl MH)); cbn [is_ok].
      split; [discriminate | lia].
  - assert (E : UnPixelShuffle_forward r x = Err ValueError).
    { unfold UnPixelShuffle_forward, chunk_list, py_range.
      replace (Z.to_nat r) with 0 by lia; reflexivity. }
    rewrite E; cbn [is_ok]; split; [discriminate | lia].
Qed.

(** ** More on the shapes through [RLFN_Prune] *)

From Stdlib Require Import ZifyNat.

Module ShapesMore.
Import Shapes.

Ltac nat_div := zify; Z.to_euclidean_division_equations; lia.

Lemma window_out_cases (n k p s : nat) :
  s <> 0 ->
  window_out n k p s =
  if n + 2 * p <? k then Err RuntimeError else Ok ((n + 2 * p - k) / s + 1).
Proof.
  intros Hs; unfold window_out.
  destruct (Nat.eqb_spec s 0); [contradiction|].
  rewrite orb_false_r; reflexivity.
Qed.

(** Windows that keep the size: 1x1, and 3x3 with padding 1. *)
Lemma window_1 (n : nat) :
  window_out n 1 0 1 = if n <? 1 then Err RuntimeError else Ok n.
Proof.
  rewrite window_out_cases by lia.
  destruct (Nat.ltb_spec (n + 2 * 0) 1); destruct (Nat.ltb_spec n 1);
    try lia; [reflexivity|].
  rewrite Nat.div_1_r; f_equal; lia.
Qed.

Lemma window_3 (n : nat) :
  window_out n 3 1 1 = if n <? 1 then Err RuntimeError else Ok n.
Proof.
  rewrite window_out_cases by lia.
  destruct (Nat.ltb_spec (n + 2 * 1) 3); destruct (Nat.ltb_spec n 1);
    try lia; [reflexivity|].
  rewrite Nat.div_1_r; f_equal; lia.
Qed.

Lemma positive_channels (c : nat) : 1 <= c -> (c =? 0) = false.
Proof. intros H; apply Nat.eqb_neq; lia. Qed.

(** Follow a chain of layers: settle one comparison after the other. *)
Ltac shape_step :=
  repeat match goal with
         | H : (?c =? 0) = false |- context [?c =? 0] => rewrite H
         end;
  rewrite ?Nat.eqb_refl, ?Nat.mod_1_r, ?Nat.Div0.mod_same, ?broadcast_dim_same;
  rewrite ?window_1, ?window_3;
  rewrite ?window_out_cases by lia;
  cbn [negb orb bind Nat.eqb];
  try match goal with
      | |- context [?a <? ?b] =>
          destruct (Nat.ltb_spec a b); cbn [bind];
          first [reflexivity | exfalso; nat_div | idtac]
      end.

Ltac shape_eval := repeat progress shape_step.

Lemma ESA_forward_cases (f nf n h w : nat) :
  1 <= f -> 1 <= nf ->
  ESA_forward f nf (n, nf, h, w) =
  if (15 <=? h) && (15 <=? w) then Ok (n, nf, h, w) else Err RuntimeError.
Proof.
  intros Pf Pnf.
  apply positive_channels in Pf; apply positive_channels in Pnf.
  unfold ESA_forward, conv2d, max_pool2d, interpolate_size, broadcast.
  cbn [in_channels out_channels ksize stride padding groups fst snd].
  destruct (Nat.leb_spec 15 h); destruct (Nat.leb_spec 15 w); cbn [andb];
    shape_eval; reflexivity.
Qed.

Lemma broadcast_dim_error (a b : nat) (e : error) :
  broadcast_dim a b = Err e -> e = RuntimeError.
Proof.
  unfold broadcast_dim.
  destruct (a =? b); [discriminate|].
  destruct (a =? 1); [discriminate|].
  destruct (b =? 1); [discriminate|].
  intros H; inversion H; reflexivity.
Qed.

Lemma big_enough (h w : nat) :
  15 <= h -> 15 <= w -> (15 <=? h) && (15 <=? w) = true.
Proof. intros A B; apply andb_true_intro; split; apply Nat.leb_le; assumption. Qed.

Lemma too_small (h w : nat) :
  h < 15 \/ w < 15 -> (15 <=? h) && (15 <=? w) = false.
Proof.
  intros [A|A]; apply andb_false_iff; [left | right]; apply Nat.leb_gt; exact A.
Qed.

Lemma RLFB_forward_cases (cin mid n h w : nat) :
  1 <= cin -> 1 <= mid ->
  RLFB_forward cin mid (n, cin, h, w) =
  if (15 <=? h) && (15 <=? w) then Ok (n, cin, h, w) else Err RuntimeError.
Proof.
  intros Pc Pm.
  pose proof (ESA_forward_cases 16 cin n h w ltac:(lia) Pc) as ESA.
  apply positive_channels in Pc; apply positive_channels in Pm.
  unfold RLFB_forward, conv_layer_depth_wise, conv_layer, conv2d, broadcast.
  cbn [in_channels out_channels ksize stride padding groups fst snd].
  change ((3 - 1) / 2) with 1; change ((1 - 1) / 2) with 0.
  destruct (Nat.lt_ge_cases h 15) as [A|A];
    [|destruct (Nat.lt_ge_cases w 15) as [B|B]].
  - rewrite (too_small h w (or_introl A)) in *.
    shape_eval; try reflexivity.
    exact ESA.
  - rewrite (too_small h w (or_intror B)) in *.
    shape_eval; try reflexivity.
    exact ESA.
  - rewrite (big_enough h w A B) in *.
    shape_eval.
    exact ESA.
Qed.

(** [RLFN_Prune.forward] up to the upsampler: the low-resolution features have
    the size of the input, which must be at least 15x15. *)
Lemma RLFN_forward_body (cin oc fc mc u n h w : nat) :
  1 <= cin -> 1 <= fc -> 1 <= mc ->
  RLFN_forward (mkRLFN cin oc fc mc u) (n, cin, h, w) =
  if (15 <=? h) && (15 <=? w)
  then do output <- pixelshuffle_block fc oc u (n, fc, h, w);
       broadcast output (n, cin, h * 4, w * 4)
  else Err RuntimeError.
Proof.
  intros Pc Pf Pm.
  pose proof (RLFB_forward_cases fc mc n h w Pf Pm) as RLFB.
  apply positive_channels in Pc; apply positive_channels in Pf.
  unfold RLFN_forward.
  cbn [feature_channels mid_channels rl_in_channels rl_out_channels upscale
       interpolate_scale].
  unfold conv_layer at 1; unfold conv2d at 1.
  cbn [in_channels out_channels ksize stride padding groups fst snd].
  change ((3 - 1) / 2) with 1.
  destruct (Nat.lt_ge_cases h 15) as [A|A];
    [|destruct (Nat.lt_ge_cases w 15) as [B|B]].
  - rewrite (too_small h w (or_introl A)) in *.
    shape_eval; try reflexivity.
    rewrite RLFB; reflexivity.
  - rewrite (too_small h w (or_intror B)) in *.
    shape_eval; try reflexivity.
    rewrite RLFB; reflexivity.
  - rewrite (big_enough h w A B) in *.
    shape_eval.
    do 4 (rewrite RLFB; cbn [bind]).
    unfold conv_layer at 1; unfold conv2d at 1.
    cbn [in_channels out_channels ksize stride padding groups fst snd].
    change ((3 - 1) / 2) with 1.
    shape_eval.
    unfold broadcast at 1; shape_eval.
    reflexivity.
Qed.

(** Every error of the shape rules is torch's [RuntimeError]. *)
Lemma window_out_error (n k p s : nat) (e : error) :
  window_out n k p s = Err e -> e = RuntimeError.
Proof.
  unfold window_out; destruct (_ || _); [|discriminate].
  intros H; inversion H; reflexivity.
Qed.

Lemma conv2d_error (cv : Conv2d) (x : shape) (e : error) :
  conv2d cv x = Err e -> e = RuntimeError.
Proof.
  destruct x as [[[n c] h] w]; unfold conv2d.
  destruct (_ || _); [intros H; inversion H; reflexivity|].
  destruct (window_out h _ _ _) as [h'|e1] eqn:E1; cbn [bind];
    [|intros H; inversion H; subst; exact (window_out_error _ _ _ _ _ E1)].
  destruct (window_out w _ _ _) as [w'|e2] eqn:E2; cbn [bind];
    [discriminate|intros H; inversion H; subst; exact (window_out_error _ _ _ _ _ E2)].
Qed.

(** A network built without input, feature or middle channels raises in its
    first convolutions. *)
Lemma RLFN_without_channels (cin oc fc mc u : nat) (x : shape) :
  cin = 0 \/ fc = 0 \/ mc = 0 ->
  RLFN_forward (mkRLFN cin oc fc mc u) x = Err RuntimeError.
Proof.
  intros Hz; destruct x as [[[n c] h] w].
  unfold RLFN_forward.
  cbn [feature_channels mid_channels rl_in_channels rl_out_channels upscale].
  destruct (conv2d (conv_layer cin fc 3) (n, c, h, w)) as [y|e] eqn:E1; cbn [bind];
    [|rewrite (conv2d_error _ _ _ E1); reflexivity].
  destruct Hz as [->|[->| ->]].
  - exfalso; revert E1; unfold conv2d, conv_layer; cbn; discriminate.
  - exfalso; revert E1; unfold conv2d, conv_layer.
    cbn [in_channels out_channels ksize stride padding groups fst snd].
    rewrite Nat.eqb_refl, orb_true_r; cbn [orb]; discriminate.
  - unfold RLFB_forward at 1, conv_layer at 1, conv2d at 1.
    destruct y as [[[n1 c1] h1] w1].
    cbn [in_channels out_channels ksize stride padding groups fst snd].
    rewrite Nat.eqb_refl, orb_true_r; cbn [orb bind]; reflexivity.
Qed.

(** [conv_layer] pads by [int((k - 1) / 2)]: a convolution built by it with
    positive channel counts keeps the height and width for an odd kernel
    size, and loses one row and one column for an even one (inputs with a
    single row or column are then rejected). *)
Theorem conv_layer_keeps_size (cin cout k n h w : nat) :
  1 <= cin -> 1 <= cout ->
  1 <= k -> 1 <= h -> 1 <= w ->
  conv2d (conv_layer cin cout k) (n, cin, h, w) =
  if Nat.odd k then Ok (n, cout, h, w)
  else if (2 <=? h) && (2 <=? w) then Ok (n, cout, h - 1, w - 1)
       else Err RuntimeError.
Proof.
  intros Pi Po Hk Hh Hw.
  apply positive_channels in Pi; apply positive_channels in Po.
  unfold conv_layer, conv2d.
  cbn [in_channels out_channels ksize stride padding groups fst snd].
  rewrite Pi, Po, Nat.eqb_refl, !Nat.mod_1_r; cbn [negb orb Nat.eqb].
  rewrite !window_out_cases by lia.
  destruct (Nat.odd k) eqn:Ek.
  - apply Nat.odd_spec in Ek; destruct Ek as [m ->].
    replace ((2 * m + 1 - 1) / 2) with m by nat_div.
    destruct (Nat.ltb_spec (h + 2 * m) (2 * m + 1)); [lia|].
    destruct (Nat.ltb_spec (w + 2 * m) (2 * m + 1)); [lia|].
    cbn [bind]; rewrite !Nat.div_1_r; f_equal; f_equal; [f_equal|]; lia.
  - assert (Ev : Nat.even k = true) by (rewrite <- Nat.negb_odd, Ek; reflexivity).
    apply Nat.even_spec in Ev; destruct Ev as [m ->].
    replace ((2 * m - 1) / 2) with (m - 1)
      by nat_div.
    destruct (Nat.leb_spec 2 h); destruct (Nat.leb_spec 2 w); cbn [andb];
      repeat match goal with
             | |- context [?a <? ?b] => destruct (Nat.ltb_spec a b); try lia; cbn [bind]
             end;
      try reflexivity.
    rewrite !Nat.div_1_r; f_equal; f_equal; [f_equal|]; lia.
Qed.

Lemma conv_layer_keeps_size_witness :
  conv2d (conv_layer 3 46 3) (1, 3, 20, 30) = Ok (1, 46, 20, 30) /\
  conv2d (conv_layer 3 46 4) (1, 3, 20, 30) = Ok (1, 46, 19, 29).
Proof.
  split.
  - apply (conv_layer_keeps_size 3 46 3 1 20 30); lia.
  - apply (conv_layer_keeps_size 3 46 4 1 20 30); lia.
Defined.

(** The blocks [ESA] and [RLFB], built with positive channel counts, return
    a tensor of the shape of their input when it is at least 15x15, and
    raise on every smaller input. *)
Theorem RLFB_needs_15 (f nf cin mid n h w : nat) :
  1 <= f -> 1 <= nf -> 1 <= cin -> 1 <= mid ->
  (15 <= h /\ 15 <= w ->
     ESA_forward f nf (n, nf, h, w) = Ok (n, nf, h, w) /\
     RLFB_forward cin mid (n, cin, h, w) = Ok (n, cin, h, w)) /\
  (h < 15 \/ w < 15 ->
     ESA_forward f nf (n, nf, h, w) = Err RuntimeError /\
     RLFB_forward cin mid (n, cin, h, w) = Err RuntimeError).
Proof.
  intros Pf Pnf Pc Pm.
  rewrite (ESA_forward_cases f nf n h w Pf Pnf), (RLFB_forward_cases cin mid n h w Pc Pm).
  split.
  - intros [A B]; rewrite (big_enough h w A B); split; reflexivity.
  - intros A; rewrite (too_small h w A); split; reflexivity.
Qed.

Lemma RLFB_needs_15_witness :
  (15 <= 20 /\ 15 <= 15 ->
     ESA_forward 16 46 (1, 46, 20, 15) = Ok (1, 46, 20, 15) /\
     RLFB_forward 46 48 (1, 46, 20, 15) = Ok (1, 46, 20, 15)) /\
  (20 < 15 \/ 15 < 15 ->
     ESA_forward 16 46 (1, 46, 20, 15) = Err RuntimeError /\
     RLFB_forward 46 48 (1, 46, 20, 15) = Err RuntimeError).
Proof. apply (RLFB_needs_15 16 46 46 48 1 20 15); lia. Defined.

(** [RLFN_Prune] with [upscale=4] and positive channel counts, on an input
    with [in_channels] channels: inputs below 15x15 raise; otherwise the
    output is [(N, c, 4*H, 4*W)] where [c] is what [out_channels] and
    [in_channels] broadcast to in the final sum (and the sum raises if they
    do not). *)
Theorem RLFN_forward_cases (cin oc fc mc n h w : nat) :
  1 <= cin -> 1 <= oc -> 1 <= fc -> 1 <= mc ->
  RLFN_forward (mkRLFN cin oc fc mc 4) (n, cin, h, w) =
  if (15 <=? h) && (15 <=? w)
  then do c <- broadcast_dim oc cin; Ok (n, c, h * 4, w * 4)
  else Err RuntimeError.
Proof.
  intros Pc Po Pf Pm.
  rewrite (RLFN_forward_body cin oc fc mc 4 n h w Pc Pf Pm).
  destruct ((15 <=? h) && (15 <=? w)) eqn:E; [|reflexivity].
  apply andb_prop in E; destruct E as [A B].
  apply Nat.leb_le in A; apply Nat.leb_le in B.
  assert (Z16 : (oc * (4 * 4) =? 0) = false) by (apply Nat.eqb_neq; lia).
  apply positive_channels in Pf.
  unfold pixelshuffle_block, conv_layer, conv2d, pixel_shuffle, broadcast.
  cbn [in_channels out_channels ksize stride padding groups fst snd].
  change ((3 - 1) / 2) with 1.
  shape_eval.
  rewrite Nat.Div0.mod_mul, Nat.div_mul by lia.
  rewrite Nat.eqb_refl; cbn [negb bind].
  rewrite broadcast_dim_same; cbn [bind].
  destruct (broadcast_dim oc cin); cbn [bind]; [|reflexivity].
  rewrite !broadcast_dim_same; reflexivity.
Qed.

Lemma RLFN_forward_cases_witness :
  RLFN_forward (mkRLFN 1 3 46 48 4) (2, 1, 15, 40) = Ok (2, 3, 60, 160).
Proof. apply (RLFN_forward_cases 1 3 46 48 2 15 40); lia. Defined.

(** The skip connection of line 708 is upsampled by the constant 4, so with
    any other [upscale] the final sum never fits: [RLFN_Prune(upscale=u)] with
    [u <> 4] raises on every input. *)
Theorem RLFN_upscale_must_be_4 (net : RLFN_Prune) (x : shape) :
  upscale net <> 4 -> RLFN_forward net x = Err RuntimeError.
Proof.
  intros Hu.
  destruct net as [cin oc fc mc u]; cbn [upscale] in Hu.
  destruct (Nat.eq_dec cin 0) as [Zc|Zc];
    [apply RLFN_without_channels; left; exact Zc|].
  destruct (Nat.eq_dec fc 0) as [Zf|Zf];
    [apply RLFN_without_channels; right; left; exact Zf|].
  destruct (Nat.eq_dec mc 0) as [Zm|Zm];
    [apply RLFN_without_channels; right; right; exact Zm|].
  destruct x as [[[n c] h] w].
  destruct (Nat.eq_dec c cin) as [->|Hc].
  - rewrite RLFN_forward_body by lia.
    destruct ((15 <=? h) && (15 <=? w)) eqn:E; [|reflexivity].
    apply andb_prop in E; destruct E as [A B].
    apply Nat.leb_le in A; apply Nat.leb_le in B.
    unfold pixelshuffle_block.
    destruct (conv2d (conv_layer fc (oc * (u * u)) 3) (n, fc, h, w)) as [y|e] eqn:E1;
      cbn [bind]; [|rewrite (conv2d_error _ _ _ E1); reflexivity].
    revert E1; unfold conv_layer, conv2d.
    cbn [in_channels out_channels ksize stride padding groups fst snd].
    destruct (_ || _); [discriminate|].
    change ((3 - 1) / 2) with 1.
    rewrite !window_3.
    destruct (Nat.ltb_spec h 1); [lia|].
    destruct (Nat.ltb_spec w 1); [lia|].
    cbn [bind]; intros E1; inversion E1; subst y; clear E1.
    unfold pixel_shuffle, broadcast.
    destruct (Nat.eqb_spec u 0) as [->|U0]; [reflexivity|].
    rewrite Nat.Div0.mod_mul, Nat.eqb_refl; cbn [negb orb bind].
    rewrite broadcast_dim_same; cbn [bind].
    destruct (broadcast_dim (oc * (u * u) / (u * u)) cin) as [c|e] eqn:Eb;
      cbn [bind]; [|rewrite (broadcast_dim_error _ _ e Eb); reflexivity].
    unfold broadcast_dim at 1.
    destruct (Nat.eqb_spec (h * u) (h * 4)); [nia|].
    destruct (Nat.eqb_spec (h * u) 1); [nia|].
    destruct (Nat.eqb_spec (h * 4) 1); [lia|].
    reflexivity.
  - unfold RLFN_forward, conv_layer, conv2d.
    cbn [feature_channels mid_channels rl_in_channels rl_out_channels upscale
         in_channels out_channels ksize stride padding groups fst snd].
    destruct (Nat.eqb_spec c cin); [contradiction|].
    rewrite orb_true_r; reflexivity.
Qed.

Lemma RLFN_upscale_must_be_4_witness :
  RLFN_forward (mkRLFN 3 3 46 48 2) (1, 3, 64, 64) = Err RuntimeError.
Proof.
  apply (RLFN_upscale_must_be_4 (mkRLFN 3 3 46 48 2) (1, 3, 64, 64)).
  cbn; lia.
Defined.

End ShapesMore.

(** ** Averaging keeps constants *)

Lemma Z2Qc_plus (a b : Z) : Z2Qc (a + b) = (Z2Qc a + Z2Qc b)%Qc.
Proof.
  unfold Z2Qc; apply Qc_is_canon; cbn [this Qcplus Q2Qc].
  rewrite !Qred_correct, inject_Z_plus; reflexivity.
Qed.

Lemma Z2Qc_nonzero (a : Z) : a <> 0%Z -> Z2Qc a <> 0%Qc.
Proof.
  intros Ha E; apply Ha.
  unfold Z2Qc in E.
  change 0%Qc with (Q2Qc (inject_Z 0)) in E.
  apply Q2Qc_eq_iff in E.
  unfold Qeq, inject_Z in E; cbn in E; lia.
Qed.

Lemma sum_below_const (v : Qc) (n : nat) :
  sum_below (fun _ => v) n = (Z2Qc (Z.of_nat n) * v)%Qc.
Proof.
  induction n as [|n IH]; cbn [sum_below].
  - change (Z2Qc (Z.of_nat 0)) with 0%Qc; ring.
  - rewrite IH, Nat2Z.inj_succ, <- Z.add_1_r, Z2Qc_plus.
    change (Z2Qc 1) with 1%Qc; ring.
Qed.

Lemma Z2Qc_mult (a b : Z) : Z2Qc (a * b) = (Z2Qc a * Z2Qc b)%Qc.
Proof.
  unfold Z2Qc; apply Qc_is_canon; cbn [this Qcmult Q2Qc].
  rewrite !Qred_correct, inject_Z_mult; reflexivity.
Qed.

(** In exact arithmetic, on an input with at least one channel, row and
    column whose entries are all equal to [v], the integral-image branch with
    [auto_pad] returns a tensor of the input's shape whose entries are all
    [v]. *)
Theorem forward_keeps_constants (x : Tensor) (s s' : AvgPool2d) (ks0 ks1 : Z) (v : Qc) :
  lazy_kernel_size x s = (s', Ok tt) ->
  kernel_size s' = Some (ks0, ks1) ->
  fast_imp s' = false -> auto_pad s' = true ->
  (1 <= ks0)%Z -> (1 <= ks1)%Z ->
  ~ ((ks0 >= Z.of_nat (dimH x))%Z /\ (ks1 >= Z.of_nat (dimW x))%Z) ->
  1 <= dimC x -> 1 <= dimH x -> 1 <= dimW x ->
  (forall b c i j, b < dimN x -> c < dimC x -> i < dimH x -> j < dimW x ->
     get x b c i j = v) ->
  exists t,
    snd (forward x s) = Ok t /\
    has_shape t (dimN x) (dimC x) (dimH x) (dimW x) /\
    forall b c i j, b < dimN x -> c < dimC x -> i < dimH x -> j < dimW x ->
      get t b c i j = v.
Proof.
  intros HL HK HF HA P0 P1 Hn Hch Hh Hw Hv.
  rewrite (forward_sliding x s s' (ks0, ks1) HL HK Hn), HF, HA; cbn [snd].
  destruct (integral_image_pool_values (ks0, ks1) x P0 P1)
    as (out & Eout & (DN & DC & DH & DW & G)).
  cbn [fst snd sliding_mean dimN dimC dimH dimW get] in DN, DC, DH, DW, G.
  set (k1 := Z.to_nat (Z.min (Z.of_nat (dimH x)) ks0)) in *.
  set (k2 := Z.to_nat (Z.min (Z.of_nat (dimW x)) ks1)) in *.
  assert (L1 : 1 <= k1 <= dimH x) by (unfold k1; lia).
  assert (L2 : 1 <= k2 <= dimW x) by (unfold k2; lia).
  rewrite Eout; cbn [bind].
  rewrite (auto_pad_out_eval x out) by lia.
  eexists; split; [reflexivity|].
  split.
  { unfold has_shape; cbn [dimN dimC dimH dimW].
    split; [exact DN|]. split; [exact DC|]. split; reflexivity. }
  intros b c i j Hb Hc Hi Hj; cbn [get].
  set (p1 := clamp_index (dimH out) _).
  set (p2 := clamp_index (dimW out) _).
  assert (B1 : p1 < dimH out) by (unfold p1, clamp_index; lia).
  assert (B2 : p2 < dimW out) by (unfold p2, clamp_index; lia).
  rewrite G by lia.
  unfold window_sum.
  rewrite (sum_below_ext _ (fun _ => (Z2Qc (Z.of_nat k2) * v)%Qc))
    by (intros di Hdi;
        rewrite (sum_below_ext _ (fun _ => v)) by (intros dj Hdj; apply Hv; lia);
        apply sum_below_const).
  rewrite sum_below_const, Nat2Z.inj_mul, Z2Qc_mult.
  field; split; apply Z2Qc_nonzero; lia.
Qed.

Lemma forward_keeps_constants_witness :
  exists t,
    snd (forward (mkTensor 1 1 5 6 (fun _ _ _ _ => Z2Qc 7))
           (init (Some (3, 2)%Z) None true false None)) = Ok t /\
    has_shape t 1 1 5 6.
Proof.
  destruct (forward_keeps_constants
              (mkTensor 1 1 5 6 (fun _ _ _ _ => Z2Qc 7))
              (init (Some (3, 2)%Z) None true false None)
              (init (Some (3, 2)%Z) None true false None) 3 2 (Z2Qc 7))
    as (t & E & S & _); try reflexivity; try (cbn; lia).
  exists t; split; [exact E | exact S].
Defined.
